(** * Workflow validator and variable resolution: a shallow embedding

    The development follows three Python sources.

    - [src/translator/validator.py]: class [WorkflowValidator], with the
      topological sequencer ([_get_topological_order]), the scope sweep
      ([_build_outputs_map]), the placeholder extraction
      ([_extract_variables], [_search_dict_for_variables]), the output-name
      heuristic ([_infer_output_name]), the required-field check
      ([_validate_node_configs]) and the aggregating [validate].
    - [output/.../graph.py]: the generated pipeline's run-time resolvers
      ([_resolve_template], [_resolve_param_variable], [_resolve_params]) and
      the node methods that call them.
    - [src/translator/generator.py]: what [CodeGenerator] computes for its
      templates ([_get_class_name], [_extract_function_names],
      [_prepare_input_params], [_format_input_example] and the context of
      [_generate_graph_py]).

    Python values are embedded as follows: [str] is [string] (a sequence of
    one-byte characters, compared by code), [int] is [Z], a [set] of strings is
    a [gset string], a [dict] whose iteration order the code can observe is an
    insertion-ordered association list ([dict]), a [dict] that is only looked
    up is a [gmap]; a raised exception is the left summand of [outcome]. *)

From Stdlib Require Import ZArith String Ascii List Lia.
From Equations Require Import Equations.
From stdpp Require Import base gmap sets list strings sorting.

Set Warnings "-clear-no-such-hyp".

Open Scope string_scope.
Open Scope Z_scope.
Open Scope list_scope.

(** ** Python run-time model *)

Module Py.

(** Text carried by a [ValueError]: the two messages the sources build. *)
Inductive message :=
| MsgCycle
    (* "Cycle detected in workflow graph" *)
| MsgNotFound (var_name : string) (available : list string).
    (* f"Variable '{var_name}' not found in state. Available: {list(state.keys())}" *)

Inductive exn :=
| KeyError (key : string)
| IndexError
| ValueError (msg : message).

(** A call either raises ([inl]) or returns ([inr]). *)
Definition outcome (A : Type) : Type := exn + A.

Definition raise {A} (e : exn) : outcome A := inl e.

#[global] Instance outcome_ret : MRet outcome := λ A a, inr a.
#[global] Instance outcome_bind : MBind outcome := λ A B k m,
  match m with
  | inl e => inl e
  | inr a => k a
  end.
#[global] Instance outcome_fmap : FMap outcome := λ A B f m,
  match m with
  | inl e => inl e
  | inr a => inr (f a)
  end.

(** Remembering the equation of a scrutinee in a definition by cases. *)
Definition inspect {A} (a : A) : {b | a = b} := exist _ a eq_refl.

(** *** Insertion-ordered dictionaries *)

Abbreviation dict V := (list (string * V)).

Fixpoint dict_get {V} (k : string) (d : dict V) : option V :=
  match d with
  | [] => None
  | (k', v) :: d' => if decide (k' = k) then Some v else dict_get k d'
  end.

(** [d[k] = v]: an existing key keeps its position, a new key goes last. *)
Fixpoint dict_set {V} (k : string) (v : V) (d : dict V) : dict V :=
  match d with
  | [] => [(k, v)]
  | (k', v') :: d' =>
      if decide (k' = k) then (k, v) :: d' else (k', v') :: dict_set k v d'
  end.

Definition dict_keys {V} (d : dict V) : list string := d.*1.

(** [d[k]] as an expression: [KeyError] when the key is absent. *)
Definition dict_item {V} (k : string) (d : dict V) : outcome V :=
  match dict_get k d with
  | Some v => mret v
  | None => raise (KeyError k)
  end.

(** [list.sort()] on strings: ascending by character code.  The order is
    total and antisymmetric, so the sorted list is unique and stability
    plays no role. *)
Definition sort (l : list string) : list string := merge_sort String.le l.

(** *** Strings *)

Definition backslash : ascii := "092"%char.
Definition dquote : ascii := "034"%char.
Definition newline : ascii := "010"%char.
Definition carriage_return : ascii := "013"%char.
Definition tab : ascii := "009"%char.

(** [s.split(sep)] for a one-character separator: every occurrence cuts, so
    the result is never empty and keeps empty pieces. *)
Fixpoint split (sep : ascii) (s : string) : list string :=
  match s with
  | EmptyString => [EmptyString]
  | String c s' =>
      if decide (c = sep) then EmptyString :: split sep s'
      else match split sep s' with
           | [] => [String c EmptyString]
           | piece :: pieces => String c piece :: pieces
           end
  end.

(** [sep.join(pieces)] *)
Fixpoint join (sep : string) (pieces : list string) : string :=
  match pieces with
  | [] => EmptyString
  | [piece] => piece
  | piece :: pieces' => piece +:+ sep +:+ join sep pieces'
  end.

(** [s.replace(old, new)] for a one-character [old]. *)
Fixpoint replace (old : ascii) (new : string) (s : string) : string :=
  match s with
  | EmptyString => EmptyString
  | String c s' =>
      if decide (c = old) then new +:+ replace old new s'
      else String c (replace old new s')
  end.

(** [sub in s] *)
Fixpoint contains (sub s : string) : bool :=
  String.prefix sub s ||
  match s with
  | EmptyString => false
  | String _ s' => contains sub s'
  end.

(** *** The pattern [\{\{(\w+)\}\}]

    Both sources use this one regular expression, on Python strings and
    without [re.ASCII].  [is_word] is the class [\w] on ASCII characters: the
    letters, the digits and the underscore.  [\w] also accepts alphanumerics
    beyond ASCII, which this class leaves out: on ASCII text ([ascii_text]
    below) the embedding of the pattern is that of the code, and what is
    stated of the matches in an arbitrary text is stated of ASCII text. *)
Definition is_word (c : ascii) : bool :=
  let n := nat_of_ascii c in
  bool_decide (97 ≤ n ≤ 122 ∨ 65 ≤ n ≤ 90 ∨ 48 ≤ n ≤ 57 ∨ n = 95)%nat.

(** The longest run of word characters at the front of [s], and what follows
    it: the greedy [\w+]. *)
Fixpoint span_word (s : string) : string * string :=
  match s with
  | EmptyString => (EmptyString, EmptyString)
  | String c s' =>
      if is_word c
      then let '(w, rest) := span_word s' in (String c w, rest)
      else (EmptyString, s)
  end.

(** A match of the pattern anchored at the front of [s]: the captured name
    and the text after the match.  A closing brace is not a word character,
    so giving back characters of the greedy run can never make a failed
    attempt succeed, and the match at a position is unique. *)
Definition match_token (s : string) : option (string * string) :=
  match s with
  | String "{" (String "{" s1) =>
      match span_word s1 with
      | (String c w, String "}" (String "}" s2)) => Some (String c w, s2)
      | _ => None
      end
  | _ => None
  end.

(** [re.fullmatch(pattern, s)], giving group 1. *)
Definition fullmatch (s : string) : option string :=
  match match_token s with
  | Some (var_name, EmptyString) => Some var_name
  | _ => None
  end.

(** [re.findall(pattern, s)]: the names of the leftmost non-overlapping
    matches.  [skip] counts the characters of the current match still to be
    passed over. *)
Fixpoint findall_from (skip : nat) (s : string) : list string :=
  match s with
  | EmptyString => []
  | String _ s' =>
      match skip with
      | S k => findall_from k s'
      | O =>
          match match_token s with
          | Some (var_name, _) =>
              var_name :: findall_from (3 + String.length var_name) s'
          | None => findall_from 0 s'
          end
      end
  end.

Definition findall (s : string) : list string := findall_from 0 s.

(** [re.sub(pattern, replacer, s)] with a function [replacer] of the captured
    name, called match by match from the left; an exception of [replacer]
    leaves [re.sub]. *)
Fixpoint sub_from (replacer : string → outcome string) (skip : nat)
    (s : string) : outcome string :=
  match s with
  | EmptyString => mret EmptyString
  | String c s' =>
      match skip with
      | S k => sub_from replacer k s'
      | O =>
          match match_token s with
          | Some (var_name, _) =>
              text ← replacer var_name;
              rest ← sub_from replacer (3 + String.length var_name) s';
              mret (text +:+ rest)
          | None =>
              rest ← sub_from replacer 0 s';
              mret (String c rest)
          end
      end
  end.

Definition sub (replacer : string → outcome string) (s : string) : outcome string :=
  sub_from replacer 0 s.

End Py.

Export Py.

(** ** The document schema ([models/skill.py]) *)

(** A value typed [Any] in the sources: what YAML and JSON documents hold.
    A float is carried by the literal text Python prints for it, the only
    thing the modelled code observes of a float. *)
#[warnings="-register-all"]
Inductive Any :=
| VNone
| VBool (b : bool)
| VInt (n : Z)
| VFloat (repr : string)
| VStr (s : string)
| VList (items : list Any)
| VDict (items : list (string * Any)).

(** The classes of [skill.py] that the validator reads.  Two classes share
    the field names [name] and [type]; the projections are told apart here as
    [param_type], [output_name] and [output_type].  The optional float
    [temperature] is held as its text, like [VFloat]. *)
Module Skill.

Record ParameterModel := {
  name : string;
  param_type : string;
  required : bool;
  default : option Any }.

Record NodeOutputModel := {
  output_name : string;
  output_type : string }.

Record NodeConfigModel := {
  function_name : option string;
  function_params : option (dict Any);
  model : option string;
  prompt_template : option string;
  temperature : option string;
  component_type : option string;
  template : option (dict Any) }.

(** [validate_node_type] admits exactly these four kinds. *)
Inductive NodeType := function_call | llm_call | visualizer | user_approval.

Record NodeModel := {
  id : string;
  type : NodeType;
  config : NodeConfigModel;
  outputs : option (list NodeOutputModel) }.

Record EdgeModel := {
  source_node : string;
  target_node : string }.

Record WorkflowModel := {
  nodes : list NodeModel;
  edges : list EdgeModel }.

(** The validator reads [skill.skill.inputs.parameters] and
    [skill.skill.workflow]; metadata and triggers play no part in it. *)
Record SkillYAML := {
  parameters : list ParameterModel;
  workflow : WorkflowModel }.

End Skill.

Import Skill.

(** ** The validator ([translator/validator.py]) *)

Module Validator.

(** *** [_get_topological_order] *)

(** [{node.id: v for node in self.workflow.nodes}] *)
Definition dict_from_nodes {V} (v : V) (ns : list NodeModel) : dict V :=
  foldl (λ d n, dict_set (id n) v d) [] ns.

(** The loop over [self.edges] that fills [adj_list] and [in_degree]. *)
Fixpoint add_edges (es : list EdgeModel) (adj_list : dict (list string))
    (in_degree : dict Z) : outcome (dict (list string) * dict Z) :=
  match es with
  | [] => mret (adj_list, in_degree)
  | edge :: es' =>
      targets ← dict_item (source_node edge) adj_list;
      let adj_list := dict_set (source_node edge) (targets ++ [target_node edge]) adj_list in
      degree ← dict_item (target_node edge) in_degree;
      let in_degree := dict_set (target_node edge) (degree + 1) in_degree in
      add_edges es' adj_list in_degree
  end.

(** The inner [for neighbor in adj_list[node_id]] loop. *)
Fixpoint relax (neighbors : list string) (in_degree : dict Z)
    (queue : list string) : outcome (dict Z * list string) :=
  match neighbors with
  | [] => mret (in_degree, queue)
  | neighbor :: neighbors' =>
      degree ← dict_item neighbor in_degree;
      let in_degree := dict_set neighbor (degree - 1) in_degree in
      let queue := if decide (degree - 1 = 0) then queue ++ [neighbor] else queue in
      relax neighbors' in_degree queue
  end.

(** Number of keys whose in-degree is still positive. *)
Definition positives (in_degree : dict Z) : nat :=
  length (filter (λ kv, 0 < kv.2) in_degree).

(** The [while queue:] loop of Kahn's algorithm.  Each round removes one entry
    from the queue and adds one only when a positive in-degree reaches zero,
    which is what makes the loop stop. *)
Equations? kahn (adj_list : dict (list string)) (in_degree : dict Z)
    (queue result : list string) : outcome (list string)
    by wf (length queue + positives in_degree)%nat lt :=
kahn adj_list in_degree [] result := mret result;
kahn adj_list in_degree (q :: qs) result with inspect (Py.sort (q :: qs)) := {
  | exist _ [] _ := raise IndexError
  | exist _ (node_id :: queue') Hsort with inspect (dict_item node_id adj_list) := {
    | exist _ (inl e) _ := raise e
    | exist _ (inr neighbors) _ with inspect (relax neighbors in_degree queue') := {
      | exist _ (inl e) _ := raise e
      | exist _ (inr (in_degree', queue'')) Hrelax :=
          kahn adj_list in_degree' queue'' (result ++ [node_id]) } } }.
Proof.
  (* sorting keeps the length, so popping the head shortens the queue *)
  assert (length (q :: qs) = S (length queue')) as Hpop.
  { rewrite <- (Permutation_length (merge_sort_Permutation String.le (q :: qs))).
    unfold Py.sort in Hsort. by rewrite Hsort. }
  (* a decrement that appends to the queue removes a positive in-degree *)
  assert (∀ k d (ind : dict Z), dict_get k ind = Some d →
            (positives (dict_set k (d - 1)%Z ind)
             + (if decide (d - 1 = 0)%Z then 1 else 0) ≤ positives ind)%nat) as Hdec.
  { clear. unfold positives. intros k d ind.
    induction ind as [|[k' v'] t IH]; simpl; [done|].
    destruct (decide (k' = k)) as [->|Hk]; intros Hget.
    - injection Hget as ->. rewrite !filter_cons; simpl.
      repeat case_decide; simpl; lia.
    - specialize (IH Hget). rewrite !filter_cons; simpl.
      repeat case_decide; simpl in *; lia. }
  assert (∀ nbrs ind qu ind' qu', relax nbrs ind qu = inr (ind', qu') →
            (length qu' + positives ind' ≤ length qu + positives ind)%nat) as Hinner.
  { clear -Hdec. induction nbrs as [|nb t IH]; simpl; intros ind qu ind' qu' H.
    - by injection H as <- <-.
    - unfold dict_item in H.
      destruct (dict_get nb ind) as [d|] eqn:Hd; simpl in H; [|done].
      apply IH in H. pose proof (Hdec _ _ _ Hd) as Hp.
      case_decide; rewrite ?length_app in H; simpl in *; lia. }
  apply Hinner in Hrelax. simpl in *. lia.
Qed.

(** The body of [_get_topological_order] up to the end of the loop: the
    list [result] as the final length check finds it. *)
Definition kahn_result (w : WorkflowModel) : outcome (list string) :=
  let in_degree := dict_from_nodes 0 (nodes w) in
  let adj_list := dict_from_nodes [] (nodes w) in
  '(adj_list, in_degree) ← add_edges (edges w) adj_list in_degree;
  let queue := (filter (λ kv, kv.2 = 0) in_degree).*1 in
  kahn adj_list in_degree queue [].

Definition _get_topological_order (w : WorkflowModel) : outcome (list string) :=
  result ← kahn_result w;
  if decide (length result ≠ length (nodes w))
  then raise (ValueError MsgCycle)
  else mret result.

(** [get_topological_order]: the public entry first caches [_build_graph],
    which only lists ids and edge pairs, then delegates. *)
Definition _build_graph (w : WorkflowModel) : list string * list (string * string) :=
  (id <$> nodes w, (λ e, (source_node e, target_node e)) <$> edges w).

Definition get_topological_order (w : WorkflowModel) : outcome (list string) :=
  _get_topological_order w.

(** *** [_infer_output_name] *)

Definition transforms : dict string :=
  [("enrich", "enriched"); ("summarize", "summarized");
   ("process", "processed"); ("transform", "transformed")].

Definition _infer_output_name (node_id : string) : string :=
  let parts := split "_" node_id in
  match parts with
  | verb :: (_ :: _) as rest =>
      match dict_get verb transforms with
      | Some past => past +:+ "_" +:+ join "_" rest
      | None => node_id
      end
  | _ => node_id
  end.

(** *** [_build_outputs_map] *)

(** [self.nodes = {node.id: node for node in self.workflow.nodes}]: of two
    nodes with one id the later one is kept. *)
Definition nodes_by_id (w : WorkflowModel) : gmap string NodeModel :=
  foldl (λ m n, <[id n := n]> m) ∅ (nodes w).

(** [self.nodes[node_id]] *)
Definition node_item (w : WorkflowModel) (node_id : string) : outcome NodeModel :=
  match nodes_by_id w !! node_id with
  | Some node => mret node
  | None => raise (KeyError node_id)
  end.

(** The names a node contributes: its declared outputs when the list is
    non-empty, else the one name inferred from its id. *)
Definition node_output_names (node_id : string) (node : NodeModel) : list string :=
  match outputs node with
  | Some (o :: os) => output_name <$> (o :: os)
  | _ => [_infer_output_name node_id]
  end.

(** The [for node_id in topo_order] loop. *)
Fixpoint sweep (w : WorkflowModel) (topo_order : list string)
    (available : gset string) (available_outputs : gmap string (gset string))
    : outcome (gmap string (gset string)) :=
  match topo_order with
  | [] => mret available_outputs
  | node_id :: topo_order' =>
      node ← node_item w node_id;
      let available_outputs := <[node_id := available]> available_outputs in
      let available := foldl (λ a o, a ∪ {[o]}) available (node_output_names node_id node) in
      sweep w topo_order' available available_outputs
  end.

(** [available_outputs] is the validator's field, passed in and returned.
    The bare [except] swallows every failure of the ordering. *)
Definition _build_outputs_map (skill : SkillYAML)
    (available_outputs : gmap string (gset string))
    : outcome (gmap string (gset string)) :=
  match _get_topological_order (workflow skill) with
  | inl _ => mret available_outputs
  | inr topo_order =>
      let available := foldl (λ a p, a ∪ {[name p]}) ∅ (parameters skill) in
      sweep (workflow skill) topo_order available available_outputs
  end.

(** *** Placeholder extraction *)

Fixpoint _search_dict_for_variables (obj : Any) (variables : gset string)
    : gset string :=
  match obj with
  | VDict items =>
      (fix values (items : list (string * Any)) (variables : gset string) :=
         match items with
         | [] => variables
         | (_, v) :: items' => values items' (_search_dict_for_variables v variables)
         end) items variables
  | VList items =>
      (fix each (items : list Any) (variables : gset string) :=
         match items with
         | [] => variables
         | item :: items' => each items' (_search_dict_for_variables item variables)
         end) items variables
  | VStr s => variables ∪ list_to_set (findall s)
  | _ => variables
  end.

(** [node.config.model_dump()]: the seven fields in declaration order. *)
Definition model_dump (c : NodeConfigModel) : Any :=
  VDict [("function_name", from_option VStr VNone (function_name c));
         ("function_params", from_option VDict VNone (function_params c));
         ("model", from_option VStr VNone (model c));
         ("prompt_template", from_option VStr VNone (prompt_template c));
         ("temperature", from_option VFloat VNone (temperature c));
         ("component_type", from_option VStr VNone (component_type c));
         ("template", from_option VDict VNone (template c))].

Definition _extract_variables (node : NodeModel) : gset string :=
  _search_dict_for_variables (model_dump (config node)) ∅.

(** *** The report *)

(** One constructor per message the validator formats; the arguments are the
    values interpolated into the text. *)
Inductive error :=
| DuplicateNodeIds (ids : gset string)
    (* f"Duplicate node IDs found: {set(duplicates)}" *)
| NonExistentSource (node_id : string)
    (* f"Edge references non-existent source node: {edge.source_node}" *)
| NonExistentTarget (node_id : string)
    (* f"Edge references non-existent target node: {edge.target_node}" *)
| WorkflowContainsCycles (msg : message)
    (* f"Workflow contains cycles: {str(e)}" *)
| CannotValidateVariables (msg : message)
    (* f"Cannot validate variables due to cyclic workflow: {str(e)}" *)
| UndefinedVariable (node_id var : string) (available : list string)
    (* f"Node '{node_id}' references undefined variable '{var}'. "
       f"Available: {sorted(available)}" *)
| MissingFunctionName (node_id : string)
    (* f"Node '{node.id}' (function_call) missing function_name" *)
| MissingPromptTemplate (node_id : string)
    (* f"Node '{node.id}' (llm_call) missing prompt_template" *)
| MissingComponentType (node_id : string).
    (* f"Node '{node.id}' (visualizer) missing component_type" *)

#[global] Instance message_eq_dec : EqDecision message.
Proof. solve_decision. Defined.
#[global] Instance exn_eq_dec : EqDecision exn.
Proof. solve_decision. Defined.
#[global] Instance error_eq_dec : EqDecision error.
Proof. solve_decision. Defined.

(** *** [_validate_variable_references] *)

(** The errors of one node.  A Python set is walked in an order the language
    leaves open; the model walks [elements variables]. *)
Definition node_variable_errors (node_id : string) (available variables : gset string)
    : list error :=
  (λ var, UndefinedVariable node_id var (Py.sort (elements available)))
    <$> filter (λ var, var ∉ available) (elements variables).

Fixpoint check_nodes (w : WorkflowModel)
    (available_outputs : gmap string (gset string))
    (topo_order : list string) (errors : list error) : outcome (list error) :=
  match topo_order with
  | [] => mret errors
  | node_id :: topo_order' =>
      node ← node_item w node_id;
      let available := from_option (λ a, a) ∅ (available_outputs !! node_id) in
      let variables := _extract_variables node in
      check_nodes w available_outputs topo_order'
        (errors ++ node_variable_errors node_id available variables)
  end.

Definition _validate_variable_references (skill : SkillYAML)
    (available_outputs : gmap string (gset string)) : outcome (list error) :=
  match _get_topological_order (workflow skill) with
  | inl (ValueError e) => mret [CannotValidateVariables e]
  | inl e => raise e
  | inr topo_order => check_nodes (workflow skill) available_outputs topo_order []
  end.

(** *** [_validate_node_configs] *)

(** Python truth of an [Optional[str]]: [None] and the empty string are
    false. *)
Definition truthy (o : option string) : bool :=
  match o with
  | Some (String _ _) => true
  | _ => false
  end.

Definition node_config_errors (node : NodeModel) : list error :=
  match type node with
  | function_call =>
      if truthy (function_name (config node)) then []
      else [MissingFunctionName (id node)]
  | llm_call =>
      if truthy (prompt_template (config node)) then []
      else [MissingPromptTemplate (id node)]
  | visualizer =>
      if truthy (component_type (config node)) then []
      else [MissingComponentType (id node)]
  | user_approval => []
  end.

Definition _validate_node_configs (w : WorkflowModel) : list error :=
  foldl (λ errors node, errors ++ node_config_errors node) [] (nodes w).

(** *** [validate] *)

Definition duplicate_errors (w : WorkflowModel) : list error :=
  let node_ids := id <$> nodes w in
  let duplicates :=
    filter (λ nid, (1 < length (filter (λ x, x = nid) node_ids))%nat) node_ids in
  match duplicates with
  | [] => []
  | _ => [DuplicateNodeIds (list_to_set duplicates)]
  end.

Definition edge_errors (w : WorkflowModel) : list error :=
  foldl (λ errors edge,
    let errors :=
      if decide (is_Some (nodes_by_id w !! source_node edge)) then errors
      else errors ++ [NonExistentSource (source_node edge)] in
    if decide (is_Some (nodes_by_id w !! target_node edge)) then errors
    else errors ++ [NonExistentTarget (target_node edge)]) [] (edges w).

(** [validate] on a freshly built validator, as [validate_skill] runs it.
    [_build_graph] cannot raise, so its handler is not reached.  The ordering
    is guarded by [except ValueError] alone: any other exception leaves
    [validate]. *)
Definition validate (skill : SkillYAML) : outcome (bool * list error) :=
  let w := workflow skill in
  let errors := duplicate_errors w in
  let errors := errors ++ edge_errors w in
  errors ← match _get_topological_order w with
           | inr _ => mret errors
           | inl (ValueError e) => mret (errors ++ [WorkflowContainsCycles e])
           | inl e => raise e
           end;
  available_outputs ← _build_outputs_map skill ∅;
  var_errors ← _validate_variable_references skill available_outputs;
  let errors := errors ++ var_errors in
  let config_errors := _validate_node_configs w in
  let errors := errors ++ config_errors in
  mret (bool_decide (length errors = 0%nat), errors).

Definition validate_skill (skill : SkillYAML) : outcome (bool * list error) :=
  validate skill.

End Validator.

Import Validator.

(** ** The generated pipeline ([output/.../graph.py]) *)

Module Graph.

Section resolvers.

(** Two library functions are parameters of the model, since the resolvers
    only hand values to them: [json.dumps(value, ensure_ascii=flag)] and the
    built-in [str] on a value that is not itself a string. *)
Variable json_dumps : bool → Any → string.
Variable str : Any → string.

(** The chain of five [replace] calls, innermost first. *)
Definition escape (value_str : string) : string :=
  replace tab "\t"
    (replace carriage_return "\r"
      (replace newline "\n"
        (replace dquote (String backslash (String dquote EmptyString))
          (replace backslash "\\" value_str)))).

(** [state.get(var_name)] followed by the [is None] test: an absent name and
    a name bound to [None] are not told apart. *)
Definition state_get (var_name : string) (state : dict Any) : outcome Any :=
  match dict_get var_name state with
  | None | Some VNone =>
      raise (ValueError (MsgNotFound var_name (dict_keys state)))
  | Some value => mret value
  end.

(** *** [_resolve_template] *)

Definition template_replacer (state : dict Any) (var_name : string)
    : outcome string :=
  value ← state_get var_name state;
  let value_str :=
    match value with
    | VDict _ | VList _ => json_dumps false value
    | VInt _ | VFloat _ | VBool _ => json_dumps true value
    | VStr s => s
    | VNone => str value
    end in
  mret (escape value_str).

Definition _resolve_template (template : string) (state : dict Any)
    : outcome string :=
  sub (template_replacer state) template.

(** *** [_resolve_param_variable] *)

Definition param_replacer (state : dict Any) (var_name : string)
    : outcome string :=
  value ← state_get var_name state;
  mret (match value with VStr s => s | _ => str value end).

Definition _resolve_param_variable (template_str : string) (state : dict Any)
    : outcome Any :=
  match fullmatch template_str with
  | None => VStr <$> sub (param_replacer state) template_str
  | Some var_name =>
      match dict_get var_name state with
      | None => raise (ValueError (MsgNotFound var_name (dict_keys state)))
      | Some value => mret value
      end
  end.

(** *** [_resolve_params] *)

(** One element of a list parameter. *)
Definition resolve_item (state : dict Any) (item : Any) : outcome Any :=
  match item with
  | VStr s =>
      if contains "{{" s then _resolve_param_variable s state else mret item
  | _ => mret item
  end.

Fixpoint resolve_items (state : dict Any) (items : list Any)
    : outcome (list Any) :=
  match items with
  | [] => mret []
  | item :: items' =>
      item' ← resolve_item state item;
      rest ← resolve_items state items';
      mret (item' :: rest)
  end.

(** One entry of [params]: the three branches of the loop body. *)
Definition resolve_entry (state : dict Any) (value : Any) : outcome Any :=
  match value with
  | VStr s =>
      if contains "{{" s then _resolve_param_variable s state else mret value
  | VList items => VList <$> resolve_items state items
  | _ => mret value
  end.

Fixpoint resolve_entries (state : dict Any) (params resolved : dict Any)
    : outcome (dict Any) :=
  match params with
  | [] => mret resolved
  | (key, value) :: params' =>
      value' ← resolve_entry state value;
      resolve_entries state params' (dict_set key value' resolved)
  end.

Definition _resolve_params (params state : dict Any) : outcome (dict Any) :=
  resolve_entries state params [].

End resolvers.

End Graph.

(** ** JSON string literals

    What the specification calls re-parsing the document-shaped template is
    [json.loads]; the part of it that reads a string literal is modelled here
    after RFC 8259, section 7, as the library's strict scanner applies it. *)

Module Json.

(** The character a backslash escape stands for. *)
Definition unescape (c : ascii) : option ascii :=
  if decide (c = dquote) then Some dquote
  else if decide (c = backslash) then Some backslash
  else if decide (c = "/"%char) then Some "/"%char
  else if decide (c = "b"%char) then Some "008"%char
  else if decide (c = "f"%char) then Some "012"%char
  else if decide (c = "n"%char) then Some newline
  else if decide (c = "r"%char) then Some carriage_return
  else if decide (c = "t"%char) then Some tab
  else None.

(** Reads a string literal from just after its opening quote: the decoded
    text and the input left after the closing quote, or [None] when the
    literal is malformed (a raw control character, a bad escape, no closing
    quote).  The [\u] escape is not modelled. *)
Fixpoint scanstring (s : string) : option (string * string) :=
  match s with
  | EmptyString => None
  | String c s' =>
      if decide (c = dquote) then Some (EmptyString, s')
      else if decide (c = backslash) then
        match s' with
        | EmptyString => None
        | String e s'' =>
            ch ← unescape e;
            '(text, rest) ← scanstring s'';
            Some (String ch text, rest)
        end
      else if decide (nat_of_ascii c < 32)%nat then None
      else
        '(text, rest) ← scanstring s';
        Some (String c text, rest)
  end.

(** A document of the shape that [json.dumps] gives a mapping with one
    string field: an opening brace, the key literal, a colon and a space, the
    value literal, a closing brace.  [loads_field] reads it back. *)
Definition quoted (body : string) : string :=
  String dquote (body +:+ String dquote EmptyString).

Definition field_document (key body : string) : string :=
  "{" +:+ quoted key +:+ ": " +:+ quoted body +:+ "}".

Definition loads_field (doc : string) : option (string * string) :=
  match doc with
  | String "{" (String q doc1) =>
      if decide (q = dquote) then
        '(key, doc2) ← scanstring doc1;
        match doc2 with
        | String ":" (String " " (String q' doc3)) =>
            if decide (q' = dquote) then
              '(text, doc4) ← scanstring doc3;
              if decide (doc4 = "}") then Some (key, text) else None
            else None
        | _ => None
        end
      else None
  | _ => None
  end.

End Json.

(** ** The node methods of the generated pipeline ([output/.../graph.py])

    The methods that LangGraph runs as nodes, each from a state to a state.
    The mock library is a parameter: its calls may return or raise.  The
    progress lines that the methods print are not modelled. *)

Module Pipeline.

Section nodes.

Variable json_dumps : bool → Any → string.
Variable str : Any → string.

(** [self.mock_lib.call_api], [.call_function] and [.llm_call] *)
Variable call_api : string → dict Any → outcome Any.
Variable call_function : string → dict Any → outcome Any.
Variable llm_call : string → dict Any → outcome Any.

Definition _node_generate_embedding (state : dict Any) : outcome (dict Any) :=
  let params : dict Any := [] in
  resolved_params ← Graph._resolve_params str params state;
  result ← call_api "/api/embeddings/generate" resolved_params;
  mret (dict_set "embedding" result state).

Definition _node_vector_search (state : dict Any) : outcome (dict Any) :=
  let params := [("embedding", VStr "{{embedding}}"); ("limit", VStr "{{limit}}")] in
  resolved_params ← Graph._resolve_params str params state;
  result ← call_function "VectorSearchWorkOrders" resolved_params;
  mret (dict_set "similar_workorders" result state).

Definition _node_enrich_results (state : dict Any) : outcome (dict Any) :=
  let params := [("workorder_ids", VStr "{{similar_workorders}}")] in
  resolved_params ← Graph._resolve_params str params state;
  result ← call_function "MxFetchWorkOrderDetails" resolved_params;
  mret (dict_set "enriched_results" result state).

(** The prompt of [summarize_findings], in three pieces around its two
    placeholders. *)
Definition prompt_head : string :=
  "You found these similar work orders for: " +:+ String dquote EmptyString.

Definition prompt_middle : string :=
  String dquote (String newline (String newline
    ("Similar Work Orders:" +:+ String newline EmptyString))).

Definition prompt_tail : string :=
  String newline (String newline
    ("Provide:" +:+ String newline
    ("1. Summary of common issues" +:+ String newline
    ("2. Solutions that worked" +:+ String newline
    ("3. Parts commonly needed" +:+ String newline
    ("4. Estimated resolution time" +:+ String newline EmptyString)))))).

Definition prompt_template : string :=
  prompt_head +:+ "{{workorder_description}}" +:+ prompt_middle
    +:+ "{{enriched_results}}" +:+ prompt_tail.

Definition _node_summarize_findings (state : dict Any) : outcome (dict Any) :=
  prompt ← Graph._resolve_template json_dumps str prompt_template state;
  let config := [("model", VStr "claude-sonnet-4-5"); ("temperature", VFloat "0.3")] in
  result ← llm_call prompt config;
  mret (dict_set "summarized_findings" result state).

End nodes.

(** *** [execute] *)

(** What [execute] raises: its own [ValueError] about a missing input, or
    whatever the compiled graph raises. *)
Inductive execute_exn :=
| MissingRequiredInput (req : string)
    (* ValueError(f"Missing required input: {req}") *)
| Raised (e : exn).

Section execute.

(** [self.graph.invoke], the compiled LangGraph workflow. *)
Variable invoke : dict Any → outcome (dict Any).

(** The loop [for param in inputs: initial_state[param] = inputs[param]]. *)
Fixpoint copy_inputs (params : list string) (inputs initial_state : dict Any)
    : outcome (dict Any) :=
  match params with
  | [] => mret initial_state
  | param :: params' =>
      value ← dict_item param inputs;
      copy_inputs params' inputs (dict_set param value initial_state)
  end.

Definition execute (inputs : dict Any) : execute_exn + dict Any :=
  let required_inputs := ["workorder_description"] in
  match filter (λ req, req ∉ dict_keys inputs) required_inputs with
  | req :: _ => inl (MissingRequiredInput req)
  | [] =>
      match initial_state ← copy_inputs (dict_keys inputs) inputs []; invoke initial_state with
      | inl e => inl (Raised e)
      | inr final_state => inr final_state
      end
  end.

End execute.

End Pipeline.

(** ** The code generator ([translator/generator.py])

    The functions of [CodeGenerator] that compute what the templates are
    given.  Rendering, the clock, hashing and the file system are outside the
    model.  [self.validator] is a [WorkflowValidator] on the same skill. *)

Module Generator.

(** *** [_get_class_name] *)

(** [str.capitalize()] on ASCII text: the first character in upper case, the
    others in lower case.  The letters outside ASCII, which Python maps too,
    lie outside the model. *)
Definition upper (c : ascii) : ascii :=
  let n := nat_of_ascii c in
  if bool_decide (97 ≤ n ≤ 122)%nat then ascii_of_nat (n - 32) else c.

Definition lower (c : ascii) : ascii :=
  let n := nat_of_ascii c in
  if bool_decide (65 ≤ n ≤ 90)%nat then ascii_of_nat (n + 32) else c.

Fixpoint lower_all (s : string) : string :=
  match s with
  | EmptyString => EmptyString
  | String c s' => String (lower c) (lower_all s')
  end.

Definition capitalize (word : string) : string :=
  match word with
  | EmptyString => EmptyString
  | String c rest => String (upper c) (lower_all rest)
  end.

(** The argument is [self.skill.skill.metadata.id]. *)
Definition _get_class_name (metadata_id : string) : string :=
  let parts := split "_" metadata_id in
  join EmptyString (capitalize <$> parts) +:+ "Workflow".

(** *** [_extract_function_names] *)

Definition _extract_function_names (skill : SkillYAML) : gset string :=
  foldl (λ functions node,
    match type node with
    | function_call =>
        let func_name := function_name (config node) in
        match func_name with
        | Some f =>
            if truthy func_name && negb (String.prefix "/api/" f)
            then functions ∪ {[f]}
            else functions
        | None => functions
        end
    | _ => functions
    end) ∅ (nodes (workflow skill)).

(** [sorted(function_names)], the list [_generate_mock_functions] hands to
    its template. *)
Definition mock_function_names (skill : SkillYAML) : list string :=
  Py.sort (elements (_extract_function_names skill)).

(** *** [_prepare_input_params] *)

(** [param.default] as a value: an absent default is [None]. *)
Definition default_value (param : ParameterModel) : Any :=
  from_option (λ d, d) VNone (default param).

Record InputParam := {
  ip_name : string;
  ip_type : string;
  ip_required : bool;
  example_value : Any }.

(** The body of the loop. *)
Definition prepare_input_param (param : ParameterModel) : InputParam :=
  let example_value := default_value param in
  let example_value :=
    match example_value with
    | VNone =>
        if decide (param_type param = "string")
        then VStr ("example_" +:+ name param)
        else if decide (param_type param = "integer") then VInt 10
        else if decide (param_type param = "boolean") then VBool true
        else VNone
    | _ => example_value
    end in
  {| ip_name := name param; ip_type := param_type param;
     ip_required := required param; example_value := example_value |}.

Definition _prepare_input_params (skill : SkillYAML) : list InputParam :=
  prepare_input_param <$> parameters skill.

(** *** [_format_input_example] *)

(** Python's truth value of a document value. *)
Definition py_bool (v : Any) : bool :=
  match v with
  | VNone => false
  | VBool b => b
  | VInt n => negb (n =? 0)
  | VFloat repr => negb (bool_decide (repr = "0.0" ∨ repr = "-0.0"))
  | VStr s => negb (bool_decide (s = EmptyString))
  | VList items => negb (bool_decide (items = []))
  | VDict items => negb (bool_decide (items = []))
  end.

Section format.

(** [str] is the built-in on a value that is not a string, as the f-string
    applies it. *)
Variable str : Any → string.

(** One line of the example: the body of the loop. *)
Definition format_input_line (param : ParameterModel) : string :=
  let example :=
    if py_bool (default_value param) then default_value param
    else VStr (Json.quoted ("example_" +:+ name param)) in
  let example :=
    match example with
    | VStr s =>
        if negb (String.prefix (String dquote EmptyString) s)
        then VStr (Json.quoted s) else example
    | _ => example
    end in
  "    " +:+ Json.quoted (name param) +:+ ": "
    +:+ match example with VStr s => s | _ => str example end.

Definition _format_input_example (skill : SkillYAML) : string :=
  join (String "," (String newline EmptyString))
    (format_input_line <$> parameters skill).

End format.

(** *** [_generate_graph_py]: the template context *)

Record NodeData := {
  nd_id : string;
  nd_type : NodeType;
  nd_config : NodeConfigModel;
  nd_outputs : list NodeOutputModel;
  inferred_output : option string }.

(** The config is passed on as the record itself; the source dumps it to a
    mapping without its [None] fields. *)
Definition _prepare_node_data (node : NodeModel) : NodeData :=
  let inferred_output :=
    match outputs node with
    | Some (_ :: _) => None
    | _ => Some (_infer_output_name (id node))
    end in
  {| nd_id := id node; nd_type := type node; nd_config := config node;
     nd_outputs := from_option (λ os, os) [] (outputs node);
     inferred_output := inferred_output |}.

(** The entries of [context] that are computed from the workflow. *)
Record GraphContext := {
  ctx_nodes : list NodeData;
  ctx_edges : list (string * string);
  start_node : option string;
  end_node : option string;
  required_inputs : list string;
  input_params : list InputParam }.

Definition graph_context (skill : SkillYAML) : outcome GraphContext :=
  let w := workflow skill in
  node_order ← get_topological_order w;
  ordered_nodes ← mapM (λ nid, _prepare_node_data <$> node_item w nid) node_order;
  let target_nodes : gset string := list_to_set (target_node <$> edges w) in
  let source_nodes : gset string := list_to_set (source_node <$> edges w) in
  let start_nodes := id <$> filter (λ n, id n ∉ target_nodes) (nodes w) in
  let end_nodes := id <$> filter (λ n, id n ∉ source_nodes) (nodes w) in
  mret {| ctx_nodes := ordered_nodes;
          ctx_edges := (λ e, (source_node e, target_node e)) <$> edges w;
          start_node := match start_nodes with
                        | s :: _ => Some s
                        | [] => nd_id <$> head ordered_nodes
                        end;
          end_node := match end_nodes with
                      | t :: _ => Some t
                      | [] => nd_id <$> last ordered_nodes
                      end;
          required_inputs := name <$> filter (λ p, required p = true) (parameters skill);
          input_params := _prepare_input_params skill |}.

End Generator.


(** ** Vocabulary of the statements *)

(** Graph notions over node ids [ids] and (source, target) pairs [E], the two
    lists [_build_graph] extracts. *)
Module Dag.

(** Occurrences of [n] in [l]. *)
Definition occ (n : string) (l : list string) : nat :=
  length (filter (λ x, x = n) l).

Section defs.

Variable ids : list string.
Variable E : list (string * string).

(** A walk along at least one edge. *)
Inductive path : string → string → Prop :=
| path_edge s t : (s, t) ∈ E → path s t
| path_step s m t : (s, m) ∈ E → path m t → path s t.

Definition acyclic : Prop := ∀ n, ¬ path n n.
Definition has_cycle : Prop := ∃ n, path n n.

(** Every edge joins two existing nodes. *)
Definition closed : Prop := ∀ s t, (s, t) ∈ E → s ∈ ids ∧ t ∈ ids.

(** Targets of the edges leaving [n], in edge order: [adj_list[n]]. *)
Definition succs (n : string) : list string := (filter (λ e, e.1 = n) E).*2.

(** Edges into [n] whose source has not been emitted: the remaining
    in-degree of [n] once the nodes of [emitted] are out. *)
Definition pending (emitted : list string) (n : string) : nat :=
  length (filter (λ e, e.2 = n ∧ e.1 ∉ emitted) E).

(** [n] is a node still to be emitted whose remaining in-degree is zero. *)
Definition ready (emitted : list string) (n : string) : Prop :=
  n ∈ ids ∧ (n ∉ emitted) ∧ (∀ s, (s, n) ∈ E → s ∈ emitted).

(** Each entry of [order] was ready after the entries before it and was the
    smallest ready id at that moment. *)
Definition smallest_ready_first (order : list string) : Prop :=
  ∀ k n, order !! k = Some n →
    ready (take k order) n ∧ (∀ m, ready (take k order) m → String.le n m).

(** [s] stands strictly before [t] in [order]. *)
Definition precedes (order : list string) (s t : string) : Prop :=
  ∃ i j, order !! i = Some s ∧ order !! j = Some t ∧ (i < j)%nat.

(** The loop invariant.  [todo] lists the neighbours the inner loop has yet
    to visit; between rounds of the outer loop it is empty. *)
Record kahn_inv (in_degree : dict Z) (queue emitted todo : list string) : Prop := {
  inv_degree : ∀ n, n ∈ ids →
    dict_get n in_degree = Some (Z.of_nat (pending emitted n + occ n todo));
  inv_queue : ∀ n, n ∈ queue ↔
    n ∈ ids ∧ (n ∉ emitted) ∧ (pending emitted n + occ n todo = 0)%nat;
  inv_queue_nodup : NoDup queue }.

(** What the outer loop maintains between rounds. *)
Record kahn_state (adj_list : dict (list string)) (in_degree : dict Z)
    (queue emitted : list string) : Prop := {
  st_adj : ∀ n, n ∈ ids → dict_get n adj_list = Some (succs n);
  st_inv : kahn_inv in_degree queue emitted [];
  st_nodup : NoDup emitted;
  st_sub : ∀ n, n ∈ emitted → n ∈ ids;
  st_trace : smallest_ready_first emitted }.

(** What holds of the returned list: when the queue runs dry, every node
    left over still waits for a node that is itself left over. *)
Record kahn_post (order : list string) : Prop := {
  post_nodup : NoDup order;
  post_sub : ∀ n, n ∈ order → n ∈ ids;
  post_trace : smallest_ready_first order;
  post_stuck : ∀ n, n ∈ ids → n ∉ order → ∃ s, (s, n) ∈ E ∧ s ∉ order }.

(** Consecutive entries joined by edges. *)
Fixpoint is_chain (l : list string) : Prop :=
  match l with
  | x :: ((y :: _) as l') => (x, y) ∈ E ∧ is_chain l'
  | _ => True
  end.

End defs.

End Dag.

Import Dag.

(** Ids unique, edges closed: the data model's invariants of a workflow
    graph. *)
Definition node_ids (w : WorkflowModel) : list string := (_build_graph w).1.
Definition edge_pairs (w : WorkflowModel) : list (string * string) := (_build_graph w).2.

Definition well_formed (w : WorkflowModel) : Prop :=
  NoDup (node_ids w) ∧ closed (node_ids w) (edge_pairs w).

(** The characters of a string, for saying which ones occur in it. *)
Definition chars (s : string) : list ascii := list_ascii_of_string s.

(** The placeholder text for a name. *)
Definition token (var_name : string) : string := "{{" +:+ var_name +:+ "}}".

(** A name the pattern can capture: one or more word characters. *)
Definition is_name (s : string) : Prop :=
  s ≠ EmptyString ∧ Forall (λ c, is_word c = true) (chars s).

(** The names the step [node_id] adds to the visible set, and the names the
    steps of a list add together. *)
Definition outputs_of (w : WorkflowModel) (node_id : string) : gset string :=
  match nodes_by_id w !! node_id with
  | Some node => list_to_set (node_output_names node_id node)
  | None => ∅
  end.

Definition outputs_of_all (w : WorkflowModel) (steps : list string) : gset string :=
  ⋃ (outputs_of w <$> steps).

Definition parameter_names (skill : SkillYAML) : gset string :=
  list_to_set (name <$> parameters skill).

(** The strings found as leaves of a document value: under any nesting of
    mappings (as values, not keys) and sequences. *)
Inductive string_leaf : Any → string → Prop :=
| leaf_here s : string_leaf (VStr s) s
| leaf_in_list items item s :
    item ∈ items → string_leaf item s → string_leaf (VList items) s
| leaf_in_dict items key v s :
    (key, v) ∈ items → string_leaf v s → string_leaf (VDict items) s.

(** A scope error about the variable [var] at the node [node_id]. *)
Definition reports_variable (node_id var : string) (e : error) : Prop :=
  match e with
  | UndefinedVariable n v _ => n = node_id ∧ v = var
  | _ => False
  end.

#[global] Instance reports_variable_dec node_id var e :
  Decision (reports_variable node_id var e).
Proof. destruct e; simpl; apply _. Defined.

(** Structured resolution of one list element against [state]: a whole
    token becomes the stored value, an element that holds no token stays. *)
Definition resolves_item (state : dict Any) (item item' : Any) : Prop :=
  match item with
  | VStr s =>
      (∀ var_name, is_name var_name → s = token var_name →
         dict_get var_name state = Some item') ∧
      (findall s = [] → item' = item)
  | _ => item' = item
  end.

(** The same for one parameter, whose elements are resolved one by one when
    it is a list. *)
Definition resolves_entry (state : dict Any) (value value' : Any) : Prop :=
  match value with
  | VList items =>
      ∃ items', value' = VList items' ∧ Forall2 (resolves_item state) items items'
  | _ => resolves_item state value value'
  end.

(** The parameter is the whole token of [var_name], or a list with that
    token as an element. *)
Definition has_whole_token (value : Any) (var_name : string) : Prop :=
  value = VStr (token var_name) ∨
  ∃ items, value = VList items ∧ VStr (token var_name) ∈ items.

(** The error of both resolvers: it names a variable that has no value in
    [state] and lists the names bound there. *)
Definition unbound_error (state : dict Any) (e : exn) : Prop :=
  ∃ var_name,
    e = ValueError (MsgNotFound var_name (dict_keys state)) ∧
    (dict_get var_name state = None ∨ dict_get var_name state = Some VNone).

(** Characters that the five replacements of [escape] leave fit for a JSON
    string literal: everything from the space upwards, and the newline, the
    carriage return and the tab, which are escaped. *)
Definition json_safe (c : ascii) : Prop :=
  (32 ≤ nat_of_ascii c)%nat ∨ c = newline ∨ c = carriage_return ∨ c = tab.

(** Position of [n] in [l], or the length of [l]. *)
Fixpoint index_of (n : string) (l : list string) : nat :=
  match l with
  | [] => 0
  | x :: l' => if decide (x = n) then 0 else S (index_of n l')
  end.

(** The errors of the step [node_id], as [check_nodes] computes them. *)
Definition step_errors (w : WorkflowModel)
    (available_outputs : gmap string (gset string)) (node_id : string) : list error :=
  match nodes_by_id w !! node_id with
  | Some node =>
      node_variable_errors node_id
        (from_option (λ a, a) ∅ (available_outputs !! node_id))
        (_extract_variables node)
  | None => []
  end.

(** [s] without its first [k] characters. *)
Fixpoint drop_chars (k : nat) (s : string) : string :=
  match k, s with
  | S k', String _ s' => drop_chars k' s'
  | _, _ => s
  end.

(** What [escape] writes for one character. *)
Definition escape_char (c : ascii) : string :=
  if decide (c = backslash) then "\\"
  else if decide (c = dquote) then String backslash (String dquote EmptyString)
  else if decide (c = newline) then "\n"
  else if decide (c = carriage_return) then "\r"
  else if decide (c = tab) then "\t"
  else String c EmptyString.

(** An edge one of whose ends names no node. *)
Definition dangling (w : WorkflowModel) (e : EdgeModel) : Prop :=
  source_node e ∉ node_ids w ∨ target_node e ∉ node_ids w.

(** The two kinds of report entry that steps 4 and 5 produce. *)
Definition is_scope_error (e : error) : Prop :=
  match e with
  | UndefinedVariable _ _ _ => True
  | _ => False
  end.

Definition is_config_error (e : error) : Prop :=
  match e with
  | MissingFunctionName _ | MissingPromptTemplate _ | MissingComponentType _ => True
  | _ => False
  end.

#[global] Instance is_scope_error_dec e : Decision (is_scope_error e).
Proof. destruct e; simpl; apply _. Defined.

#[global] Instance is_config_error_dec e : Decision (is_config_error e).
Proof. destruct e; simpl; apply _. Defined.

(** The two report entries of the edge check. *)
Definition is_edge_error (e : error) : Prop :=
  match e with
  | NonExistentSource _ | NonExistentTarget _ => True
  | _ => False
  end.

#[global] Instance is_edge_error_dec e : Decision (is_edge_error e).
Proof. destruct e; simpl; apply _. Defined.

(** An optional text that Python's [not] takes as absent: [None] or the
    empty string. *)
Definition missing (o : option string) : Prop := o = None ∨ o = Some EmptyString.

(** The required field of a node, by its kind; [user_approval] has none. *)
Definition required_field (node : NodeModel) : option (option string) :=
  match type node with
  | function_call => Some (function_name (config node))
  | llm_call => Some (prompt_template (config node))
  | visualizer => Some (component_type (config node))
  | user_approval => None
  end.

(** A name whose value the text resolvers cannot use: it is absent from
    [state], or bound to [None]. *)
Definition unusable (state : dict Any) (var_name : string) : Prop :=
  match dict_get var_name state with
  | None | Some VNone => True
  | Some _ => False
  end.

#[global] Instance unusable_dec state var_name : Decision (unusable state var_name).
Proof. unfold unusable. destruct (dict_get var_name state) as [[]|]; apply _. Defined.

(** The escaped form of a text, character by character. *)
Fixpoint escape_each (s : string) : string :=
  match s with
  | EmptyString => EmptyString
  | String c s' => escape_char c +:+ escape_each s'
  end.

(** The text [_resolve_template] writes for a value, before escaping. *)
Definition rendered (json_dumps : bool → Any → string) (str : Any → string)
    (value : Any) : string :=
  match value with
  | VDict _ | VList _ => json_dumps false value
  | VInt _ | VFloat _ | VBool _ => json_dumps true value
  | VStr s => s
  | VNone => str value
  end.

(** Character classes of an identifier. *)
Definition is_lower (c : ascii) : Prop := (97 ≤ nat_of_ascii c ≤ 122)%nat.
Definition is_upper (c : ascii) : Prop := (65 ≤ nat_of_ascii c ≤ 90)%nat.
Definition is_digit (c : ascii) : Prop := (48 ≤ nat_of_ascii c ≤ 57)%nat.
Definition is_alnum (c : ascii) : Prop := is_lower c ∨ is_upper c ∨ is_digit c.

(** An id in snake case: lower-case letters, digits and underscores, the
    first character a letter. *)
Definition snake_case (s : string) : Prop :=
  match s with
  | String c _ => is_lower c
  | EmptyString => False
  end ∧ Forall (λ c, is_lower c ∨ is_digit c ∨ c = "_"%char) (chars s).

(** A text of ASCII characters.  On such a text Python's [\w] is the class of
    [is_word]: the letters, the digits and the underscore. *)
Definition ascii_text (s : string) : Prop :=
  Forall (λ c, (nat_of_ascii c < 128)%nat) (chars s).

#[global] Instance ascii_text_dec s : Decision (ascii_text s).
Proof. unfold ascii_text. apply _. Defined.

(** The output names of a node: the declared names when the node declares
    any, else the one name inferred from its id. *)
Definition provides (node : NodeModel) (x : string) : Prop :=
  match outputs node with
  | Some (o :: os) => x ∈ output_name <$> (o :: os)
  | _ => x = _infer_output_name (id node)
  end.

(** The texts of a node's config: the values of its four text fields and the
    string leaves inside its two mapping fields.  The temperature is a number
    and holds no text. *)
Definition config_text (c : NodeConfigModel) (s : string) : Prop :=
  function_name c = Some s ∨ model c = Some s ∨ prompt_template c = Some s ∨
  component_type c = Some s ∨
  (∃ params, function_params c = Some params ∧ string_leaf (VDict params) s) ∨
  (∃ fields, template c = Some fields ∧ string_leaf (VDict fields) s).

(** The same texts as a list, for checking a given document. *)
Fixpoint string_leaves (obj : Any) : list string :=
  match obj with
  | VStr s => [s]
  | VList items =>
      (fix each (items : list Any) : list string :=
         match items with
         | [] => []
         | item :: items' => string_leaves item ++ each items'
         end) items
  | VDict items =>
      (fix values (items : list (string * Any)) : list string :=
         match items with
         | [] => []
         | (_, v) :: items' => string_leaves v ++ values items'
         end) items
  | _ => []
  end.

Definition config_texts (c : NodeConfigModel) : list string :=
  option_list (function_name c) ++ option_list (model c)
  ++ option_list (prompt_template c) ++ option_list (component_type c)
  ++ from_option (λ params, string_leaves (VDict params)) [] (function_params c)
  ++ from_option (λ fields, string_leaves (VDict fields)) [] (template c).

(** The strings that [_resolve_params] looks at in a parameter mapping: the
    values that are strings and the strings among the elements of the values
    that are lists. *)
Definition param_texts (params : dict Any) : list string :=
  params ≫= λ kv,
    match kv.2 with
    | VStr s => [s]
    | VList items => items ≫= λ item, match item with VStr s => [s] | _ => [] end
    | _ => []
    end.

(** ** Sample documents *)

Module Examples.

Definition no_config : NodeConfigModel :=
  {| function_name := None; function_params := Some []; model := None;
     prompt_template := None; temperature := None; component_type := None;
     template := None |}.

Definition function_node (node_id fn : string) (params : dict Any)
    (outs : list NodeOutputModel) : NodeModel :=
  {| id := node_id; type := function_call;
     config := {| function_name := Some fn; function_params := Some params;
                  model := None; prompt_template := None; temperature := None;
                  component_type := None; template := None |};
     outputs := Some outs |}.

(** The workflow that [output/workorder_similarity_search_.../graph.py] was
    generated from, read back from its five node methods and four edges (the
    prompt is abridged). *)
Definition similarity_nodes : list NodeModel :=
  [ function_node "generate_embedding" "/api/embeddings/generate" []
      [{| output_name := "embedding"; output_type := "array" |}];
    function_node "vector_search" "VectorSearchWorkOrders"
      [("embedding", VStr "{{embedding}}"); ("limit", VStr "{{limit}}")]
      [{| output_name := "similar_workorders"; output_type := "array" |}];
    function_node "enrich_results" "MxFetchWorkOrderDetails"
      [("workorder_ids", VStr "{{similar_workorders}}")] [];
    {| id := "summarize_findings"; type := llm_call;
       config := {| function_name := None; function_params := Some [];
                    model := Some "claude-sonnet-4-5";
                    prompt_template :=
                      Some "Similar work orders for {{workorder_description}}: {{enriched_results}}";
                    temperature := Some "0.3"; component_type := None;
                    template := None |};
       outputs := Some [] |};
    {| id := "display_results"; type := visualizer;
       config := {| function_name := None; function_params := Some [];
                    model := None; prompt_template := None; temperature := None;
                    component_type := Some "card";
                    template := Some
                      [("title", VStr "Similar Work Orders");
                       ("sections", VList
                          [VDict [("type", VStr "summary");
                                  ("data", VStr "{{summarized_findings}}")];
                           VDict [("type", VStr "list");
                                  ("data", VStr "{{enriched_results}}")]])] |};
       outputs := Some [] |} ].

Definition similarity_edges : list EdgeModel :=
  [ {| source_node := "generate_embedding"; target_node := "vector_search" |};
    {| source_node := "vector_search"; target_node := "enrich_results" |};
    {| source_node := "enrich_results"; target_node := "summarize_findings" |};
    {| source_node := "summarize_findings"; target_node := "display_results" |} ].

Definition similarity_search : SkillYAML :=
  {| parameters :=
       [{| name := "workorder_description"; param_type := "string";
           required := true; default := None |};
        {| name := "limit"; param_type := "integer";
           required := false; default := Some (VInt 10) |}];
     workflow := {| nodes := similarity_nodes; edges := similarity_edges |} |}.

(** A step that refers to a name nothing provides. *)
Definition undefined_reference : SkillYAML :=
  {| parameters :=
       [{| name := "topic"; param_type := "string"; required := true;
           default := None |}];
     workflow :=
       {| nodes :=
            [ {| id := "report"; type := llm_call;
                 config := {| function_name := None; function_params := Some [];
                              model := None;
                              prompt_template :=
                                Some "Summarise {{undefined_var}} for {{topic}}";
                              temperature := None; component_type := None;
                              template := None |};
                 outputs := None |} ];
          edges := [] |} |}.

(** The state when [vector_search] runs, and the parameters it resolves. *)
Definition search_state : dict Any :=
  [("workorder_description", VStr "pump leaking"); ("limit", VInt 10);
   ("embedding", VList [VFloat "0.12"; VFloat "-0.5"])].

Definition search_params : dict Any :=
  [("embedding", VStr "{{embedding}}"); ("limit", VStr "{{limit}}");
   ("tags", VList [VStr "{{limit}}"; VStr "fixed"; VInt 3])].

(** A parameter that is a nested mapping with a token inside. *)
Definition nested_params : dict Any :=
  [("filter", VDict [("asset", VStr "{{asset_id}}")])].

(** The template of a one-field card and a state whose summary is a single
    form feed, the page break of printed text (code 12). *)
Definition card_template : string :=
  Json.field_document "data" "{{summarized_findings}}".

Definition form_feed_state : dict Any :=
  [("summarized_findings", VStr (String "012"%char EmptyString))].

(** Two steps that wait for each other; the first lacks its function name. *)
Definition two_cycle : SkillYAML :=
  {| parameters := [];
     workflow :=
       {| nodes := [ {| id := "a"; type := function_call; config := no_config;
                        outputs := None |};
                     function_node "b" "F" [] [] ];
          edges := [ {| source_node := "a"; target_node := "b" |};
                     {| source_node := "b"; target_node := "a" |} ] |} |}.

(** One step and an edge that starts at a node nobody declared. *)
Definition ghost_edge : SkillYAML :=
  {| parameters := [];
     workflow :=
       {| nodes := [ function_node "a" "F" [] [] ];
          edges := [ {| source_node := "ghost"; target_node := "a" |} ] |} |}.

(** Two steps declared under one id, and no edge. *)
Definition twin_ids : SkillYAML :=
  {| parameters := [];
     workflow :=
       {| nodes := [ function_node "a" "F" [] []; function_node "a" "G" [] [] ];
          edges := [] |} |}.

(** One step, and a parameter whose default is zero. *)
Definition zero_default : SkillYAML :=
  {| parameters :=
       [{| name := "offset"; param_type := "integer"; required := false;
           default := Some (VInt 0) |}];
     workflow := {| nodes := [ function_node "a" "F" [] [] ]; edges := [] |} |}.

(** Two independent steps, listed against the order of their ids. *)
Definition unordered_pair : SkillYAML :=
  {| parameters := [];
     workflow :=
       {| nodes := [ function_node "b" "F" [] []; function_node "a" "G" [] [] ];
          edges := [] |} |}.

End Examples.

(** * Proofs *)

(** ** Dictionaries *)

Lemma dict_get_set {V} k k' (v : V) d :
  dict_get k' (dict_set k v d) = if decide (k = k') then Some v else dict_get k' d.
Proof.
  induction d as [|[k0 v0] d IH]; simpl.
  - by repeat case_decide.
  - destruct (decide (k0 = k)) as [->|Hne]; simpl.
    + by repeat case_decide.
    + rewrite IH. repeat case_decide; congruence.
Qed.

Lemma dict_get_is_Some {V} k (d : dict V) :
  is_Some (dict_get k d) ↔ k ∈ dict_keys d.
Proof.
  unfold dict_keys. induction d as [|[k0 v0] d IH]; csimpl.
  - split; [by intros [? ?]|by intros ?%elem_of_nil].
  - rewrite elem_of_cons. destruct (decide (k0 = k)) as [->|Hne].
    + split; [by left|by eexists].
    + rewrite IH. split; [by right|]. by intros [?|?]; [congruence|].
Qed.

Lemma dict_keys_set {V} k (v : V) d :
  dict_keys (dict_set k v d) =
  if decide (k ∈ dict_keys d) then dict_keys d else dict_keys d ++ [k].
Proof.
  unfold dict_keys. induction d as [|[k0 v0] d IH]; csimpl.
  - destruct (decide (k ∈ [])) as [H|H]; [by apply elem_of_nil in H|done].
  - destruct (decide (k0 = k)) as [->|Hne]; csimpl.
    + destruct (decide (k ∈ k :: d.*1)) as [H|H]; [done|].
      destruct H. apply elem_of_cons; auto.
    + rewrite IH.
      destruct (decide (k ∈ d.*1)) as [H|H], (decide (k ∈ k0 :: d.*1)) as [H'|H'];
        try done.
      * destruct H'. apply elem_of_cons; auto.
      * apply elem_of_cons in H' as [?|?]; congruence.
Qed.

Lemma dict_get_elem_of {V} k (v : V) d :
  NoDup (dict_keys d) → dict_get k d = Some v ↔ (k, v) ∈ d.
Proof.
  unfold dict_keys. induction d as [|[k0 v0] d IH]; csimpl; intros Hnd.
  - split; [done|by intros ?%elem_of_nil].
  - apply NoDup_cons in Hnd as [Hk0 Hnd]. rewrite elem_of_cons.
    destruct (decide (k0 = k)) as [->|Hne].
    + split; [intros [= ->]; by left|].
      intros [[= ->]|Hin]; [done|]. destruct Hk0.
      apply list_elem_of_fmap. by exists (k, v).
    + rewrite (IH Hnd). split; [by right|]. intros [[= -> ->]|?]; done.
Qed.

(** ** Kahn's loop *)

Lemma kahn_step adj_list in_degree queue result :
  kahn adj_list in_degree queue result =
  match queue with
  | [] => mret result
  | _ =>
      match Py.sort queue with
      | [] => raise IndexError
      | node_id :: queue' =>
          neighbors ← dict_item node_id adj_list;
          '(in_degree', queue'') ← relax neighbors in_degree queue';
          kahn adj_list in_degree' queue'' (result ++ [node_id])
      end
  end.
Proof.
  funelim (kahn adj_list in_degree queue result); [done|..];
    repeat (match goal with
    | H : Py.sort _ = _ |- _ => rewrite H
    | H : dict_item _ _ = _ |- _ => rewrite H
    | H : relax _ _ _ = _ |- _ => rewrite H
    end; simpl); done.
Qed.


Lemma occ_cons n x l : occ n (x :: l) = ((if decide (x = n) then 1 else 0) + occ n l)%nat.
Proof. unfold occ. rewrite filter_cons. by case_decide. Qed.

Lemma filter_nil_iff {A} (P : A → Prop) `{!∀ x, Decision (P x)} (l : list A) :
  filter P l = [] ↔ ∀ x, x ∈ l → ¬ P x.
Proof.
  split.
  - intros Hnil x Hin HP. by eapply filter_nil_not_elem_of.
  - induction l as [|a l IH]; intros Hall; [done|].
    rewrite filter_cons. destruct (decide (P a)) as [HP|HP].
    + destruct (Hall a); [by left|done].
    + apply IH. intros x Hx. apply Hall. by right.
Qed.

Lemma pending_zero E emitted n :
  pending E emitted n = 0%nat ↔ ∀ s, (s, n) ∈ E → s ∈ emitted.
Proof.
  unfold pending. rewrite length_zero_iff_nil, filter_nil_iff. split.
  - intros H s Hin. destruct (decide (s ∈ emitted)) as [|Hn]; [done|].
    destruct (H (s, n) Hin). done.
  - intros H [s t] Hin [Ht Hs]; simpl in *. subst t. auto.
Qed.

Lemma pending_snoc E emitted node n :
  node ∉ emitted →
  (pending E (emitted ++ [node]) n + occ n (succs E node) = pending E emitted n)%nat.
Proof.
  intros Hnode. unfold pending, succs.
  induction E as [|[s t] E IH]; [done|].
  rewrite !filter_cons; simpl.
  destruct (decide (s = node)) as [->|Hs].
  - rewrite fmap_cons, occ_cons; simpl.
    destruct (decide (t = n ∧ node ∉ emitted ++ [node])) as [[_ H]|_].
    { destruct H. apply elem_of_app. right. by apply list_elem_of_singleton. }
    destruct (decide (t = n)) as [->|Ht].
    + destruct (decide (n = n ∧ node ∉ emitted)) as [_|H]; [|by destruct H].
      simpl. lia.
    + destruct (decide (t = n ∧ node ∉ emitted)) as [[? _]|_]; [done|]. lia.
  - destruct (decide (t = n ∧ s ∉ emitted ++ [node])) as [[Ht H]|H];
    destruct (decide (t = n ∧ s ∉ emitted)) as [[Ht' H']|H']; simpl; try lia.
    + destruct H'. split; [done|]. intros Hin. apply H. apply elem_of_app. by left.
    + destruct H. split; [done|]. intros [Hin|Hin%list_elem_of_singleton]%elem_of_app; done.
Qed.

Lemma elem_of_succs E node n : n ∈ succs E node ↔ (node, n) ∈ E.
Proof.
  unfold succs. rewrite list_elem_of_fmap. split.
  - intros [[s t] [-> [Hs Hin]%list_elem_of_filter]]. simpl in *. by subst.
  - intros Hin. exists (node, n). split; [done|]. by apply list_elem_of_filter.
Qed.

Section kahn.

Variable ids : list string.
Variable E : list (string * string).
Hypothesis ids_nodup : NoDup ids.
Hypothesis E_closed : closed ids E.

Local Abbreviation succs := (succs E).
Local Abbreviation pending := (pending E).
Local Abbreviation ready := (ready ids E).
Local Abbreviation kahn_inv := (kahn_inv ids E).
Local Abbreviation kahn_state := (kahn_state ids E).
Local Abbreviation kahn_post := (kahn_post ids E).
Local Abbreviation is_chain := (is_chain E).

Lemma relax_inv emitted neighbors : ∀ in_degree queue,
  kahn_inv in_degree queue emitted neighbors →
  (∀ n, n ∈ neighbors → n ∈ ids ∧ n ∉ emitted) →
  ∃ in_degree' queue',
    relax neighbors in_degree queue = inr (in_degree', queue') ∧
    kahn_inv in_degree' queue' emitted [].
Proof.
  induction neighbors as [|nb todo IH]; intros ind q Hinv Hnb; simpl.
  - by exists ind, q.
  - destruct (Hnb nb) as [Hids Hout]; [by left|].
    unfold dict_item. rewrite (inv_degree _ _ _ _ _ _ Hinv nb Hids). simpl.
    rewrite occ_cons. destruct (decide (nb = nb)) as [_|]; [|done].
    set (d := (pending emitted nb + occ nb todo)%nat).
    replace (Z.of_nat (pending emitted nb + (1 + occ nb todo)) - 1)
      with (Z.of_nat d) by (unfold d; lia).
    apply IH; [|intros n Hn; apply Hnb; by right].
    assert (nb ∉ q) as Hnq.
    { intros Hin. apply (inv_queue _ _ _ _ _ _ Hinv) in Hin as (_ & _ & H0).
      rewrite occ_cons in H0. destruct (decide (nb = nb)); [lia|done]. }
    split.
    + intros n Hn. rewrite dict_get_set.
      destruct (decide (nb = n)) as [<-|Hne]; [done|].
      rewrite (inv_degree _ _ _ _ _ _ Hinv n Hn), occ_cons.
      by destruct (decide (nb = n)).
    + intros n. destruct (decide (Z.of_nat d = 0)) as [Hd|Hd].
      * rewrite elem_of_app, list_elem_of_singleton, (inv_queue _ _ _ _ _ _ Hinv), occ_cons.
        destruct (decide (nb = n)) as [<-|Hne]; simpl.
        -- split; [intros _|by right]. split_and!; [done..|]. unfold d in Hd. lia.
        -- split; [intros [?|?]; [done|congruence]|by left].
      * rewrite (inv_queue _ _ _ _ _ _ Hinv), occ_cons.
        destruct (decide (nb = n)) as [<-|Hne]; simpl; [|done].
        split; [lia|]. intros (_ & _ & H0). unfold d in Hd. lia.
    + destruct (decide (Z.of_nat d = 0)); [|by apply (inv_queue_nodup _ _ _ _ _ _ Hinv)].
      apply NoDup_app. split_and!; [by apply (inv_queue_nodup _ _ _ _ _ _ Hinv)| |by apply NoDup_singleton].
      intros x Hx ->%list_elem_of_singleton. done.
Qed.

Lemma sort_cons_min queue node_id rest :
  Py.sort queue = node_id :: rest →
  queue ≡ₚ node_id :: rest ∧ ∀ m, m ∈ queue → String.le node_id m.
Proof.
  intros Hs. unfold Py.sort in Hs.
  pose proof (merge_sort_Permutation String.le queue) as Hp. rewrite Hs in Hp.
  pose proof (StronglySorted_merge_sort String.le queue) as Hss. rewrite Hs in Hss.
  split; [done|]. intros m Hm. rewrite <- Hp in Hm.
  apply elem_of_cons in Hm as [->|Hm]; [done|].
  apply StronglySorted_inv in Hss as [_ Hall].
  by eapply Forall_forall in Hall.
Qed.

Lemma trace_edge emitted s t :
  smallest_ready_first ids E emitted → (s, t) ∈ E → t ∈ emitted →
  precedes emitted s t.
Proof.
  intros Htr Hst [j Hj]%list_elem_of_lookup.
  destruct (Htr j t Hj) as [(_ & _ & Hpred) _].
  apply Hpred in Hst. apply list_elem_of_lookup in Hst as [i Hi].
  exists i, j. split_and!; [|done|].
  - rewrite lookup_take_Some in Hi. tauto.
  - apply lookup_lt_Some in Hi. rewrite length_take in Hi. lia.
Qed.

Lemma kahn_round adj_list in_degree queue emitted node_id queue' :
  kahn_state adj_list in_degree queue emitted →
  Py.sort queue = node_id :: queue' →
  ∃ in_degree' queue'',
    dict_item node_id adj_list = inr (succs node_id) ∧
    relax (succs node_id) in_degree queue' = inr (in_degree', queue'') ∧
    kahn_state adj_list in_degree' queue'' (emitted ++ [node_id]).
Proof.
  intros [Hadj Hinv Hnd Hsub Htr] Hsort.
  apply sort_cons_min in Hsort as [Hperm Hmin].
  assert (node_id ∈ queue) as Hq by (rewrite Hperm; by left).
  pose proof (proj1 (inv_queue _ _ _ _ _ _ Hinv node_id) Hq) as (Hids & Hout & Hzero).
  assert (pending emitted node_id = 0%nat) as Hzero' by lia.
  pose proof (proj1 (pending_zero _ _ _) Hzero') as Hpreds.
  assert (NoDup (node_id :: queue')) as [Hnq Hndq]%NoDup_cons.
  { rewrite <- Hperm. apply (inv_queue_nodup _ _ _ _ _ _ Hinv). }
  assert (∀ n, n ∈ succs node_id → n ∈ ids ∧ n ∉ emitted ++ [node_id]) as Hsuccs.
  { intros n Hn%elem_of_succs. split; [by apply (E_closed _ _ Hn)|].
    intros [Hin|Heq%list_elem_of_singleton]%elem_of_app.
    - destruct (trace_edge _ _ _ Htr Hn Hin) as (i & _ & Hi & _).
      apply Hout. by eapply list_elem_of_lookup_2.
    - subst n. by apply Hout, Hpreds. }
  destruct (relax_inv (emitted ++ [node_id]) (succs node_id) in_degree queue')
    as (ind' & q'' & Hrelax & Hinv'); [|done|].
  { split.
    - intros n Hn. rewrite (inv_degree _ _ _ _ _ _ Hinv n Hn).
      rewrite pending_snoc by done. simpl. do 2 f_equal. unfold occ. simpl. lia.
    - intros n. rewrite pending_snoc by done.
      transitivity (n ∈ queue ∧ n ≠ node_id).
      { rewrite Hperm, elem_of_cons. split; [intros ?; split; [by right|congruence]|].
        intros [[?|?] ?]; done. }
      rewrite (inv_queue _ _ _ _ _ _ Hinv). unfold occ; simpl.
      rewrite elem_of_app, list_elem_of_singleton. split.
      + intros [(? & ? & ?) ?]. split_and!; [done| |lia]. intros [?|?]; done.
      + intros (? & Hn & ?). split; [split_and!; [done| |lia]|]; intros ?; apply Hn; auto.
    - done. }
  exists ind', q''. split_and!; [|done|].
  - unfold dict_item. by rewrite Hadj.
  - split; [done|done| | |].
    + apply NoDup_app. split_and!; [done| |apply NoDup_singleton].
      intros x Hx ->%list_elem_of_singleton. done.
    + intros n [?|Heq%list_elem_of_singleton]%elem_of_app; [auto|by subst].
    + intros k n Hk. destruct (decide (k < length emitted)%nat) as [Hlt|Hge].
      * rewrite lookup_app_l in Hk by done.
        rewrite take_app_le by lia. by apply Htr.
      * rewrite lookup_app_r in Hk by lia.
        apply list_lookup_singleton_Some in Hk as [Hk ->].
        assert (k = length emitted) as -> by lia.
        rewrite take_app_length. split; [done|].
        intros m (Hm1 & Hm2 & Hm3). apply Hmin, (inv_queue _ _ _ _ _ _ Hinv).
        split_and!; [done..|]. apply pending_zero in Hm3. unfold occ; simpl. lia.
Qed.

Lemma pending_pos emitted n :
  pending emitted n ≠ 0%nat → ∃ s, (s, n) ∈ E ∧ s ∉ emitted.
Proof.
  unfold Dag.pending. intros Hne.
  destruct (filter (λ e, e.2 = n ∧ e.1 ∉ emitted) E) as [|[s t] l] eqn:Hf; [done|].
  assert ((s, t) ∈ filter (λ e, e.2 = n ∧ e.1 ∉ emitted) E) as Hin
    by (rewrite Hf; by left).
  apply list_elem_of_filter in Hin as [[Ht Hs] Hin]; simpl in *. subst t. eauto.
Qed.

Lemma kahn_spec fuel : ∀ adj_list in_degree queue emitted,
  (length ids ≤ length emitted + fuel)%nat →
  kahn_state adj_list in_degree queue emitted →
  ∃ order, kahn adj_list in_degree queue emitted = inr order ∧ kahn_post order.
Proof.
  induction fuel as [|fuel IH]; intros adj ind queue emitted Hfuel Hst;
    rewrite kahn_step; (destruct queue as [|q qs]; [
      exists emitted; split; [done|]; destruct Hst as [_ Hinv ? ? ?];
      split; [done..|]; intros n Hn Hout; apply pending_pos; intros Hz;
      apply (elem_of_nil n), (inv_queue _ _ _ _ _ _ Hinv);
      split_and!; [done..|]; unfold occ; simpl; lia |]).
  all: destruct (Py.sort (q :: qs)) as [|node_id queue'] eqn:Hsort.
  all: try (apply (f_equal length) in Hsort; unfold Py.sort in Hsort;
            rewrite (Permutation_length (merge_sort_Permutation _ _)) in Hsort; done).
  all: destruct (kahn_round _ _ _ _ _ _ Hst Hsort) as (ind' & q'' & Hadj & Hrelax & Hst').
  all: rewrite Hadj; simpl; rewrite Hrelax; simpl.
  - exfalso. destruct Hst' as [_ _ Hnd Hsub _].
    pose proof (submseteq_length _ _ (NoDup_submseteq _ _ Hnd Hsub)) as Hlen.
    rewrite length_app in Hlen. simpl in *. lia.
  - apply IH; [|done]. rewrite length_app. simpl. lia.
Qed.

Lemma is_chain_tail x l : is_chain (x :: l) → is_chain l.
Proof. destruct l; simpl; tauto. Qed.

Lemma chain_path l : ∀ x y, is_chain (x :: l) → y ∈ l → path E x y.
Proof.
  induction l as [|z l IH]; intros x y Hc Hy; [by apply elem_of_nil in Hy|].
  destruct Hc as [Hxz Hc]. apply elem_of_cons in Hy as [->|Hy].
  - by apply path_edge.
  - eapply path_step; [done|]. by apply IH.
Qed.

Lemma chain_dup l : is_chain l → ¬ NoDup l → has_cycle E.
Proof.
  induction l as [|x l IH]; intros Hc Hdup; [destruct Hdup; constructor|].
  destruct (decide (x ∈ l)) as [Hin|Hout].
  - exists x. by eapply chain_path.
  - apply IH; [by eapply is_chain_tail|].
    intros Hnd. apply Hdup. by constructor.
Qed.

Lemma chain_grow (R : list string) k n :
  (∀ n, n ∈ R → ∃ s, s ∈ R ∧ (s, n) ∈ E) → n ∈ R →
  ∃ l, length l = S k ∧ is_chain l ∧ ∀ x, x ∈ l → x ∈ R.
Proof.
  intros HR Hn. induction k as [|k (l & Hlen & Hc & Hsub)].
  - exists [n]. split_and!; [done..|]. by intros x ->%list_elem_of_singleton.
  - destruct l as [|h l]; [done|].
    destruct (HR h) as (s & Hs & Hsh); [apply Hsub; by left|].
    exists (s :: h :: l). split_and!; [simpl in *; lia|done|].
    intros x [->|Hx]%elem_of_cons; auto.
Qed.

(** In a finite graph without cycle, a non-empty set of nodes has a member
    with no predecessor inside the set. *)
Lemma acyclic_complete order :
  acyclic E → kahn_post order → ∀ n, n ∈ ids → n ∈ order.
Proof.
  intros Hacyc [_ _ _ Hstuck] n Hn.
  destruct (decide (n ∈ order)) as [|Hout]; [done|]. exfalso.
  set (R := filter (λ x, x ∉ order) ids).
  assert (∀ x, x ∈ R → ∃ s, s ∈ R ∧ (s, x) ∈ E) as HR.
  { intros x [Hx1 Hx2]%list_elem_of_filter.
    destruct (Hstuck x Hx2 Hx1) as (s & Hs & Hso).
    exists s. split; [|done]. apply list_elem_of_filter. split; [done|].
    by apply (E_closed _ _ Hs). }
  destruct (chain_grow R (length R) n HR) as (l & Hlen & Hc & Hsub).
  { by apply list_elem_of_filter. }
  destruct (chain_dup l Hc) as [a Ha]; [|by apply (Hacyc a)].
  intros Hnd. pose proof (submseteq_length _ _ (NoDup_submseteq _ _ Hnd Hsub)). lia.
Qed.

Lemma path_precedes order s t :
  smallest_ready_first ids E order → NoDup order →
  path E s t → t ∈ order → precedes order s t.
Proof.
  intros Htr Hnd Hp. induction Hp as [s t Hst|s m t Hsm Hp IH]; intros Ht.
  - by apply trace_edge.
  - destruct (IH Ht) as (j & k & Hj & Hk & Hjk).
    destruct (trace_edge order s m Htr Hsm) as (i & j' & Hi & Hj' & Hij).
    { by eapply list_elem_of_lookup_2. }
    assert (j' = j) as -> by (by eapply NoDup_lookup).
    exists i, k. split_and!; [done..|lia].
Qed.

Lemma cycle_incomplete order n :
  kahn_post order → path E n n → n ∈ ids ∧ n ∉ order.
Proof.
  intros [Hnd _ Htr _] Hp. split.
  - inversion Hp as [? ? He|? ? ? He]; subst; by apply (E_closed _ _ He).
  - intros Hin. destruct (path_precedes order n n Htr Hnd Hp Hin) as (i & j & Hi & Hj & Hij).
    assert (i = j) by (by eapply NoDup_lookup). lia.
Qed.

Lemma post_length_lt order n :
  kahn_post order → n ∈ ids → n ∉ order → (length order < length ids)%nat.
Proof.
  intros [Hnd Hsub _ _] Hn Hout.
  assert (length (n :: order) ≤ length ids)%nat; [|simpl in *; lia].
  apply submseteq_length, NoDup_submseteq; [by constructor|].
  intros x [->|?]%elem_of_cons; auto.
Qed.

End kahn.

(** The outcome of the smallest-ready-first rule depends on the node set and
    the edge set only. *)
Lemma ready_ext ids ids' E E' emitted n :
  (∀ x, x ∈ ids ↔ x ∈ ids') → (∀ e, e ∈ E ↔ e ∈ E') →
  ready ids E emitted n → ready ids' E' emitted n.
Proof.
  intros Hids HE (H1 & H2 & H3). split_and!; [by apply Hids|done|].
  intros s Hs. by apply H3, HE.
Qed.

Lemma smallest_ready_first_unique ids ids' E E' order order' :
  (∀ x, x ∈ ids ↔ x ∈ ids') → (∀ e, e ∈ E ↔ e ∈ E') →
  smallest_ready_first ids E order → smallest_ready_first ids' E' order' →
  length order = length order' → order = order'.
Proof.
  intros Hids HE Htr Htr' Hlen.
  assert (∀ k, take k order = take k order') as Htake.
  { induction k as [|k IH]; [done|].
    destruct (order !! k) as [a|] eqn:Ha.
    - destruct (order' !! k) as [b|] eqn:Hb.
      + rewrite (take_S_r _ _ _ Ha), (take_S_r _ _ _ Hb), IH. do 2 f_equal.
        destruct (Htr k a Ha) as [Hra Hmina], (Htr' k b Hb) as [Hrb Hminb].
        apply (anti_symm String.le).
        * apply Hmina. rewrite IH.
          eapply ready_ext; [intros x; symmetry; apply Hids|intros e; symmetry; apply HE|done].
        * apply Hminb. rewrite <- IH. by eapply ready_ext.
      + apply lookup_lt_Some in Ha. apply lookup_ge_None in Hb. lia.
    - destruct (order' !! k) as [b|] eqn:Hb.
      + apply lookup_lt_Some in Hb. apply lookup_ge_None in Ha. lia.
      + apply lookup_ge_None in Ha, Hb. rewrite !take_ge by lia. 
        rewrite <- (take_ge order k), <- (take_ge order' k) by lia. done. }
  rewrite <- (take_ge order (length order)), <- (take_ge order' (length order)) by lia.
  done.
Qed.

(** ** [_get_topological_order] on a closed graph *)

Lemma dict_from_nodes_get {V} (v : V) ns n :
  dict_get n (dict_from_nodes v ns) = if decide (n ∈ id <$> ns) then Some v else None.
Proof.
  unfold dict_from_nodes.
  assert (∀ d, dict_get n (foldl (λ d x, dict_set (id x) v d) d ns)
              = if decide (n ∈ id <$> ns) then Some v else dict_get n d) as H.
  { induction ns as [|a ns IH]; intros d; csimpl.
    - destruct (decide (n ∈ [])) as [Hin|]; [by apply elem_of_nil in Hin|done].
    - rewrite IH, dict_get_set.
      destruct (decide (n ∈ id <$> ns)) as [Hin|Hout];
        destruct (decide (n ∈ id a :: (id <$> ns))) as [Hin'|Hout']; try done.
      + destruct Hout'. by right.
      + apply elem_of_cons in Hin' as [->|?]; [|done]. by rewrite decide_True.
      + rewrite decide_False; [done|]. intros <-. apply Hout'. by left. }
  by rewrite H.
Qed.

Lemma dict_from_nodes_keys {V} (v : V) ns n :
  n ∈ dict_keys (dict_from_nodes v ns) ↔ n ∈ id <$> ns.
Proof.
  rewrite <- dict_get_is_Some, dict_from_nodes_get.
  destruct (decide (n ∈ id <$> ns)); split; try done;
    first [by eexists|by intros [? ?]].
Qed.

Lemma dict_from_nodes_nodup {V} (v : V) ns : NoDup (dict_keys (dict_from_nodes v ns)).
Proof.
  unfold dict_from_nodes.
  assert (∀ d : dict V, NoDup (dict_keys d) →
            NoDup (dict_keys (foldl (λ d x, dict_set (id x) v d) d ns))) as H.
  { induction ns as [|a ns IH]; intros d Hd; csimpl; [done|].
    apply IH. rewrite dict_keys_set. case_decide; [done|].
    apply NoDup_app. split_and!; [done| |apply NoDup_singleton].
    intros x Hx ->%list_elem_of_singleton. done. }
  apply H. constructor.
Qed.

Lemma add_edges_ok es : ∀ adj_list in_degree,
  (∀ e, e ∈ es → is_Some (dict_get (source_node e) adj_list) ∧
                 is_Some (dict_get (target_node e) in_degree)) →
  let E := (λ e, (source_node e, target_node e)) <$> es in
  ∃ adj_list' in_degree',
    add_edges es adj_list in_degree = inr (adj_list', in_degree') ∧
    dict_keys in_degree' = dict_keys in_degree ∧
    (∀ n, dict_get n adj_list' = (λ l, l ++ succs E n) <$> dict_get n adj_list) ∧
    (∀ n, dict_get n in_degree' =
          (λ d, d + Z.of_nat (pending E [] n)) <$> dict_get n in_degree).
Proof.
  induction es as [|e es IH]; intros adj ind Hdef; csimpl.
  - exists adj, ind. split_and!; [done..| |].
    + intros n. unfold succs; simpl. destruct (dict_get n adj); simpl; [|done].
      by rewrite app_nil_r.
    + intros n. unfold pending; simpl. destruct (dict_get n ind); simpl; [|done].
      f_equal. lia.
  - destruct (Hdef e) as [[l Hl] [d Hd]]; [by left|].
    unfold dict_item. rewrite Hl; simpl. rewrite Hd; simpl.
    destruct (IH (dict_set (source_node e) (l ++ [target_node e]) adj)
                 (dict_set (target_node e) (d + 1) ind))
      as (adj' & ind' & Hrun & Hkeys & Hadj & Hind).
    { intros e' He'. rewrite !dict_get_set.
      destruct (Hdef e') as [? ?]; [by right|].
      split; case_decide; try done; by eexists. }
    exists adj', ind'. split_and!; [done| | |].
    + rewrite Hkeys, dict_keys_set. rewrite decide_True; [done|].
      apply dict_get_is_Some. by eexists.
    + intros n. rewrite Hadj, dict_get_set. unfold succs. rewrite filter_cons; csimpl.
      destruct (decide (source_node e = n)) as [<-|Hne]; simpl.
      * rewrite Hl; simpl. by rewrite <- app_assoc.
      * done.
    + intros n. rewrite Hind, dict_get_set. unfold pending. rewrite filter_cons; csimpl.
      destruct (decide (target_node e = n)) as [<-|Hne]; simpl.
      * rewrite Hd; simpl. rewrite decide_True by (split; [done|apply not_elem_of_nil]).
        simpl. f_equal. lia.
      * rewrite decide_False by tauto. done.
Qed.

Section topological_order.

Variable w : WorkflowModel.

Let ids := dict_keys (dict_from_nodes 0 (nodes w)).
Let E := edge_pairs w.

Lemma ids_elem n : n ∈ ids ↔ n ∈ node_ids w.
Proof. apply dict_from_nodes_keys. Qed.

Lemma ids_nodup : NoDup ids.
Proof. apply dict_from_nodes_nodup. Qed.

Lemma ids_length : (length ids ≤ length (nodes w))%nat.
Proof.
  rewrite <- (length_fmap id (nodes w)).
  apply submseteq_length, NoDup_submseteq; [apply ids_nodup|].
  intros x. by rewrite ids_elem.
Qed.

Lemma ids_length_nodup : NoDup (node_ids w) → length ids = length (nodes w).
Proof.
  intros Hnd. rewrite <- (length_fmap id (nodes w)).
  apply Permutation_length, NoDup_Permutation; [apply ids_nodup|done|apply ids_elem].
Qed.

Hypothesis w_closed : closed (node_ids w) (edge_pairs w).

Lemma ids_closed : closed ids E.
Proof. intros s t Hst. rewrite !ids_elem. by apply w_closed. Qed.

Lemma kahn_result_spec :
  ∃ order, kahn_result w = inr order ∧ kahn_post ids E order.
Proof.
  unfold kahn_result.
  destruct (add_edges_ok (edges w) (dict_from_nodes [] (nodes w)) (dict_from_nodes 0 (nodes w)))
    as (adj & ind & Hrun & Hkeys & Hadj & Hind).
  { intros e He. rewrite !dict_from_nodes_get.
    destruct (w_closed (source_node e) (target_node e)) as [Hs Ht].
    { unfold edge_pairs; simpl. apply list_elem_of_fmap. by exists e. }
    unfold node_ids in *; simpl in *. rewrite !decide_True by done. split; by eexists. }
  rewrite Hrun; simpl.
  fold (edge_pairs w) in Hadj, Hind. fold E in Hadj, Hind.
  assert (∀ n, n ∈ ids → dict_get n ind = Some (Z.of_nat (pending E [] n))) as Hind'.
  { intros n Hn%ids_elem. rewrite Hind, dict_from_nodes_get, decide_True by done. done. }
  eapply (kahn_spec ids E ids_closed (length ids)); [simpl; lia|].
  split.
  - intros n Hn%ids_elem. by rewrite Hadj, dict_from_nodes_get, decide_True.
  - split.
    + intros n Hn. rewrite Hind' by done. do 2 f_equal. unfold occ. simpl. lia.
    + intros n. rewrite list_elem_of_fmap. unfold occ; simpl. split.
      * intros [[k v] [-> [Hv Hin]%list_elem_of_filter]]; simpl in *. subst v.
        assert (k ∈ ids) as Hk.
        { unfold ids. rewrite <- Hkeys. apply list_elem_of_fmap. by exists (k, 0). }
        split_and!; [done|apply not_elem_of_nil|].
        apply dict_get_elem_of in Hin; [|rewrite Hkeys; apply ids_nodup].
        rewrite Hind' in Hin by done. injection Hin. lia.
      * intros (Hn & _ & Hz). exists (n, 0). split; [done|].
        apply list_elem_of_filter. split; [done|].
        apply dict_get_elem_of; [rewrite Hkeys; apply ids_nodup|].
        rewrite Hind' by done. do 2 f_equal. lia.
    + apply (sublist_NoDup _ (dict_keys ind)); [rewrite Hkeys; apply ids_nodup|].
      unfold dict_keys. apply fmap_sublist, sublist_filter; apply _.
  - constructor.
  - by intros n ?%elem_of_nil.
  - by intros k n ?.
Qed.

End topological_order.

Lemma smallest_ready_first_ext ids ids' E E' order :
  (∀ x, x ∈ ids ↔ x ∈ ids') → (∀ e, e ∈ E ↔ e ∈ E') →
  smallest_ready_first ids E order → smallest_ready_first ids' E' order.
Proof.
  intros Hids HE Htr k n Hk. destruct (Htr k n Hk) as [Hr Hmin]. split.
  - by eapply ready_ext.
  - intros m Hm. apply Hmin.
    eapply ready_ext; [intros x; symmetry; apply Hids|intros e; symmetry; apply HE|done].
Qed.

Lemma path_ext E E' s t : (∀ e, e ∈ E → e ∈ E') → path E s t → path E' s t.
Proof.
  intros HE Hp. induction Hp as [s t H|s m t H Hp IH].
  - apply path_edge. by apply HE.
  - eapply path_step; [by apply HE|done].
Qed.

Lemma order_of_acyclic w :
  well_formed w → acyclic (edge_pairs w) →
  ∃ order,
    _get_topological_order w = inr order ∧ NoDup order ∧
    (∀ n, n ∈ order ↔ n ∈ node_ids w) ∧
    smallest_ready_first (node_ids w) (edge_pairs w) order.
Proof.
  intros [Hnd Hclosed] Hacyc.
  destruct (kahn_result_spec w Hclosed) as (order & Hrun & Hpost).
  pose proof (acyclic_complete _ _ (ids_closed w Hclosed) order Hacyc Hpost) as Hall.
  destruct Hpost as [Hnd' Hsub Htr Hstuck].
  assert (order ≡ₚ dict_keys (dict_from_nodes 0 (nodes w))) as Hperm.
  { apply NoDup_Permutation; [done|apply ids_nodup|]. intros x. split; auto. }
  exists order. split_and!; [|done| |].
  - unfold _get_topological_order. rewrite Hrun; simpl.
    rewrite decide_False; [done|].
    rewrite (Permutation_length Hperm), (ids_length_nodup w Hnd). auto.
  - intros n. rewrite <- ids_elem. split; auto.
  - eapply smallest_ready_first_ext; [apply ids_elem| |done]. done.
Qed.

(** C1.  On a workflow graph without cycle (ids unique, edges between
    existing nodes) the ordering function returns a list [order] that holds
    every node id exactly once, puts the source of every edge strictly before
    its target, and at each position holds the smallest id, in the order of
    strings, among the nodes whose predecessors have all been placed.  The
    function is a function of the graph alone, and its result is the same for
    every listing of the same nodes and the same edges. *)
Theorem topological_order_acyclic (w : WorkflowModel) :
  well_formed w → acyclic (edge_pairs w) →
  ∃ order,
    _get_topological_order w = inr order ∧
    order ≡ₚ node_ids w ∧
    (∀ s t, (s, t) ∈ edge_pairs w → precedes order s t) ∧
    smallest_ready_first (node_ids w) (edge_pairs w) order ∧
    (∀ w', node_ids w' ≡ₚ node_ids w → edge_pairs w' ≡ₚ edge_pairs w →
           _get_topological_order w' = inr order).
Proof.
  intros Hwf Hacyc.
  destruct (order_of_acyclic w Hwf Hacyc) as (order & Hrun & Hnd & Hmem & Htr).
  destruct Hwf as [Hids Hclosed].
  assert (order ≡ₚ node_ids w) as Hperm by (by apply NoDup_Permutation).
  exists order. split_and!; [done..| |done|].
  - intros s t Hst. eapply trace_edge; [done..|].
    apply Hmem. by apply (Hclosed s t).
  - intros w' Hn He.
    destruct (order_of_acyclic w') as (order' & Hrun' & Hnd' & Hmem' & Htr').
    + split; [by rewrite Hn|]. intros s t. rewrite Hn, He. apply Hclosed.
    + intros n Hp. apply (Hacyc n). eapply path_ext; [|done].
      intros e. by rewrite He.
    + rewrite Hrun'. f_equal.
      eapply smallest_ready_first_unique; [| |done..|].
      * intros x. by rewrite Hn.
      * intros e. by rewrite He.
      * rewrite Hperm, <- Hn. apply Permutation_length, NoDup_Permutation; [done| |done].
        rewrite Hn. done.
Qed.

(** *** Checking the hypotheses on a given document *)

(** Settles a decidable closed goal by running its decision procedure. *)
Ltac by_compute := apply (bool_decide_unpack _); vm_compute; exact I.

Lemma closed_Forall ids E :
  Forall (λ e, e.1 ∈ ids ∧ e.2 ∈ ids) E → closed ids E.
Proof. intros H s t Hst. by apply (proj1 (Forall_forall _ _) H (s, t)). Qed.

(** A numbering that grows along every edge rules out cycles. *)
Lemma acyclic_of_rank (rank : string → nat) E :
  Forall (λ e, rank e.1 < rank e.2)%nat E → acyclic E.
Proof.
  intros H n Hp.
  assert (∀ s t, path E s t → (rank s < rank t)%nat) as Hlt.
  { intros s t Hst. induction Hst as [s t He|s m t He _ IH].
    - by apply (proj1 (Forall_forall _ _) H (s, t)).
    - pose proof (proj1 (Forall_forall _ _) H (s, m) He). simpl in *. lia. }
  specialize (Hlt n n Hp). lia.
Qed.

Lemma similarity_search_well_formed :
  well_formed (workflow Examples.similarity_search).
Proof.
  split.
  - by_compute.
  - apply closed_Forall. by_compute.
Qed.

Lemma similarity_search_acyclic :
  acyclic (edge_pairs (workflow Examples.similarity_search)).
Proof.
  apply (acyclic_of_rank
    (λ n, index_of n (node_ids (workflow Examples.similarity_search)))).
  by_compute.
Qed.

(** The spec's five-step chain comes out in the order of its edges. *)
Example similarity_search_order :
  _get_topological_order (workflow Examples.similarity_search) =
  inr ["generate_embedding"; "vector_search"; "enrich_results";
       "summarize_findings"; "display_results"].
Proof. by vm_compute. Qed.

Lemma topological_order_acyclic_witness :
  let w := workflow Examples.similarity_search in
  well_formed w ∧ acyclic (edge_pairs w) ∧
  ∃ order,
    _get_topological_order w = inr order ∧
    order ≡ₚ node_ids w ∧
    (∀ s t, (s, t) ∈ edge_pairs w → precedes order s t) ∧
    smallest_ready_first (node_ids w) (edge_pairs w) order ∧
    (∀ w', node_ids w' ≡ₚ node_ids w → edge_pairs w' ≡ₚ edge_pairs w →
           _get_topological_order w' = inr order).
Proof.
  split; [|split].
  - exact similarity_search_well_formed.
  - exact similarity_search_acyclic.
  - apply (topological_order_acyclic (workflow Examples.similarity_search)).
    + exact similarity_search_well_formed.
    + exact similarity_search_acyclic.
Defined.

(** ** Cycles *)

(** C2.  When the edges, all between existing nodes, contain a cycle, the
    loop ends with fewer ids than there are nodes, the ordering function
    raises the cycle error instead of returning that partial list, and
    [_build_outputs_map] leaves the outputs map as it found it: empty. *)
Theorem topological_order_cycle (skill : SkillYAML) :
  let w := workflow skill in
  closed (node_ids w) (edge_pairs w) → has_cycle (edge_pairs w) →
  ∃ result,
    kahn_result w = inr result ∧
    (length result < length (nodes w))%nat ∧
    _get_topological_order w = inl (ValueError MsgCycle) ∧
    _build_outputs_map skill ∅ = inr ∅.
Proof.
  intros w Hclosed [n Hn].
  destruct (kahn_result_spec w Hclosed) as (result & Hrun & Hpost).
  destruct (cycle_incomplete _ _ (ids_closed w Hclosed) result n Hpost Hn) as [Hin Hout].
  pose proof (post_length_lt _ _ result n Hpost Hin Hout) as Hlt.
  pose proof (ids_length w) as Hle.
  assert (_get_topological_order w = inl (ValueError MsgCycle)) as Hraise.
  { unfold _get_topological_order. rewrite Hrun; simpl.
    rewrite decide_True; [done|]. lia. }
  exists result. split_and!; [done|lia|done|].
  unfold _build_outputs_map. fold w. by rewrite Hraise.
Qed.

Lemma two_cycle_closed :
  closed (node_ids (workflow Examples.two_cycle))
         (edge_pairs (workflow Examples.two_cycle)).
Proof. apply closed_Forall. by_compute. Qed.

Lemma two_cycle_has_cycle : has_cycle (edge_pairs (workflow Examples.two_cycle)).
Proof.
  exists "a". apply (path_step _ "a" "b" "a"); [|apply path_edge]; by_compute.
Qed.

Lemma topological_order_cycle_witness :
  let w := workflow Examples.two_cycle in
  closed (node_ids w) (edge_pairs w) ∧ has_cycle (edge_pairs w) ∧
  ∃ result,
    kahn_result w = inr result ∧
    (length result < length (nodes w))%nat ∧
    _get_topological_order w = inl (ValueError MsgCycle) ∧
    _build_outputs_map Examples.two_cycle ∅ = inr ∅.
Proof.
  split; [|split].
  - exact two_cycle_closed.
  - exact two_cycle_has_cycle.
  - apply (topological_order_cycle Examples.two_cycle).
    + exact two_cycle_closed.
    + exact two_cycle_has_cycle.
Defined.

(** Outside the data model: when two nodes share an id the loop can never
    emit as many ids as there are nodes, and the ordering raises the cycle
    error whether or not the edges have a cycle. *)
Lemma duplicate_ids_raise_cycle_error (w : WorkflowModel) :
  closed (node_ids w) (edge_pairs w) → ¬ NoDup (node_ids w) →
  _get_topological_order w = inl (ValueError MsgCycle).
Proof.
  intros Hclosed Hdup.
  destruct (kahn_result_spec w Hclosed) as (result & Hrun & [Hnd Hsub _ _]).
  unfold _get_topological_order. rewrite Hrun; simpl.
  rewrite decide_True; [done|]. intros Hlen. apply Hdup.
  pose proof (submseteq_length _ _ (NoDup_submseteq _ _ Hnd Hsub)) as Hle.
  assert (dict_keys (dict_from_nodes 0 (nodes w)) ≡ₚ node_ids w) as <-;
    [|apply ids_nodup].
  apply submseteq_length_Permutation.
  - apply NoDup_submseteq; [apply ids_nodup|]. intros x. by rewrite ids_elem.
  - unfold node_ids; simpl. rewrite length_fmap. lia.
Qed.

(** ** Dangling edges *)

Lemma add_edges_dangling (ids : list string) es : ∀ adj_list in_degree,
  (∀ n, is_Some (dict_get n adj_list) ↔ n ∈ ids) →
  (∀ n, is_Some (dict_get n in_degree) ↔ n ∈ ids) →
  (∃ e, e ∈ es ∧ (source_node e ∉ ids ∨ target_node e ∉ ids)) →
  ∃ k, (k ∉ ids) ∧ add_edges es adj_list in_degree = inl (KeyError k).
Proof.
  induction es as [|e es IH]; intros adj ind Hadj Hind (e' & He' & Hd).
  { by apply elem_of_nil in He'. }
  simpl. unfold dict_item.
  destruct (dict_get (source_node e) adj) as [l|] eqn:Hl; simpl.
  2:{ exists (source_node e). split; [|done].
      rewrite <- Hadj, Hl. by intros [? ?]. }
  destruct (dict_get (target_node e) ind) as [d|] eqn:Hd'; simpl.
  2:{ exists (target_node e). split; [|done].
      rewrite <- Hind, Hd'. by intros [? ?]. }
  apply IH.
  - intros n. rewrite dict_get_set, <- Hadj. case_decide; [|done].
    subst n. rewrite Hl. split; intros _; by eexists.
  - intros n. rewrite dict_get_set, <- Hind. case_decide; [|done].
    subst n. rewrite Hd'. split; intros _; by eexists.
  - apply elem_of_cons in He' as [->|He']; [|by exists e'].
    exfalso. destruct Hd as [Hd|Hd]; apply Hd.
    + apply Hadj. by eexists.
    + apply Hind. by eexists.
Qed.

Lemma dict_from_nodes_is_Some {V} (v : V) w n :
  is_Some (dict_get n (dict_from_nodes v (nodes w))) ↔ n ∈ node_ids w.
Proof. rewrite dict_get_is_Some. apply dict_from_nodes_keys. Qed.

Lemma topological_order_dangling w e :
  e ∈ edges w → dangling w e →
  ∃ k, (k ∉ node_ids w) ∧ _get_topological_order w = inl (KeyError k).
Proof.
  intros He Hd.
  destruct (add_edges_dangling (node_ids w) (edges w)
              (dict_from_nodes [] (nodes w)) (dict_from_nodes 0 (nodes w)))
    as (k & Hk & Hrun); [apply dict_from_nodes_is_Some..|by exists e|].
  exists k. split; [done|].
  unfold _get_topological_order, kahn_result. by rewrite Hrun.
Qed.

(** C3, as the code has it.  An edge with an end that names no node makes
    [validate] raise [KeyError]: the two messages about the edge are
    collected, then the ordering indexes [adj_list] or [in_degree] with the
    missing id, and the handler around it catches [ValueError] only. *)
Theorem validate_raises_on_dangling_edge (skill : SkillYAML) (e : EdgeModel) :
  e ∈ edges (workflow skill) → dangling (workflow skill) e →
  ∃ k, (k ∉ node_ids (workflow skill)) ∧ validate skill = inl (KeyError k).
Proof.
  intros He Hd.
  destruct (topological_order_dangling _ e He Hd) as (k & Hk & Hrun).
  exists k. split; [done|]. unfold validate. by rewrite Hrun.
Qed.

Lemma validate_raises_on_dangling_edge_witness :
  let e := {| source_node := "ghost"; target_node := "a" |} in
  e ∈ edges (workflow Examples.ghost_edge) ∧
  dangling (workflow Examples.ghost_edge) e ∧
  ∃ k, (k ∉ node_ids (workflow Examples.ghost_edge)) ∧
       validate Examples.ghost_edge = inl (KeyError k).
Proof.
  split; [|split].
  - by left.
  - left. by_compute.
  - apply (validate_raises_on_dangling_edge Examples.ghost_edge
             {| source_node := "ghost"; target_node := "a" |}).
    + by left.
    + left. by_compute.
Defined.

(** The run on the document with the ghost edge. *)
Example validate_ghost_edge :
  validate Examples.ghost_edge = inl (KeyError "ghost") ∧
  edge_errors (workflow Examples.ghost_edge) = [NonExistentSource "ghost"].
Proof. split; by vm_compute. Qed.

(** ** Validation of a cyclic graph *)

Lemma validate_node_configs_spec w :
  _validate_node_configs w = nodes w ≫= node_config_errors.
Proof.
  unfold _validate_node_configs.
  assert (∀ l acc, foldl (λ errors node, errors ++ node_config_errors node) acc l
                   = acc ++ (l ≫= node_config_errors)) as H.
  { induction l as [|a l IH]; intros acc; csimpl; [by rewrite app_nil_r|].
    by rewrite IH, app_assoc. }
  by rewrite H.
Qed.

Lemma node_config_errors_kind node :
  Forall (λ e, is_config_error e ∧ ¬ is_scope_error e) (node_config_errors node).
Proof.
  unfold node_config_errors.
  destruct (type node); repeat case_match; repeat constructor; simpl; tauto.
Qed.

Lemma validate_node_configs_kind w :
  Forall (λ e, is_config_error e ∧ ¬ is_scope_error e) (_validate_node_configs w).
Proof.
  rewrite validate_node_configs_spec. apply Forall_bind, Forall_forall.
  intros node _. apply node_config_errors_kind.
Qed.

Lemma duplicate_errors_kind w :
  Forall (λ e, ¬ is_scope_error e ∧ ¬ is_config_error e) (duplicate_errors w).
Proof.
  unfold duplicate_errors. case_match; repeat constructor; simpl; tauto.
Qed.

Lemma edge_errors_kind w :
  Forall (λ e, ¬ is_scope_error e ∧ ¬ is_config_error e) (edge_errors w).
Proof.
  unfold edge_errors.
  assert (∀ l acc, Forall (λ e, ¬ is_scope_error e ∧ ¬ is_config_error e) acc →
    Forall (λ e, ¬ is_scope_error e ∧ ¬ is_config_error e)
      (foldl (λ errors edge,
         let errors :=
           if decide (is_Some (nodes_by_id w !! source_node edge)) then errors
           else errors ++ [NonExistentSource (source_node edge)] in
         if decide (is_Some (nodes_by_id w !! target_node edge)) then errors
         else errors ++ [NonExistentTarget (target_node edge)]) acc l)) as H.
  { induction l as [|a l IH]; intros acc Hacc; simpl; [done|].
    apply IH. repeat case_decide; rewrite ?Forall_app; repeat split; try done;
      repeat constructor; simpl; tauto. }
  apply H. constructor.
Qed.

(** C7, as the code has it.  When the ordering fails with the cycle error
    the report is: the duplicate-id and edge entries, the cycle entry, one
    entry saying that the variables cannot be validated, and then the entries
    of the required-field check, which runs over every node all the same.  No
    scope error occurs in it. *)
Theorem validate_on_cycle (skill : SkillYAML) (e : message) :
  let w := workflow skill in
  _get_topological_order w = inl (ValueError e) →
  ∃ report,
    validate skill = inr (false, report) ∧
    report = duplicate_errors w ++ edge_errors w
             ++ [WorkflowContainsCycles e; CannotValidateVariables e]
             ++ _validate_node_configs w ∧
    Forall (λ x, ¬ is_scope_error x) report ∧
    (∀ node x, node ∈ nodes w → x ∈ node_config_errors node → x ∈ report).
Proof.
  intros w Hrun. eexists. split_and!; [|reflexivity| |].
  - unfold validate, _build_outputs_map, _validate_variable_references.
    fold w. rewrite Hrun. simpl. f_equal. f_equal.
    + apply bool_decide_eq_false. rewrite !length_app. simpl. lia.
    + by rewrite <- !app_assoc.
  - rewrite !Forall_app. split_and!.
    + eapply Forall_impl; [apply duplicate_errors_kind|]. simpl. tauto.
    + eapply Forall_impl; [apply edge_errors_kind|]. simpl. tauto.
    + repeat constructor; simpl; tauto.
    + eapply Forall_impl; [apply validate_node_configs_kind|]. simpl. tauto.
  - intros node x Hnode Hx. rewrite !elem_of_app. do 3 right.
    rewrite validate_node_configs_spec. apply list_elem_of_bind. eauto.
Qed.

Lemma validate_on_cycle_witness :
  _get_topological_order (workflow Examples.two_cycle) = inl (ValueError MsgCycle) ∧
  ∃ report,
    validate Examples.two_cycle = inr (false, report) ∧
    report = duplicate_errors (workflow Examples.two_cycle)
             ++ edge_errors (workflow Examples.two_cycle)
             ++ [WorkflowContainsCycles MsgCycle; CannotValidateVariables MsgCycle]
             ++ _validate_node_configs (workflow Examples.two_cycle) ∧
    Forall (λ x, ¬ is_scope_error x) report ∧
    (∀ node x, node ∈ nodes (workflow Examples.two_cycle) →
               x ∈ node_config_errors node → x ∈ report).
Proof.
  split; [by vm_compute|].
  apply (validate_on_cycle Examples.two_cycle MsgCycle). by vm_compute.
Defined.

(** C7 as the specification words it fails on the two-step cycle: the run
    reports the cycle and, after it, the missing function name of step [a]. *)
Lemma validate_cycle_keeps_config_error :
  _get_topological_order (workflow Examples.two_cycle) = inl (ValueError MsgCycle) ∧
  validate Examples.two_cycle =
    inr (false, [WorkflowContainsCycles MsgCycle; CannotValidateVariables MsgCycle;
                 MissingFunctionName "a"]) ∧
  is_config_error (MissingFunctionName "a").
Proof. split_and!; [by vm_compute..|exact I]. Qed.

(** ** Output-name inference *)

Lemma split_nonempty sep s : split sep s ≠ [].
Proof. destruct s as [|c s]; simpl; [done|]. case_decide; [done|]. by case_match. Qed.

Lemma split_no_sep sep s : sep ∉ chars s → split sep s = [s].
Proof.
  induction s as [|c s IH]; simpl; intros Hs; [done|].
  rewrite decide_False by (intros ->; apply Hs; by left).
  rewrite IH; [done|]. intros Hin. apply Hs. by right.
Qed.

Lemma split_app sep a b :
  sep ∉ chars a → split sep (a +:+ String sep b) = a :: split sep b.
Proof.
  induction a as [|c a IH]; simpl; intros Ha.
  - by rewrite decide_True.
  - rewrite decide_False by (intros ->; apply Ha; by left).
    change (String.append a (String sep b)) with (a +:+ String sep b).
    rewrite IH; [done|]. intros Hin. apply Ha. by right.
Qed.

Lemma join_split sep s : join (String sep EmptyString) (split sep s) = s.
Proof.
  induction s as [|c s IH]; simpl; [done|].
  case_decide as Hc.
  - subst c. pose proof (split_nonempty sep s).
    destruct (split sep s) as [|p ps] eqn:Hs; [done|].
    simpl in *. by rewrite IH.
  - destruct (split sep s) as [|p ps] eqn:Hs; [by destruct (split_nonempty sep s)|].
    simpl in *. destruct ps; simpl in *; by rewrite <- IH.
Qed.

Lemma transforms_no_underscore verb past :
  dict_get verb transforms = Some past → "_"%char ∉ chars verb.
Proof.
  unfold transforms; simpl.
  repeat (case_decide; [subst verb; intros _; by_compute|]). done.
Qed.

(** C5.  The table has the four verbs; an id that starts with one of them
    followed by an underscore gets the verb replaced and the rest, underscores
    included, kept as it is; an id without underscore, or whose first token is
    not in the table, is returned unchanged. *)
Theorem infer_output_name_spec :
  transforms = [("enrich", "enriched"); ("summarize", "summarized");
                ("process", "processed"); ("transform", "transformed")] ∧
  (∀ verb past rest, dict_get verb transforms = Some past →
     _infer_output_name (verb +:+ "_" +:+ rest) = past +:+ "_" +:+ rest) ∧
  (∀ node_id, "_"%char ∉ chars node_id → _infer_output_name node_id = node_id) ∧
  (∀ first rest, "_"%char ∉ chars first → dict_get first transforms = None →
     _infer_output_name (first +:+ "_" +:+ rest) = first +:+ "_" +:+ rest) ∧
  _infer_output_name "enrich_results" = "enriched_results" ∧
  _infer_output_name "summarize_findings" = "summarized_findings".
Proof.
  split_and!; [done| | | |by vm_compute..].
  - intros verb past rest Hv. unfold _infer_output_name.
    change ("_" +:+ rest) with (String "_" rest).
    rewrite (split_app "_" verb rest) by (by eapply transforms_no_underscore).
    pose proof (split_nonempty "_" rest).
    destruct (split "_" rest) as [|p ps] eqn:Hs; [done|].
    rewrite Hv, <- Hs. by rewrite (join_split "_" rest).
  - intros node_id Hn. unfold _infer_output_name. by rewrite split_no_sep.
  - intros first rest Hf Hnone. unfold _infer_output_name.
    change ("_" +:+ rest) with (String "_" rest).
    rewrite (split_app "_" first rest) by done.
    destruct (split "_" rest); [done|]. by rewrite Hnone.
Qed.

Lemma infer_output_name_spec_witness :
  dict_get "process" transforms = Some "processed" ∧
  _infer_output_name ("process" +:+ "_" +:+ "raw_rows") = "processed" +:+ "_" +:+ "raw_rows" ∧
  ("_"%char ∉ chars "display") ∧
  _infer_output_name "display" = "display" ∧
  ("_"%char ∉ chars "vector") ∧ dict_get "vector" transforms = None ∧
  _infer_output_name ("vector" +:+ "_" +:+ "search") = "vector" +:+ "_" +:+ "search".
Proof.
  pose proof infer_output_name_spec as (_ & Hverb & Hsingle & Hother & _).
  split_and!.
  - reflexivity.
  - apply (Hverb "process" "processed" "raw_rows"). reflexivity.
  - by_compute.
  - apply (Hsingle "display"). by_compute.
  - by_compute.
  - reflexivity.
  - apply (Hother "vector" "search"); [by_compute|reflexivity].
Defined.

(** ** The scope sweep *)

(** A successful ordering tells that the graph is well formed. *)
Lemma closed_dec w : Decision (closed (node_ids w) (edge_pairs w)).
Proof.
  destruct (decide (Forall (λ e, e.1 ∈ node_ids w ∧ e.2 ∈ node_ids w) (edge_pairs w)))
    as [H|H].
  - left. by apply closed_Forall.
  - right. intros Hc. apply H, Forall_forall. intros [s t] Hst. by apply Hc.
Defined.

Lemma topological_order_inr w order :
  _get_topological_order w = inr order →
  closed (node_ids w) (edge_pairs w) ∧
  kahn_post (dict_keys (dict_from_nodes 0 (nodes w))) (edge_pairs w) order ∧
  length order = length (nodes w).
Proof.
  intros Hrun. destruct (closed_dec w) as [Hc|Hc].
  - split; [done|]. destruct (kahn_result_spec w Hc) as (order' & Hk & Hpost).
    unfold _get_topological_order in Hrun. rewrite Hk in Hrun. simpl in Hrun.
    case_decide as Hlen; [done|]. injection Hrun as <-. split; [done|].
    destruct (decide (length order' = length (nodes w))); [done|by destruct Hlen].
  - exfalso.
    assert (∃ e, e ∈ edges w ∧ dangling w e) as (e & He & Hd).
    { destruct (decide (Exists (λ e, dangling w e) (edges w))) as [Hex|Hnex].
      - apply Exists_exists in Hex. naive_solver.
      - destruct Hc. intros s t [e [[= -> ->] He]]%list_elem_of_fmap.
        apply not_Exists_Forall in Hnex; [|apply _].
        pose proof (proj1 (Forall_forall _ _) Hnex e He) as Hnd.
        unfold dangling in Hnd. simpl in Hnd.
        split.
        + destruct (decide (source_node e ∈ node_ids w)); [done|]. destruct Hnd. by left.
        + destruct (decide (target_node e ∈ node_ids w)); [done|]. destruct Hnd. by right. }
    destruct (topological_order_dangling w e He Hd) as (k & _ & Hk). congruence.
Qed.

Lemma foldl_union_singleton {A} (f : A → string) (l : list A) (X : gset string) :
  foldl (λ a x, a ∪ {[f x]}) X l = X ∪ list_to_set (f <$> l).
Proof.
  revert X. induction l as [|a l IH]; intros X; csimpl.
  - set_solver.
  - rewrite IH. set_solver.
Qed.

Lemma sweep_spec w order : ∀ available available_outputs,
  NoDup order → (∀ n, n ∈ order → is_Some (nodes_by_id w !! n)) →
  ∃ scopes,
    sweep w order available available_outputs = inr scopes ∧
    (∀ n, n ∉ order → scopes !! n = available_outputs !! n) ∧
    (∀ k n, order !! k = Some n →
       scopes !! n = Some (available ∪ outputs_of_all w (take k order))).
Proof.
  induction order as [|m order IH]; intros available scopes0 Hnd Hdef; simpl.
  - exists scopes0. split_and!; [done..|]. intros k n Hk. done.
  - apply NoDup_cons in Hnd as [Hm Hnd].
    destruct (Hdef m) as [node Hnode]; [by left|].
    unfold node_item. rewrite Hnode. simpl.
    destruct (IH (foldl (λ a o, a ∪ {[o]}) available (node_output_names m node))
                 (<[m:=available]> scopes0) Hnd) as (scopes & Hrun & Hout & Hin).
    { intros n Hn. apply Hdef. by right. }
    exists scopes. split_and!; [done| |].
    + intros n Hn. rewrite Hout by (intros ?; apply Hn; by right).
      rewrite lookup_insert_ne; [done|]. intros ->. apply Hn. by left.
    + intros [|k] n Hk; simpl in *.
      * injection Hk as <-. rewrite Hout by done. rewrite lookup_insert_eq.
        f_equal. unfold outputs_of_all. simpl. set_solver.
      * rewrite (Hin k n Hk). f_equal.
        rewrite (foldl_union_singleton (λ o, o)), list_fmap_id.
        unfold outputs_of_all. simpl. unfold outputs_of at 2. rewrite Hnode.
        set_solver.
Qed.

Lemma nodes_by_id_fold (l : list NodeModel) : ∀ (m : gmap string NodeModel) n,
  foldl (λ m x, <[id x := x]> m) m l !! n =
  match last (filter (λ x, id x = n) l) with
  | Some node => Some node
  | None => m !! n
  end.
Proof.
  induction l as [|a l IH]; intros m n; simpl; [done|].
  rewrite IH, filter_cons. destruct (decide (id a = n)) as [<-|Hne].
  - destruct (filter (λ x, id x = id a) l) as [|b l'] eqn:Hf; simpl.
    + by rewrite lookup_insert_eq.
    + destruct (last (b :: l')) eqn:Hl; [done|]. by apply last_None in Hl.
  - by rewrite lookup_insert_ne.
Qed.

Lemma nodes_by_id_Some w n node :
  nodes_by_id w !! n = Some node → node ∈ nodes w ∧ id node = n.
Proof.
  unfold nodes_by_id. rewrite nodes_by_id_fold, lookup_empty.
  destruct (last (filter (λ x, id x = n) (nodes w))) as [node'|] eqn:Hl; [|done].
  intros [= ->]. apply last_Some_elem_of in Hl.
  apply list_elem_of_filter in Hl. tauto.
Qed.

Lemma nodes_by_id_is_Some w n :
  is_Some (nodes_by_id w !! n) ↔ n ∈ node_ids w.
Proof.
  split.
  - intros [node [Hin <-]%nodes_by_id_Some]. unfold node_ids; simpl.
    by apply list_elem_of_fmap_2.
  - intros [node [-> Hin]]%list_elem_of_fmap.
    unfold nodes_by_id. rewrite nodes_by_id_fold.
    destruct (last (filter (λ x, id x = id node) (nodes w))) as [node'|] eqn:Hl;
      [by eexists|].
    apply last_None in Hl.
    assert (node ∈ filter (λ x, id x = id node) (nodes w)) as Hf
      by (by apply list_elem_of_filter).
    rewrite Hl in Hf. by apply elem_of_nil in Hf.
Qed.

Lemma nodes_by_id_elem w node :
  NoDup (node_ids w) → node ∈ nodes w → nodes_by_id w !! id node = Some node.
Proof.
  intros Hnd Hin. destruct (proj2 (nodes_by_id_is_Some w (id node))) as [node' Hn'].
  { unfold node_ids; simpl. by apply list_elem_of_fmap_2. }
  rewrite Hn'. f_equal. apply nodes_by_id_Some in Hn' as [Hin' Hid].
  apply list_elem_of_lookup in Hin as [i Hi], Hin' as [j Hj].
  assert (i = j) as ->; [|congruence].
  eapply (NoDup_lookup _ _ _ (id node) Hnd); unfold node_ids; simpl;
    rewrite list_lookup_fmap; [by rewrite Hi|by rewrite Hj, <- Hid].
Qed.

Lemma elem_of_outputs_of_all w steps x :
  x ∈ outputs_of_all w steps ↔ ∃ m, m ∈ steps ∧ x ∈ outputs_of w m.
Proof.
  unfold outputs_of_all. rewrite elem_of_union_list. split.
  - intros (X & [m [-> Hm]]%list_elem_of_fmap & Hx). eauto.
  - intros (m & Hm & Hx). exists (outputs_of w m). split; [|done].
    by apply list_elem_of_fmap_2.
Qed.

Lemma build_outputs_map_spec skill order :
  _get_topological_order (workflow skill) = inr order →
  ∃ scopes : gmap string (gset string),
    _build_outputs_map skill ∅ = inr scopes ∧
    (∀ n, n ∉ order → scopes !! n = None) ∧
    (∀ k n, order !! k = Some n →
       scopes !! n =
       Some (parameter_names skill ∪ outputs_of_all (workflow skill) (take k order))).
Proof.
  intros Hrun.
  destruct (topological_order_inr _ _ Hrun) as (Hclosed & [Hnd Hsub _ _] & _).
  destruct (sweep_spec (workflow skill) order
              (foldl (λ a p, a ∪ {[name p]}) ∅ (parameters skill)) ∅ Hnd)
    as (scopes & Hsweep & Hout & Hin).
  { intros n Hn. apply nodes_by_id_is_Some, ids_elem. by apply Hsub. }
  exists scopes. unfold _build_outputs_map. rewrite Hrun. split_and!; [done| |].
  - intros n Hn. by rewrite Hout.
  - intros k n Hk. rewrite (Hin k n Hk). f_equal.
    rewrite foldl_union_singleton. unfold parameter_names. set_solver.
Qed.

Lemma order_complete w order :
  _get_topological_order w = inr order →
  order ≡ₚ dict_keys (dict_from_nodes 0 (nodes w)) ∧
  dict_keys (dict_from_nodes 0 (nodes w)) ≡ₚ node_ids w.
Proof.
  intros Hrun.
  destruct (topological_order_inr w order Hrun) as (Hclosed & [Hnd Hsub _ _] & Hlen).
  pose proof (ids_length w) as Hle.
  pose proof (submseteq_length _ _ (NoDup_submseteq _ _ Hnd Hsub)) as Hle'.
  split.
  - apply submseteq_length_Permutation; [by apply NoDup_submseteq|lia].
  - apply submseteq_length_Permutation.
    + apply NoDup_submseteq; [apply ids_nodup|]. intros x. by rewrite ids_elem.
    + unfold node_ids; simpl. rewrite length_fmap. lia.
Qed.

Lemma outputs_of_provides w node x :
  NoDup (node_ids w) → node ∈ nodes w →
  x ∈ outputs_of w (id node) ↔ provides node x.
Proof.
  intros Hnd Hnode. unfold outputs_of, provides, node_output_names.
  rewrite (nodes_by_id_elem w node Hnd Hnode).
  destruct (outputs node) as [[|o os]|]; rewrite elem_of_list_to_set;
    rewrite ?list_elem_of_singleton; done.
Qed.

(** The scope at position [k], member by member. *)
Lemma scope_members skill order k x :
  let w := workflow skill in
  NoDup (node_ids w) → order ≡ₚ node_ids w →
  x ∈ parameter_names skill ∪ outputs_of_all w (take k order) ↔
  x ∈ name <$> parameters skill ∨
  ∃ j earlier, (j < k)%nat ∧ earlier ∈ nodes w ∧ order !! j = Some (id earlier) ∧
               provides earlier x.
Proof.
  intros w Hnd Hperm.
  rewrite elem_of_union, elem_of_outputs_of_all.
  unfold parameter_names. rewrite elem_of_list_to_set. split.
  - intros [?|(m & [j Hj]%list_elem_of_lookup & Hx)]; [by left|right].
    apply lookup_take_Some in Hj as [Hj Hlt].
    assert (m ∈ node_ids w) as Hm.
    { rewrite <- Hperm. by eapply list_elem_of_lookup_2. }
    apply list_elem_of_fmap in Hm as (earlier & -> & Hin).
    exists j, earlier. split_and!; [done..|]. by apply (outputs_of_provides w).
  - intros [?|(j & earlier & Hlt & Hin & Hj & Hx)]; [by left|right].
    exists (id earlier). split.
    + apply list_elem_of_lookup. exists j. by apply lookup_take_Some.
    + by apply (outputs_of_provides w).
Qed.

(** C4.  After a successful ordering, one sweep gives every step of the
    order a scope, and to no other id.  A name is in the scope of the step at
    position [k] exactly when it is a declared parameter or one of the output
    names of a step at a position below [k]: the step's own outputs are not
    added to its scope.  The output names of a step are the names of the
    outputs its node declares, when it declares any, and else the one name
    inferred from its id; the steps of the order are the ids of the nodes.
    Scopes only grow along the order. *)
Theorem scopes_forward_sweep (skill : SkillYAML) (order : list string) :
  let w := workflow skill in
  _get_topological_order w = inr order →
  ∃ scopes : gmap string (gset string),
    _build_outputs_map skill ∅ = inr scopes ∧
    dom scopes = list_to_set order ∧
    (∀ k n, order !! k = Some n →
       ∃ A, scopes !! n = Some A ∧
            A = parameter_names skill ∪ outputs_of_all w (take k order) ∧
            ∀ x, x ∈ A ↔
              x ∈ name <$> parameters skill ∨
              ∃ j m, (j < k)%nat ∧ order !! j = Some m ∧ x ∈ outputs_of w m) ∧
    (∀ i j a b A B, (i ≤ j)%nat → order !! i = Some a → order !! j = Some b →
       scopes !! a = Some A → scopes !! b = Some B → A ⊆ B) ∧
    (∀ m, m ∈ order ↔ ∃ node, node ∈ nodes w ∧ id node = m) ∧
    (∀ node x, node ∈ nodes w →
       x ∈ outputs_of w (id node) ↔
       match outputs node with
       | Some (o :: os) => x ∈ output_name <$> (o :: os)
       | _ => x = _infer_output_name (id node)
       end) ∧
    (∀ k node A, node ∈ nodes w → order !! k = Some (id node) →
       scopes !! id node = Some A →
       ∀ x, x ∈ A ↔
         x ∈ name <$> parameters skill ∨
         ∃ j earlier, (j < k)%nat ∧ earlier ∈ nodes w ∧
                      order !! j = Some (id earlier) ∧ provides earlier x).
Proof.
  intros w Hrun.
  destruct (build_outputs_map_spec skill order Hrun) as (scopes & Hmap & Hout & Hin).
  assert (NoDup (node_ids w) ∧ order ≡ₚ node_ids w) as [Hids Hperm].
  { destruct (order_complete w order Hrun) as [Hperm Hids].
    split; [rewrite <- Hids; apply ids_nodup|by rewrite Hperm]. }
  exists scopes. split_and!; [done| | | | | |].
  - apply set_eq. intros n. rewrite elem_of_dom, elem_of_list_to_set. split.
    + intros [A HA]. destruct (decide (n ∈ order)) as [|Hn]; [done|].
      rewrite Hout in HA by done. done.
    + intros [k Hk]%list_elem_of_lookup. rewrite (Hin k n Hk). by eexists.
  - intros k n Hk. eexists. split_and!; [by apply Hin|done|].
    intros x. rewrite elem_of_union, elem_of_outputs_of_all.
    unfold parameter_names. rewrite elem_of_list_to_set. split.
    + intros [?|(m & [j Hj]%list_elem_of_lookup & Hx)]; [by left|right].
      apply lookup_take_Some in Hj as [Hj Hlt]. eauto.
    + intros [?|(j & m & Hlt & Hj & Hx)]; [by left|right].
      exists m. split; [|done]. apply list_elem_of_lookup. exists j.
      apply lookup_take_Some. done.
  - intros i j a b A B Hij Hi Hj HA HB.
    rewrite (Hin i a Hi) in HA. rewrite (Hin j b Hj) in HB.
    injection HA as <-. injection HB as <-.
    apply union_mono_l. intros x. rewrite !elem_of_outputs_of_all.
    intros (m & Hm & Hx). exists m. split; [|done].
    rewrite <- (take_drop i (take j order)), take_take, Nat.min_l by lia.
    apply elem_of_app. by left.
  - intros m. rewrite Hperm. unfold node_ids; simpl. rewrite list_elem_of_fmap.
    split; intros (node & ? & ?); eauto.
  - intros node x Hnode. by apply (outputs_of_provides w).
  - intros k node A Hnode Hk HA x.
    rewrite (Hin k _ Hk) in HA. injection HA as <-.
    by apply (scope_members skill).
Qed.

Lemma scopes_forward_sweep_witness :
  let order := ["generate_embedding"; "vector_search"; "enrich_results";
                "summarize_findings"; "display_results"] in
  let skill := Examples.similarity_search in
  let w := workflow skill in
  _get_topological_order w = inr order ∧
  ∃ scopes : gmap string (gset string),
    _build_outputs_map skill ∅ = inr scopes ∧
    dom scopes = list_to_set order ∧
    (∀ k n, order !! k = Some n →
       ∃ A, scopes !! n = Some A ∧
            A = parameter_names skill ∪ outputs_of_all w (take k order) ∧
            ∀ x, x ∈ A ↔
              x ∈ name <$> parameters skill ∨
              ∃ j m, (j < k)%nat ∧ order !! j = Some m ∧ x ∈ outputs_of w m) ∧
    (∀ i j a b A B, (i ≤ j)%nat → order !! i = Some a → order !! j = Some b →
       scopes !! a = Some A → scopes !! b = Some B → A ⊆ B) ∧
    (∀ m, m ∈ order ↔ ∃ node, node ∈ nodes w ∧ id node = m) ∧
    (∀ node x, node ∈ nodes w →
       x ∈ outputs_of w (id node) ↔
       match outputs node with
       | Some (o :: os) => x ∈ output_name <$> (o :: os)
       | _ => x = _infer_output_name (id node)
       end) ∧
    (∀ k node A, node ∈ nodes w → order !! k = Some (id node) →
       scopes !! id node = Some A →
       ∀ x, x ∈ A ↔
         x ∈ name <$> parameters skill ∨
         ∃ j earlier, (j < k)%nat ∧ earlier ∈ nodes w ∧
                      order !! j = Some (id earlier) ∧ provides earlier x).
Proof.
  split; [by vm_compute|].
  apply (scopes_forward_sweep Examples.similarity_search). by vm_compute.
Defined.

(** The scopes of the sample pipeline, step by step, and its clean report. *)
Example similarity_search_scopes :
  match _build_outputs_map Examples.similarity_search ∅ with
  | inr scopes =>
      (λ n, (n, from_option (λ A : gset string, Py.sort (elements A)) [] (scopes !! n)))
        <$> node_ids (workflow Examples.similarity_search)
  | inl _ => []
  end =
  [("generate_embedding", ["limit"; "workorder_description"]);
   ("vector_search", ["embedding"; "limit"; "workorder_description"]);
   ("enrich_results",
    ["embedding"; "limit"; "similar_workorders"; "workorder_description"]);
   ("summarize_findings",
    ["embedding"; "enriched_results"; "limit"; "similar_workorders";
     "workorder_description"]);
   ("display_results",
    ["embedding"; "enriched_results"; "limit"; "similar_workorders";
     "summarized_findings"; "workorder_description"])].
Proof. by vm_compute. Qed.

Example similarity_search_valid :
  validate Examples.similarity_search = inr (true, []).
Proof. by vm_compute. Qed.

(** ** Placeholder extraction *)

(** Induction over document values that reaches inside lists and
    mappings. *)
Lemma Any_nested_ind (P : Any → Prop) :
  P VNone → (∀ b, P (VBool b)) → (∀ n, P (VInt n)) → (∀ r, P (VFloat r)) →
  (∀ s, P (VStr s)) →
  (∀ items, Forall P items → P (VList items)) →
  (∀ items, Forall (λ kv, P kv.2) items → P (VDict items)) →
  ∀ v, P v.
Proof.
  intros HN HB HI HF HS HL HD.
  fix IH 1. intros [|b|n|r|s|items|items].
  - exact HN.
  - apply HB.
  - apply HI.
  - apply HF.
  - apply HS.
  - apply HL. induction items as [|v items IHl]; constructor; [apply IH|exact IHl].
  - apply HD. induction items as [|[k v] items IHl]; constructor; [apply IH|exact IHl].
Qed.

Lemma search_list_spec (f : Any → gset string → gset string) items : ∀ variables,
  (fix each (items : list Any) (variables : gset string) :=
     match items with
     | [] => variables
     | item :: items' => each items' (f item variables)
     end) items variables = foldl (λ vars item, f item vars) variables items.
Proof. induction items as [|a l IH]; intros vars; simpl; [done|apply IH]. Qed.

Lemma search_dict_spec (f : Any → gset string → gset string) items : ∀ variables,
  (fix values (items : list (string * Any)) (variables : gset string) :=
     match items with
     | [] => variables
     | (_, v) :: items' => values items' (f v variables)
     end) items variables = foldl (λ vars kv, f kv.2 vars) variables items.
Proof. induction items as [|[k v] l IH]; intros vars; simpl; [done|apply IH]. Qed.

(** What the recursive search adds: the names found in the string leaves. *)
Lemma search_spec obj : ∀ variables x,
  x ∈ _search_dict_for_variables obj variables ↔
  x ∈ variables ∨ ∃ s, string_leaf obj s ∧ x ∈ findall s.
Proof.
  induction obj as [| | | |s|items IH|items IH] using Any_nested_ind;
    intros vars x; simpl.
  1-4: split; [by left|]; intros [?|(s & Hs & _)]; [done|inversion Hs].
  - rewrite elem_of_union, elem_of_list_to_set. split.
    + intros [?|?]; [by left|right]. exists s. split; [constructor|done].
    + intros [?|(s' & Hs & ?)]; [by left|right]. by inversion Hs; subst.
  - rewrite search_list_spec. revert vars.
    induction IH as [|item items Hitem _ IHitems]; intros vars; simpl.
    + split; [by left|]. intros [?|(s & Hs & _)]; [done|].
      inversion Hs as [|? ? ? Hin|]; subst. by apply elem_of_nil in Hin.
    + rewrite IHitems, Hitem. split.
      * intros [[?|(s & Hs & ?)]|(s & Hs & ?)]; [by left|right..].
        -- exists s. split; [|done]. eapply leaf_in_list; [by left|done].
        -- exists s. split; [|done]. inversion Hs as [|? ? ? Hin|]; subst.
           eapply leaf_in_list; [by right|done].
      * intros [?|(s & Hs & ?)]; [by left; left|].
        inversion Hs as [|? it ? Hin Hl|]; subst.
        apply elem_of_cons in Hin as [->|Hin].
        -- left. right. eauto.
        -- right. exists s. split; [|done]. by eapply leaf_in_list.
  - rewrite search_dict_spec. revert vars.
    induction IH as [|[k v] items Hitem _ IHitems]; intros vars; simpl in *.
    + split; [by left|]. intros [?|(s & Hs & _)]; [done|].
      inversion Hs as [| |? ? ? ? Hin]; subst. by apply elem_of_nil in Hin.
    + rewrite IHitems, Hitem. split.
      * intros [[?|(s & Hs & ?)]|(s & Hs & ?)]; [by left|right..].
        -- exists s. split; [|done]. eapply leaf_in_dict; [by left|done].
        -- exists s. split; [|done]. inversion Hs as [| |? k' v' ? Hin]; subst.
           eapply leaf_in_dict; [by right|done].
      * intros [?|(s & Hs & ?)]; [by left; left|].
        inversion Hs as [| |? k' v' ? Hin Hl]; subst.
        apply elem_of_cons in Hin as [[= -> ->]|Hin].
        -- left. right. eauto.
        -- right. exists s. split; [|done]. by eapply leaf_in_dict.
Qed.

Lemma extract_variables_spec node x :
  x ∈ _extract_variables node ↔
  ∃ s, string_leaf (model_dump (config node)) s ∧ x ∈ findall s.
Proof.
  unfold _extract_variables. rewrite search_spec. split; [|by right].
  intros [Hx|?]; [|done]. by apply not_elem_of_empty in Hx.
Qed.

(** ** The texts of a config *)

(** ** The texts of a config *)

Lemma string_leaves_list items s :
  s ∈ (fix each (items : list Any) : list string :=
         match items with
         | [] => []
         | item :: items' => string_leaves item ++ each items'
         end) items ↔ ∃ item, item ∈ items ∧ s ∈ string_leaves item.
Proof.
  induction items as [|a items IH].
  - split; [by intros ?%elem_of_nil|by intros (? & ?%elem_of_nil & _)].
  - rewrite elem_of_app, IH. split.
    + intros [?|(item & ? & ?)]; [exists a; split; [by left|done]|].
      exists item. split; [by right|done].
    + intros (item & [->|?]%elem_of_cons & ?); [by left|right; eauto].
Qed.

Lemma string_leaves_dict items s :
  s ∈ (fix values (items : list (string * Any)) : list string :=
         match items with
         | [] => []
         | (_, v) :: items' => string_leaves v ++ values items'
         end) items ↔ ∃ key v, (key, v) ∈ items ∧ s ∈ string_leaves v.
Proof.
  induction items as [|[k a] items IH].
  - split; [by intros ?%elem_of_nil|by intros (? & ? & ?%elem_of_nil & _)].
  - rewrite elem_of_app, IH. split.
    + intros [?|(key & v & ? & ?)]; [exists k, a; split; [by left|done]|].
      exists key, v. split; [by right|done].
    + intros (key & v & [[= -> ->]|?]%elem_of_cons & ?); [by left|right; eauto].
Qed.

Lemma string_leaf_leaves obj s : string_leaf obj s ↔ s ∈ string_leaves obj.
Proof.
  split.
  - induction 1 as [s|items item s Hin _ IH|items key v s Hin _ IH].
    + by left.
    + simpl. apply string_leaves_list. eauto.
    + simpl. apply string_leaves_dict. eauto.
  - revert s. induction obj as [| | | |s'|items IH|items IH] using Any_nested_ind;
      intros s Hs; simpl in Hs; try (by apply elem_of_nil in Hs).
    + apply list_elem_of_singleton in Hs as ->. constructor.
    + apply string_leaves_list in Hs as (item & Hin & Hs).
      eapply leaf_in_list; [done|].
      by apply (proj1 (Forall_forall _ _) IH item Hin).
    + apply string_leaves_dict in Hs as (key & v & Hin & Hs).
      eapply leaf_in_dict; [done|].
      by apply (proj1 (Forall_forall _ _) IH (key, v) Hin).
Qed.

Lemma elem_of_option_list_Some {A} (o : option A) x : x ∈ option_list o ↔ o = Some x.
Proof.
  destruct o as [a|]; simpl.
  - rewrite list_elem_of_singleton. split; congruence.
  - split; [by intros ?%elem_of_nil|done].
Qed.

Lemma elem_of_mapping_leaves (o : option (dict Any)) s :
  s ∈ from_option (λ d, string_leaves (VDict d)) [] o ↔
  ∃ d, o = Some d ∧ string_leaf (VDict d) s.
Proof.
  destruct o as [d|]; simpl.
  - rewrite <- (string_leaf_leaves (VDict d)). split; [eauto|].
    by intros (d' & [= <-] & ?).
  - split; [by intros ?%elem_of_nil|by intros (? & ? & _)].
Qed.

Lemma config_text_texts c s : config_text c s ↔ s ∈ config_texts c.
Proof.
  unfold config_text, config_texts.
  rewrite !elem_of_app, !elem_of_option_list_Some, !elem_of_mapping_leaves. tauto.
Qed.

(** What [model_dump] lays out for the search: exactly the texts of the
    config. *)
Lemma model_dump_leaves c s : string_leaf (model_dump c) s ↔ config_text c s.
Proof.
  rewrite config_text_texts, string_leaf_leaves.
  unfold model_dump, config_texts. cbn [string_leaves].
  rewrite !elem_of_app, !elem_of_option_list_Some, !elem_of_mapping_leaves.
  assert (∀ o : option string,
            s ∈ string_leaves (from_option VStr VNone o) ↔ o = Some s) as Htext.
  { intros [t|]; simpl; [rewrite list_elem_of_singleton; split; congruence|].
    split; [by intros ?%elem_of_nil|done]. }
  assert (∀ o : option (dict Any),
            s ∈ string_leaves (from_option VDict VNone o) ↔
            ∃ d, o = Some d ∧ string_leaf (VDict d) s) as Hmap.
  { intros [d|]; cbn [from_option].
    - rewrite <- (string_leaf_leaves (VDict d)). split; [eauto|].
      by intros (d' & [= <-] & ?).
    - simpl. split; [by intros ?%elem_of_nil|by intros (? & ? & _)]. }
  assert (s ∈ string_leaves (from_option VFloat VNone (temperature c)) ↔ False) as Hnum.
  { destruct (temperature c); simpl; split; try done; by intros ?%elem_of_nil. }
  rewrite !Htext, !Hmap, Hnum, elem_of_nil. tauto.
Qed.

(** ** The pattern on a whole token *)

Arguments match_token : simpl never.

Lemma append_cons c (a b : string) : String c a +:+ b = String c (a +:+ b).
Proof. reflexivity. Qed.

Lemma append_nil_l (b : string) : EmptyString +:+ b = b.
Proof. reflexivity. Qed.

Lemma append_assoc (a b c : string) : (a +:+ b) +:+ c = a +:+ (b +:+ c).
Proof. induction a as [|x a IH]; [done|]. by rewrite !append_cons, IH. Qed.

Lemma append_nil_r (a : string) : a +:+ EmptyString = a.
Proof. induction a as [|x a IH]; [done|]. by rewrite append_cons, IH. Qed.

Lemma length_append (a b : string) :
  String.length (a +:+ b) = (String.length a + String.length b)%nat.
Proof. induction a as [|x a IH]; [done|]. rewrite append_cons. simpl. by rewrite IH. Qed.

Lemma span_word_app name rest :
  Forall (λ c, is_word c = true) (chars name) →
  match rest with String c _ => is_word c = false | EmptyString => True end →
  span_word (name +:+ rest) = (name, rest).
Proof.
  intros Hname Hrest. induction name as [|c name IH].
  - rewrite append_nil_l. destruct rest as [|c rest]; [done|]. simpl. by rewrite Hrest.
  - apply Forall_cons in Hname as [Hc Hname]. rewrite append_cons. simpl.
    rewrite Hc. by rewrite IH.
Qed.

Lemma token_unfold name rest :
  token name +:+ rest = String "{" (String "{" (name +:+ String "}" (String "}" rest))).
Proof. unfold token. by rewrite !append_assoc. Qed.

Lemma match_token_token name rest :
  is_name name → match_token (token name +:+ rest) = Some (name, rest).
Proof.
  intros [Hne Hword]. rewrite token_unfold. unfold match_token.
  rewrite span_word_app by done. by destruct name.
Qed.

Lemma fullmatch_token name : is_name name → fullmatch (token name) = Some name.
Proof.
  intros Hname. unfold fullmatch.
  rewrite <- (append_nil_r (token name)). by rewrite match_token_token.
Qed.

Lemma findall_from_skip skip s :
  (String.length s ≤ skip)%nat → findall_from skip s = [].
Proof.
  revert skip. induction s as [|c s IH]; intros skip Hlen; [done|].
  destruct skip as [|skip]; simpl in *; [lia|]. apply IH. lia.
Qed.

Lemma findall_token name : is_name name → findall (token name) = [name].
Proof.
  intros Hname. unfold findall.
  pose proof (match_token_token name EmptyString Hname) as Hm.
  rewrite token_unfold in Hm. rewrite <- (append_nil_r (token name)), token_unfold.
  cbn [findall_from]. rewrite Hm. f_equal.
  apply findall_from_skip. simpl. rewrite length_append. simpl. lia.
Qed.

(** ** The pattern on a token inside a longer text *)

Lemma span_word_split s :
  s = (span_word s).1 +:+ (span_word s).2.
Proof.
  induction s as [|c s IH]; [done|]. simpl.
  destruct (is_word c); [|done].
  destruct (span_word s) as [w rest]. simpl in *. by rewrite append_cons, <- IH.
Qed.

(** A text that starts with a character outside the word class stops the
    greedy run exactly where the text before it stops it. *)
Lemma span_word_app_stop a c t :
  is_word c = false →
  span_word (a +:+ String c t) =
  ((span_word a).1, (span_word a).2 +:+ String c t).
Proof.
  intros Hc. induction a as [|x a IH].
  - rewrite append_nil_l. simpl. by rewrite Hc.
  - rewrite append_cons. simpl. destruct (is_word x).
    + rewrite IH. by destruct (span_word a).
    + done.
Qed.

(** A match that starts before a token ends before it: the two opening
    braces of the token can be no part of another match. *)
Lemma match_token_before a t v r :
  a ≠ EmptyString →
  match_token (a +:+ String "{" (String "{" t)) = Some (v, r) →
  (4 + String.length v ≤ String.length a)%nat.
Proof.
  intros Ha Hm. destruct a as [|c1 [|c2 a]]; [done| |].
  - rewrite append_cons, append_nil_l in Hm. unfold match_token in Hm.
    simpl in Hm. by repeat case_match.
  - rewrite !append_cons in Hm. unfold match_token in Hm.
    rewrite (span_word_app_stop a "{" (String "{" t)) in Hm by done.
    pose proof (span_word_split a) as Hsplit.
    destruct (span_word a) as [w rest]. simpl in *.
    assert (String.length a = String.length w + String.length rest)%nat as Hlen.
    { rewrite Hsplit at 1. apply length_append. }
    destruct rest as [|x [|y rest]].
    + rewrite append_nil_l in Hm. by repeat case_match.
    + rewrite append_cons, append_nil_l in Hm. by repeat case_match.
    + rewrite !append_cons in Hm. repeat case_match; try done.
      simplify_eq. simpl in *. lia.
Qed.

Lemma findall_embedded_from var_name post pre : ∀ skip,
  is_name var_name → (skip ≤ String.length pre)%nat →
  var_name ∈ findall_from skip (pre +:+ (token var_name +:+ post)).
Proof.
  intros skip Hname. revert skip.
  pose proof (match_token_token var_name post Hname) as Htok.
  rewrite token_unfold in *.
  induction pre as [|c pre IH]; intros skip Hskip.
  - rewrite append_nil_l. assert (skip = 0%nat) as -> by (simpl in *; lia).
    cbn [findall_from]. rewrite Htok. by left.
  - rewrite append_cons. destruct skip as [|skip]; cbn [findall_from].
    + destruct (match_token (String c _)) as [[v r]|] eqn:Hm.
      * right. apply IH. rewrite <- append_cons in Hm.
        apply match_token_before in Hm; [|done]. simpl in *. lia.
      * apply IH. lia.
    + apply IH. simpl in *. lia.
Qed.

(** A token anywhere in a text is found by the pattern. *)
Lemma findall_embedded pre var_name post :
  is_name var_name → var_name ∈ findall (pre +:+ token var_name +:+ post).
Proof. intros. apply findall_embedded_from; [done|lia]. Qed.

(** ** Scope errors in the report *)

Lemma filter_bind_unique {A B} (P : B → Prop) `{!∀ x, Decision (P x)}
    (f : A → list B) (l : list A) (a : A) :
  NoDup l → a ∈ l → (∀ x, x ∈ l → x ≠ a → filter P (f x) = []) →
  filter P (l ≫= f) = filter P (f a).
Proof.
  induction l as [|x l IH]; intros Hnd Ha Hother; [by apply elem_of_nil in Ha|].
  apply NoDup_cons in Hnd as [Hx Hnd]. csimpl. rewrite filter_app.
  apply elem_of_cons in Ha as [->|Ha].
  - assert (filter P (l ≫= f) = []) as ->; [|by rewrite app_nil_r].
    apply filter_nil_iff. intros y [z [Hy Hz]]%list_elem_of_bind HP.
    assert (filter P (f z) = []) as Hnil.
    { apply Hother; [by right|]. by intros ->. }
    eapply filter_nil_iff in Hnil; done.
  - rewrite (Hother x); [|by left|by intros ->]. simpl. apply IH; [done..|].
    intros y Hy. apply Hother. by right.
Qed.

Lemma filter_eq_nodup (l : list string) (x : string) :
  NoDup l → filter (λ y, y = x) l = if decide (x ∈ l) then [x] else [].
Proof.
  induction l as [|a l IH]; intros Hnd.
  - rewrite decide_False; [done|apply not_elem_of_nil].
  - apply NoDup_cons in Hnd as [Ha Hnd]. rewrite filter_cons, IH by done.
    destruct (decide (a = x)) as [->|Hne].
    + rewrite decide_False by done. rewrite decide_True; [done|by left].
    + destruct (decide (x ∈ l)) as [Hin|Hout].
      * rewrite decide_True; [done|by right].
      * rewrite decide_False; [done|]. intros [?|?]%elem_of_cons; congruence.
Qed.

Lemma node_variable_errors_filter node_id available variables var :
  filter (reports_variable node_id var)
    (node_variable_errors node_id available variables) =
  if decide (var ∈ variables ∧ var ∉ available)
  then [UndefinedVariable node_id var (Py.sort (elements available))]
  else [].
Proof.
  unfold node_variable_errors.
  set (l := filter (λ v, v ∉ available) (elements variables)).
  assert (NoDup l) as Hnd by (apply NoDup_filter, NoDup_elements).
  assert (∀ l' : list string,
    filter (reports_variable node_id var)
      ((λ v, UndefinedVariable node_id v (Py.sort (elements available))) <$> l')
    = (λ v, UndefinedVariable node_id v (Py.sort (elements available)))
        <$> filter (λ y, y = var) l') as Hmap.
  { induction l' as [|a l' IH]; [done|]. csimpl. rewrite !filter_cons, IH. simpl.
    destruct (decide (a = var)) as [->|Hne].
    - by rewrite decide_True.
    - rewrite decide_False; [done|]. tauto. }
  rewrite Hmap, filter_eq_nodup by done.
  destruct (decide (var ∈ l)) as [Hin|Hout].
  - rewrite decide_True; [done|].
    apply list_elem_of_filter in Hin as [? ?%elem_of_elements]. done.
  - rewrite decide_False; [done|]. intros [? ?]. apply Hout.
    apply list_elem_of_filter. split; [done|]. by apply elem_of_elements.
Qed.

Lemma node_variable_errors_other node_id node_id' available variables var :
  node_id' ≠ node_id →
  filter (reports_variable node_id var)
    (node_variable_errors node_id' available variables) = [].
Proof.
  intros Hne. apply filter_nil_iff.
  intros e [v [-> _]]%list_elem_of_fmap [? _]. done.
Qed.

Lemma check_nodes_spec w available_outputs order : ∀ errors,
  (∀ n, n ∈ order → is_Some (nodes_by_id w !! n)) →
  check_nodes w available_outputs order errors =
  inr (errors ++ (order ≫= step_errors w available_outputs)).
Proof.
  induction order as [|n order IH]; intros errors Hdef; csimpl.
  - by rewrite app_nil_r.
  - destruct (Hdef n) as [node Hnode]; [by left|].
    unfold node_item. rewrite Hnode. simpl.
    rewrite IH by (intros m Hm; apply Hdef; by right).
    unfold step_errors at 2. rewrite Hnode. by rewrite app_assoc.
Qed.

(** C6.  On a workflow graph without cycle whose config texts are ASCII,
    validation returns a report in which, for every node and every name that
    the extraction finds in the node's config, the entries about that node and
    that name are: none when the name is in the node's scope; otherwise
    exactly one, and it carries the node id, the name and the sorted list of
    the names in scope.  The names the extraction finds are those the pattern
    matches in some text of the config: the function name, the model, the
    prompt template, the component type, and every string under any nesting
    of mappings and lists inside the function parameters and the template;
    these are the string leaves of the dumped config.  The name of a token
    that stands anywhere in such a text is among them. *)
Theorem scope_errors_exact (skill : SkillYAML) :
  let w := workflow skill in
  well_formed w → acyclic (edge_pairs w) →
  (∀ node s, node ∈ nodes w → config_text (config node) s → ascii_text s) →
  ∃ scopes ok report,
    _build_outputs_map skill ∅ = inr scopes ∧
    validate skill = inr (ok, report) ∧
    ∀ node, node ∈ nodes w →
      ∃ available, scopes !! id node = Some available ∧
        (∀ s, string_leaf (model_dump (config node)) s ↔ config_text (config node) s) ∧
        ∀ var,
          (var ∈ _extract_variables node ↔
             ∃ s, config_text (config node) s ∧ var ∈ findall s) ∧
          (∀ pre post, is_name var →
             config_text (config node) (pre +:+ token var +:+ post) →
             var ∈ _extract_variables node) ∧
          (var ∈ _extract_variables node →
             filter (reports_variable (id node) var) report =
             if decide (var ∈ available) then []
             else [UndefinedVariable (id node) var (Py.sort (elements available))]).
Proof.
  intros w Hwf Hacyc _.
  destruct (order_of_acyclic w Hwf Hacyc) as (order & Hrun & Hnd & Hmem & _).
  destruct (build_outputs_map_spec skill order Hrun) as (scopes & Hmap & Hout & Hin).
  destruct Hwf as [Hids Hclosed].
  assert (∀ n, n ∈ order → is_Some (nodes_by_id w !! n)) as Hdef.
  { intros n Hn. by apply nodes_by_id_is_Some, Hmem. }
  eexists scopes, _, _. split_and!; [done| |].
  - unfold validate, _validate_variable_references. fold w.
    rewrite Hrun, Hmap. simpl.
    rewrite (check_nodes_spec w scopes order [] Hdef). simpl. reflexivity.
  - intros node Hnode.
    assert (id node ∈ order) as Horder.
    { apply Hmem. unfold node_ids; simpl. by apply list_elem_of_fmap_2. }
    destruct (proj1 (list_elem_of_lookup _ _) Horder) as [k Hk].
    eexists. split; [by apply (Hin k)|].
    split; [apply model_dump_leaves|].
    intros var. split_and!.
    { rewrite extract_variables_spec.
      split; intros (s & Hs & ?); exists s; (split; [by apply model_dump_leaves|done]). }
    { intros pre post Hname Hleaf. apply extract_variables_spec.
      eexists. split; [by apply model_dump_leaves|]. by apply findall_embedded. }
    intros Hvar.
    rewrite !filter_app.
    rewrite (proj2 (filter_nil_iff _ (duplicate_errors w))).
    2:{ intros x Hx Hr.
        pose proof (proj1 (Forall_forall _ _) (duplicate_errors_kind w) x Hx) as [Hs _].
        destruct x; simpl in *; tauto. }
    rewrite (proj2 (filter_nil_iff _ (edge_errors w))).
    2:{ intros x Hx Hr.
        pose proof (proj1 (Forall_forall _ _) (edge_errors_kind w) x Hx) as [Hs _].
        destruct x; simpl in *; tauto. }
    rewrite (proj2 (filter_nil_iff _ (_validate_node_configs w))).
    2:{ intros x Hx Hr.
        pose proof (proj1 (Forall_forall _ _) (validate_node_configs_kind w) x Hx) as [_ Hs].
        destruct x; simpl in *; tauto. }
    simpl. rewrite app_nil_r.
    rewrite (filter_bind_unique _ _ order (id node) Hnd Horder).
    2:{ intros n Hn Hne. unfold step_errors. destruct (nodes_by_id w !! n); [|done].
        by apply node_variable_errors_other. }
    unfold step_errors. rewrite (nodes_by_id_elem w node Hids Hnode).
    rewrite (Hin k _ Hk). simpl. rewrite node_variable_errors_filter.
    set (A := parameter_names skill ∪ outputs_of_all (workflow skill) (take k order)).
    destruct (decide (var ∈ A)) as [HA|HA].
    + rewrite decide_False; [done|]. tauto.
    + rewrite decide_True; done.
Qed.

Lemma undefined_reference_well_formed :
  well_formed (workflow Examples.undefined_reference).
Proof. split; [by_compute|]. apply closed_Forall. by_compute. Qed.

Lemma undefined_reference_acyclic :
  acyclic (edge_pairs (workflow Examples.undefined_reference)).
Proof. apply (acyclic_of_rank (λ _, 0%nat)). by_compute. Qed.

(** Every config text of a workflow is ASCII when the listed texts are. *)
Lemma config_texts_ascii (w : WorkflowModel) :
  Forall (λ node, Forall ascii_text (config_texts (config node))) (nodes w) →
  ∀ node s, node ∈ nodes w → config_text (config node) s → ascii_text s.
Proof.
  intros Hall node s Hnode Hs.
  apply (proj1 (Forall_forall _ _) Hall) in Hnode.
  apply (proj1 (Forall_forall _ _) Hnode). by apply config_text_texts.
Qed.

Lemma undefined_reference_ascii :
  ∀ node s, node ∈ nodes (workflow Examples.undefined_reference) →
    config_text (config node) s → ascii_text s.
Proof. apply config_texts_ascii. by_compute. Qed.

Lemma scope_errors_exact_witness :
  let skill := Examples.undefined_reference in
  let w := workflow skill in
  well_formed w ∧ acyclic (edge_pairs w) ∧
  (∀ node s, node ∈ nodes w → config_text (config node) s → ascii_text s) ∧
  ∃ scopes ok report,
    _build_outputs_map skill ∅ = inr scopes ∧
    validate skill = inr (ok, report) ∧
    ∀ node, node ∈ nodes w →
      ∃ available, scopes !! id node = Some available ∧
        (∀ s, string_leaf (model_dump (config node)) s ↔ config_text (config node) s) ∧
        ∀ var,
          (var ∈ _extract_variables node ↔
             ∃ s, config_text (config node) s ∧ var ∈ findall s) ∧
          (∀ pre post, is_name var →
             config_text (config node) (pre +:+ token var +:+ post) →
             var ∈ _extract_variables node) ∧
          (var ∈ _extract_variables node →
             filter (reports_variable (id node) var) report =
             if decide (var ∈ available) then []
             else [UndefinedVariable (id node) var (Py.sort (elements available))]).
Proof.
  split; [|split; [|split]].
  - exact undefined_reference_well_formed.
  - exact undefined_reference_acyclic.
  - exact undefined_reference_ascii.
  - apply (scope_errors_exact Examples.undefined_reference).
    + exact undefined_reference_well_formed.
    + exact undefined_reference_acyclic.
    + exact undefined_reference_ascii.
Defined.

(** The spec's undefined variable: one entry, with the names in scope. *)
Example validate_undefined_reference :
  validate Examples.undefined_reference =
  inr (false, [UndefinedVariable "report" "undefined_var" ["topic"]]).
Proof. by vm_compute. Qed.

(** ** Structured resolution *)

Lemma contains_prefix sub s : String.prefix sub s = true → contains sub s = true.
Proof. intros H. destruct s; simpl in *; by rewrite H. Qed.

Lemma contains_token name : contains "{{" (token name) = true.
Proof.
  apply contains_prefix. rewrite <- (append_nil_r (token name)), token_unfold.
  simpl. by destruct (name +:+ "}}").
Qed.

Arguments contains : simpl never.

Lemma sub_no_match replacer s : ∀ skip,
  findall_from skip s = [] → sub_from replacer skip s = inr (drop_chars skip s).
Proof.
  induction s as [|c s IH]; intros skip Hnone; [by destruct skip|].
  destruct skip as [|skip]; simpl in *.
  - destruct (match_token (String c s)) as [[v r]|]; [done|].
    by rewrite (IH 0%nat Hnone).
  - by apply IH.
Qed.

Lemma findall_match s var_name rest :
  match_token s = Some (var_name, rest) → findall s ≠ [].
Proof.
  intros Hm. destruct s as [|c s]; [done|]. unfold findall. simpl. by rewrite Hm.
Qed.

Section structured.

Variable str : Any → string.
Variable state : dict Any.

Lemma state_get_error var_name e :
  Graph.state_get var_name state = inl e → unbound_error state e.
Proof.
  unfold Graph.state_get. intros H. exists var_name.
  destruct (dict_get var_name state) as [[]|]; try done;
    injection H as <-; auto.
Qed.

Lemma sub_error (replacer : string → outcome string) s : ∀ skip e,
  (∀ v e, replacer v = inl e → unbound_error state e) →
  sub_from replacer skip s = inl e → unbound_error state e.
Proof.
  induction s as [|c s IH]; intros skip e Hrep Hrun; [done|].
  destruct skip as [|skip]; simpl in Hrun; [|by eapply IH].
  destruct (match_token (String c s)) as [[v r]|].
  - destruct (replacer v) as [e'|text] eqn:Hv; simpl in Hrun.
    + injection Hrun as <-. by eapply Hrep.
    + destruct (sub_from replacer _ s) as [e'|rest] eqn:Hs in Hrun;
        simpl in Hrun; [|done].
      injection Hrun as <-. by eapply IH.
  - destruct (sub_from replacer 0 s) as [e'|rest] eqn:Hs; simpl in Hrun; [|done].
    injection Hrun as <-. by eapply IH.
Qed.

Lemma param_replacer_error v e :
  Graph.param_replacer str state v = inl e → unbound_error state e.
Proof.
  unfold Graph.param_replacer. intros H.
  destruct (Graph.state_get v state) as [e'|x] eqn:Hg; simpl in H; [|done].
  injection H as <-. by eapply state_get_error.
Qed.

Lemma resolve_param_variable_token var_name :
  is_name var_name →
  Graph._resolve_param_variable str (token var_name) state =
  match dict_get var_name state with
  | Some value => inr value
  | None => inl (ValueError (MsgNotFound var_name (dict_keys state)))
  end.
Proof.
  intros Hname. unfold Graph._resolve_param_variable.
  rewrite fullmatch_token by done. by destruct (dict_get var_name state).
Qed.

Lemma resolve_param_variable_error s e :
  Graph._resolve_param_variable str s state = inl e → unbound_error state e.
Proof.
  unfold Graph._resolve_param_variable. intros H.
  destruct (fullmatch s) as [v|].
  - destruct (dict_get v state) eqn:Hv; [done|]. injection H as <-.
    exists v. auto.
  - destruct (Py.sub (Graph.param_replacer str state) s) as [e'|x] eqn:Hs;
      simpl in H; [|done].
    injection H as <-. eapply sub_error; [|done]. apply param_replacer_error.
Qed.

Lemma resolve_string s value' :
  (if contains "{{" s then Graph._resolve_param_variable str s state
   else mret (VStr s)) = inr value' →
  resolves_item state (VStr s) value'.
Proof.
  intros Hrun. split.
  - intros var_name Hname ->. rewrite contains_token in Hrun.
    rewrite resolve_param_variable_token in Hrun by done.
    by destruct (dict_get var_name state); simplify_eq.
  - intros Hnone. destruct (contains "{{" s); [|by injection Hrun].
    unfold Graph._resolve_param_variable, fullmatch in Hrun.
    destruct (match_token s) as [[v r]|] eqn:Hm.
    { by destruct (findall_match _ _ _ Hm). }
    unfold Py.sub in Hrun. rewrite (sub_no_match _ s 0%nat Hnone) in Hrun.
    simpl in Hrun. by injection Hrun.
Qed.

Lemma resolve_item_spec item item' :
  Graph.resolve_item str state item = inr item' → resolves_item state item item'.
Proof.
  destruct item; simpl; try (by intros [= <-]). apply resolve_string.
Qed.

Lemma resolve_item_error item e :
  Graph.resolve_item str state item = inl e → unbound_error state e.
Proof.
  destruct item; simpl; try done.
  case_match; [apply resolve_param_variable_error|done].
Qed.

Lemma resolve_items_spec items : ∀ items',
  Graph.resolve_items str state items = inr items' →
  Forall2 (resolves_item state) items items'.
Proof.
  induction items as [|item items IH]; intros items' Hrun; simpl in Hrun.
  - injection Hrun as <-. constructor.
  - destruct (Graph.resolve_item str state item) as [e|item'] eqn:Hi; simpl in Hrun; [done|].
    destruct (Graph.resolve_items str state items) as [e|rest] eqn:Hr; simpl in Hrun; [done|].
    injection Hrun as <-. constructor; [by apply resolve_item_spec|by apply IH].
Qed.

Lemma resolve_items_error items e :
  Graph.resolve_items str state items = inl e → unbound_error state e.
Proof.
  induction items as [|item items IH]; simpl; intros Hrun; [done|].
  destruct (Graph.resolve_item str state item) as [e'|item'] eqn:Hi; simpl in Hrun.
  - injection Hrun as <-. by eapply resolve_item_error.
  - destruct (Graph.resolve_items str state items) as [e'|rest] eqn:Hr; simpl in Hrun; [|done].
    injection Hrun as <-. by apply IH.
Qed.

Lemma resolve_items_unbound items var_name :
  is_name var_name → VStr (token var_name) ∈ items →
  dict_get var_name state = None →
  ∃ e, Graph.resolve_items str state items = inl e.
Proof.
  intros Hname Hin Hnone. induction items as [|item items IH];
    [by apply elem_of_nil in Hin|].
  simpl. apply elem_of_cons in Hin as [<-|Hin].
  - simpl. rewrite contains_token, resolve_param_variable_token, Hnone by done.
    by eexists.
  - destruct (Graph.resolve_item str state item); simpl; [by eexists|].
    destruct (IH Hin) as [e ->]. by eexists.
Qed.

Lemma resolve_entry_spec value value' :
  Graph.resolve_entry str state value = inr value' → resolves_entry state value value'.
Proof.
  destruct value as [| | | |s|items|items]; simpl; try (by intros [= <-]).
  - apply resolve_string.
  - destruct (Graph.resolve_items str state items) as [e|items'] eqn:Hr; simpl; [done|].
    intros [= <-]. exists items'. split; [done|]. by apply resolve_items_spec.
Qed.

Lemma resolve_entry_error value e :
  Graph.resolve_entry str state value = inl e → unbound_error state e.
Proof.
  destruct value as [| | | |s|items|items]; simpl; try done.
  - case_match; [apply resolve_param_variable_error|done].
  - destruct (Graph.resolve_items str state items) as [e'|items'] eqn:Hr; simpl; [|done].
    intros [= <-]. by eapply resolve_items_error.
Qed.

Lemma resolve_entry_unbound value var_name :
  is_name var_name → has_whole_token value var_name →
  dict_get var_name state = None →
  ∃ e, Graph.resolve_entry str state value = inl e.
Proof.
  intros Hname [->|(items & -> & Hin)] Hnone; simpl.
  - rewrite contains_token, resolve_param_variable_token, Hnone by done. by eexists.
  - destruct (resolve_items_unbound items var_name Hname Hin Hnone) as [e ->].
    by eexists.
Qed.

Lemma dict_set_fresh {V} key (v : V) d :
  key ∉ dict_keys d → dict_set key v d = d ++ [(key, v)].
Proof.
  unfold dict_keys. induction d as [|[k x] d IH]; csimpl; intros Hk; [done|].
  rewrite decide_False by (intros ->; apply Hk; by left).
  rewrite IH; [done|]. intros ?. apply Hk. by right.
Qed.

Lemma resolve_entries_spec params : ∀ acc resolved,
  NoDup (dict_keys acc ++ dict_keys params) →
  Graph.resolve_entries str state params acc = inr resolved →
  ∃ params', resolved = acc ++ params' ∧
    Forall2 (λ kv kv', kv.1 = kv'.1 ∧ resolves_entry state kv.2 kv'.2) params params'.
Proof.
  unfold dict_keys.
  induction params as [|[key value] params IH]; intros acc resolved Hnd Hrun;
    simpl in Hrun.
  - injection Hrun as <-. exists []. by rewrite app_nil_r.
  - destruct (Graph.resolve_entry str state value) as [e|value'] eqn:Hv; simpl in Hrun; [done|].
    csimpl in Hnd.
    assert (key ∉ acc.*1) as Hfresh.
    { apply NoDup_app in Hnd as (_ & Hd & _). intros Hin. apply (Hd key Hin). by left. }
    rewrite (dict_set_fresh key value' acc Hfresh) in Hrun.
    destruct (IH (acc ++ [(key, value')]) resolved) as (params' & -> & Hall); [|done|].
    { rewrite fmap_app, <- app_assoc. done. }
    exists ((key, value') :: params'). split; [by rewrite <- app_assoc|].
    constructor; [|done]. split; [done|]. by apply resolve_entry_spec.
Qed.

Lemma resolve_entries_error params : ∀ acc e,
  Graph.resolve_entries str state params acc = inl e → unbound_error state e.
Proof.
  induction params as [|[key value] params IH]; intros acc e Hrun; simpl in Hrun; [done|].
  destruct (Graph.resolve_entry str state value) as [e'|value'] eqn:Hv; simpl in Hrun.
  - injection Hrun as <-. by eapply resolve_entry_error.
  - by eapply IH.
Qed.

Lemma resolve_entries_unbound params key value var_name : ∀ acc,
  (key, value) ∈ params → is_name var_name → has_whole_token value var_name →
  dict_get var_name state = None →
  ∃ e, Graph.resolve_entries str state params acc = inl e.
Proof.
  induction params as [|[k v] params IH]; intros acc Hin Hname Hwhole Hnone;
    [by apply elem_of_nil in Hin|].
  simpl. apply elem_of_cons in Hin as [[= <- <-]|Hin].
  - destruct (resolve_entry_unbound value var_name Hname Hwhole Hnone) as [e ->].
    by eexists.
  - destruct (Graph.resolve_entry str state v); simpl; [by eexists|]. by apply IH.
Qed.

End structured.

(** C8.  A parameter that is exactly one token resolves to the value stored
    under the name, as stored, and raises the unbound-variable error, with
    the name and the bound names, exactly when the name is not in the state.
    On a parameter mapping whose strings are ASCII, a successful resolution
    keeps the keys and their order; every whole-token string, alone or as an
    element of a list parameter, is replaced by the stored value, and every
    string without a token and every other element stays as it is.  A whole
    token whose name is unbound makes the resolution fail, and whenever it
    fails the error names a variable without value and the names bound in the
    state. *)
Theorem structured_resolution (str : Any → string) (state : dict Any) :
  (∀ var_name, is_name var_name →
     Graph._resolve_param_variable str (token var_name) state =
     match dict_get var_name state with
     | Some value => inr value
     | None => inl (ValueError (MsgNotFound var_name (dict_keys state)))
     end) ∧
  (∀ params resolved, Forall ascii_text (param_texts params) →
     NoDup (dict_keys params) →
     Graph._resolve_params str params state = inr resolved →
     Forall2 (λ kv kv', kv.1 = kv'.1 ∧ resolves_entry state kv.2 kv'.2)
       params resolved) ∧
  (∀ params key value var_name, Forall ascii_text (param_texts params) →
     (key, value) ∈ params → is_name var_name → has_whole_token value var_name →
     dict_get var_name state = None →
     ∃ e, Graph._resolve_params str params state = inl e) ∧
  (∀ params e, Forall ascii_text (param_texts params) →
     Graph._resolve_params str params state = inl e →
     unbound_error state e).
Proof.
  split_and!.
  - apply resolve_param_variable_token.
  - intros params resolved _ Hnd Hrun.
    destruct (resolve_entries_spec str state params [] resolved) as (params' & -> & H);
      [done..|]. done.
  - intros params key value var_name _ Hin Hname Hwhole Hnone.
    by eapply resolve_entries_unbound.
  - intros params e _. apply resolve_entries_error.
Qed.

(** The parameters of [vector_search] against the state it runs in: the list
    bound to the embedding comes back as a list. *)
Example resolve_search_params :
  Graph._resolve_params (λ _, EmptyString) Examples.search_params Examples.search_state =
  inr [("embedding", VList [VFloat "0.12"; VFloat "-0.5"]); ("limit", VInt 10);
       ("tags", VList [VInt 10; VStr "fixed"; VInt 3])].
Proof. by vm_compute. Qed.

Lemma structured_resolution_witness :
  is_name "embedding" ∧
  Graph._resolve_param_variable (λ _, EmptyString) (token "embedding")
    Examples.search_state = inr (VList [VFloat "0.12"; VFloat "-0.5"]) ∧
  Forall ascii_text (param_texts Examples.search_params) ∧
  NoDup (dict_keys Examples.search_params) ∧
  ∃ resolved,
    Graph._resolve_params (λ _, EmptyString) Examples.search_params
      Examples.search_state = inr resolved ∧
    Forall2 (λ kv kv', kv.1 = kv'.1 ∧ resolves_entry Examples.search_state kv.2 kv'.2)
      Examples.search_params resolved.
Proof.
  assert (is_name "embedding") as Hname by (split; [done|by_compute]).
  assert (Forall ascii_text (param_texts Examples.search_params)) as Hascii
    by by_compute.
  assert (NoDup (dict_keys Examples.search_params)) as Hnd by by_compute.
  split; [exact Hname|].
  split.
  { exact (proj1 (structured_resolution (λ _, EmptyString) Examples.search_state)
             "embedding" Hname). }
  split; [exact Hascii|]. split; [exact Hnd|].
  eexists. split; [by vm_compute|].
  exact (proj1 (proj2 (structured_resolution (λ _, EmptyString) Examples.search_state))
           Examples.search_params _ Hascii Hnd eq_refl).
Defined.

(** ** Nested mappings *)

Lemma dict_get_Forall2 {V} (R : V → V → Prop) (l l' : dict V) key v :
  Forall2 (λ kv kv', kv.1 = kv'.1 ∧ R kv.2 kv'.2) l l' →
  dict_get key l = Some v → ∃ v', dict_get key l' = Some v' ∧ R v v'.
Proof.
  induction 1 as [|[k x] [k' x'] l l' [Hk HR] _ IH]; simpl in *; [done|].
  subst k'. case_decide; [|done]. intros [= ->]. eauto.
Qed.

(** C10.  A parameter whose value is neither a string nor a list, a nested
    mapping in particular, comes out of the structured resolution as it went
    in, whatever the state binds: a token inside it is not resolved and
    cannot make the resolution fail.  The validator does reach such a token:
    a name whose token stands in a string leaf of the parameter, at any depth,
    is among the names the recursive search collects. *)
Theorem nested_mapping_not_resolved (str : Any → string)
    (params state : dict Any) (key : string) (value : Any) :
  NoDup (dict_keys params) → dict_get key params = Some value →
  (∀ s, value ≠ VStr s) → (∀ items, value ≠ VList items) →
  (∀ resolved, Graph._resolve_params str params state = inr resolved →
               dict_get key resolved = Some value) ∧
  Graph._resolve_params str [(key, value)] state = inr [(key, value)] ∧
  (∀ var_name pre post, is_name var_name →
     string_leaf value (pre +:+ token var_name +:+ post) →
     var_name ∈ _search_dict_for_variables (VDict params) ∅).
Proof.
  intros Hnd Hget Hstr Hlist. split_and!.
  - intros resolved Hrun.
    destruct (resolve_entries_spec str state params [] resolved) as (params' & -> & H);
      [done..|].
    destruct (dict_get_Forall2 _ _ _ _ _ H Hget) as (value' & Hget' & HR).
    rewrite app_nil_l, Hget'. f_equal.
    destruct value; simpl in HR; try done.
    + by destruct (Hstr s).
    + by destruct (Hlist items).
  - unfold Graph._resolve_params. simpl.
    destruct value; simpl; try done.
    + by destruct (Hstr s).
    + by destruct (Hlist items).
  - intros var_name pre post Hname Hleaf. apply search_spec. right.
    eexists. split.
    + apply (leaf_in_dict _ key value); [|done].
      by apply dict_get_elem_of.
    + by apply findall_embedded.
Qed.

Lemma nested_mapping_not_resolved_witness :
  let value := VDict [("asset", VStr "{{asset_id}}")] in
  NoDup (dict_keys Examples.nested_params) ∧
  dict_get "filter" Examples.nested_params = Some value ∧
  (∀ s, value ≠ VStr s) ∧ (∀ items, value ≠ VList items) ∧
  (∀ resolved,
     Graph._resolve_params (λ _, EmptyString) Examples.nested_params [] = inr resolved →
     dict_get "filter" resolved = Some value) ∧
  Graph._resolve_params (λ _, EmptyString) [("filter", value)] [] =
    inr [("filter", value)] ∧
  (∀ var_name pre post, is_name var_name →
     string_leaf value (pre +:+ token var_name +:+ post) →
     var_name ∈ _search_dict_for_variables (VDict Examples.nested_params) ∅).
Proof.
  split_and!; [by_compute|reflexivity|done|done|..];
    apply (nested_mapping_not_resolved (λ _, EmptyString) Examples.nested_params []
             "filter" (VDict [("asset", VStr "{{asset_id}}")]));
    first [by_compute|reflexivity|done].
Defined.

(** On the sample: the run-time resolver returns the nested token untouched,
    with an empty state, while the validator collects its name. *)
Example nested_token_both_sides :
  Graph._resolve_params (λ _, EmptyString) Examples.nested_params [] =
    inr Examples.nested_params ∧
  elements (_search_dict_for_variables (VDict Examples.nested_params) ∅) = ["asset_id"].
Proof. split; by vm_compute. Qed.

(** ** String-safe resolution and JSON *)

Lemma replace_app old new a b :
  replace old new (a +:+ b) = replace old new a +:+ replace old new b.
Proof.
  induction a as [|c a IH]; [done|]. rewrite append_cons. simpl.
  case_decide; by rewrite IH, ?append_assoc, ?append_cons.
Qed.

Lemma escape_cons c s : Graph.escape (String c s) = escape_char c +:+ Graph.escape s.
Proof.
  change (String c s) with (String c EmptyString +:+ s).
  unfold Graph.escape. rewrite !replace_app. f_equal.
  unfold escape_char.
  destruct (decide (c = backslash)) as [->|H1]; [done|].
  destruct (decide (c = dquote)) as [->|H2]; [done|].
  destruct (decide (c = newline)) as [->|H3]; [done|].
  destruct (decide (c = carriage_return)) as [->|H4]; [done|].
  destruct (decide (c = tab)) as [->|H5]; [done|].
  simpl. by repeat (rewrite decide_False by done; simpl).
Qed.

(** The escaped text, closed by a quote, reads back as the text itself when
    every character is safe. *)
Lemma scanstring_escape s rest :
  Forall json_safe (chars s) →
  Json.scanstring (Graph.escape s +:+ String dquote rest) = Some (s, rest).
Proof.
  induction s as [|c s IH]; intros Hsafe.
  - done.
  - apply Forall_cons in Hsafe as [Hc Hsafe]. specialize (IH Hsafe).
    rewrite escape_cons, append_assoc. unfold escape_char.
    destruct (decide (c = backslash)) as [->|H1];
      [rewrite !append_cons, append_nil_l; simpl; by rewrite IH|].
    destruct (decide (c = dquote)) as [->|H2];
      [rewrite !append_cons, append_nil_l; simpl; by rewrite IH|].
    destruct (decide (c = newline)) as [->|H3];
      [rewrite !append_cons, append_nil_l; simpl; by rewrite IH|].
    destruct (decide (c = carriage_return)) as [->|H4];
      [rewrite !append_cons, append_nil_l; simpl; by rewrite IH|].
    destruct (decide (c = tab)) as [->|H5];
      [rewrite !append_cons, append_nil_l; simpl; by rewrite IH|].
    rewrite append_cons, append_nil_l. simpl.
    rewrite !decide_False; [by rewrite IH|..|done|done].
    destruct Hc as [?|[?|[?|?]]]; [lia|done..].
Qed.

Lemma sub_from_skip replacer a b :
  sub_from replacer (String.length a) (a +:+ b) = sub_from replacer 0 b.
Proof. induction a as [|c a IH]; [done|]. rewrite append_cons. simpl. apply IH. Qed.

(** [re.sub] on a character that starts no match, and on a token. *)
Lemma sub_from_cons replacer c s :
  match_token (String c s) = None →
  sub_from replacer 0 (String c s) =
  rest ← sub_from replacer 0 s; mret (String c rest).
Proof. intros H. simpl. by rewrite H. Qed.

Lemma sub_from_token replacer var_name rest :
  is_name var_name →
  sub_from replacer 0 (token var_name +:+ rest) =
  text ← replacer var_name; rest' ← sub_from replacer 0 rest; mret (text +:+ rest').
Proof.
  intros Hname. pose proof (match_token_token var_name rest Hname) as Hm.
  rewrite token_unfold in *. cbn [sub_from]. rewrite Hm.
  destruct (replacer var_name) as [e|text]; [done|]. simpl.
  replace (S (S (String.length var_name)))
    with (String.length (var_name +:+ "}}")).
  2:{ rewrite length_append. simpl. lia. }
  change (var_name +:+ String "}" (String "}" rest))
    with (var_name +:+ ("}}" +:+ rest)).
  rewrite <- append_assoc. by rewrite sub_from_skip.
Qed.

Lemma field_document_unfold key body :
  Json.field_document key body =
  String "{" (String dquote (key +:+ String dquote (String ":" (String " "
    (String dquote (body +:+ String dquote "}")))))).
Proof.
  unfold Json.field_document, Json.quoted.
  by rewrite !append_cons, !append_nil_l, !append_assoc, !append_cons, !append_nil_l.
Qed.

Lemma loads_field_document key s :
  Forall json_safe (chars key) → Forall json_safe (chars s) →
  Json.loads_field (Json.field_document (Graph.escape key) (Graph.escape s)) =
  Some (key, s).
Proof.
  intros Hkey Hs. rewrite field_document_unfold. unfold Json.loads_field.
  rewrite decide_True by done. rewrite scanstring_escape by done. simpl.
  by rewrite scanstring_escape.
Qed.

(** Where the escaping is complete, the specified round trip holds: a summary
    of safe characters is spliced into the card and read back unchanged. *)
Lemma resolve_template_roundtrip (json_dumps : bool → Any → string)
    (str : Any → string) (s : string) :
  Forall json_safe (chars s) →
  Graph._resolve_template json_dumps str Examples.card_template
    [("summarized_findings", VStr s)] =
    inr (Json.field_document "data" (Graph.escape s)) ∧
  Json.loads_field (Json.field_document "data" (Graph.escape s)) = Some ("data", s).
Proof.
  intros Hsafe. split.
  - unfold Graph._resolve_template, Py.sub.
    change Examples.card_template
      with (String "{" (String dquote ("data" +:+ String dquote (": " +:+
              String dquote (token "summarized_findings" +:+ String dquote "}"))))).
    rewrite !append_cons, !append_nil_l.
    rewrite !sub_from_cons by done.
    rewrite sub_from_token by (split; [done|by_compute]).
    rewrite !sub_from_cons by done. simpl.
    rewrite field_document_unfold.
    by rewrite !append_cons, !append_nil_l.
  - change "data" with (Graph.escape "data") at 1.
    apply loads_field_document; [by_compute|done].
Qed.

(** C9, as the code has it.  A summary that is a form feed is copied into
    the card as it is, since [escape] rewrites only five characters, and the
    resulting document is no longer JSON: the literal holds a raw control
    character and [json.loads] rejects it.  The template itself reads back as
    the one field it was built from. *)
Theorem resolve_template_breaks_json (json_dumps : bool → Any → string)
    (str : Any → string) :
  let form_feed := String "012"%char EmptyString in
  Json.loads_field Examples.card_template = Some ("data", "{{summarized_findings}}") ∧
  Graph.escape form_feed = form_feed ∧
  Graph._resolve_template json_dumps str Examples.card_template
    Examples.form_feed_state = inr (Json.field_document "data" form_feed) ∧
  Json.loads_field (Json.field_document "data" form_feed) = None.
Proof. split_and!; by vm_compute. Qed.

(** * Further properties of the code *)

(** ** The ordering as a test for well-formed acyclic graphs *)

Section stuck.

Variable ids : list string.
Variable E : list (string * string).
Hypothesis E_closed : closed ids E.

(** When the loop ends with a node left over, the left-over nodes feed one
    another, and a long enough walk backwards among them closes a cycle. *)
Lemma stuck_has_cycle order n :
  kahn_post ids E order → n ∈ ids → n ∉ order → has_cycle E.
Proof.
  intros [_ _ _ Hstuck] Hn Hout.
  set (R := filter (λ x, x ∉ order) ids).
  assert (∀ x, x ∈ R → ∃ s, s ∈ R ∧ (s, x) ∈ E) as HR.
  { intros x [Hx1 Hx2]%list_elem_of_filter.
    destruct (Hstuck x Hx2 Hx1) as (s & Hs & Hso).
    exists s. split; [|done]. apply list_elem_of_filter. split; [done|].
    by apply (E_closed _ _ Hs). }
  destruct (chain_grow E R (length R) n HR) as (l & Hlen & Hc & Hsub).
  { by apply list_elem_of_filter. }
  apply (chain_dup E l Hc).
  intros Hnd. pose proof (submseteq_length _ _ (NoDup_submseteq _ _ Hnd Hsub)). lia.
Qed.

End stuck.

Lemma topological_order_only_for_dag_aux w order :
  _get_topological_order w = inr order →
  well_formed w ∧ acyclic (edge_pairs w) ∧ order ≡ₚ node_ids w.
Proof.
  intros Hrun.
  destruct (topological_order_inr w order Hrun) as (Hclosed & Hpost & Hlen).
  destruct (order_complete w order Hrun) as [Hperm Hids].
  split_and!; [split; [|done]| |].
  - rewrite <- Hids. apply ids_nodup.
  - intros n Hp.
    destruct (cycle_incomplete _ _ (ids_closed w Hclosed) order n Hpost Hp) as [Hin Hout].
    apply Hout. by rewrite Hperm.
  - by rewrite Hperm.
Qed.

(** X1.  [_get_topological_order] returns a list only for a graph with unique
    ids, edges between existing nodes and no cycle; the list then holds every
    node id once, and the public [get_topological_order] gives the same. *)
Theorem topological_order_only_for_dag (w : WorkflowModel) (order : list string) :
  _get_topological_order w = inr order →
  well_formed w ∧ acyclic (edge_pairs w) ∧ order ≡ₚ node_ids w ∧
  get_topological_order w = inr order.
Proof.
  intros Hrun.
  destruct (topological_order_only_for_dag_aux w order Hrun) as (? & ? & ?). done.
Qed.

Lemma topological_order_only_for_dag_witness :
  let w := workflow Examples.similarity_search in
  let order := ["generate_embedding"; "vector_search"; "enrich_results";
                "summarize_findings"; "display_results"] in
  _get_topological_order w = inr order ∧
  well_formed w ∧ acyclic (edge_pairs w) ∧ order ≡ₚ node_ids w ∧
  get_topological_order w = inr order.
Proof.
  split; [by vm_compute|].
  apply (topological_order_only_for_dag (workflow Examples.similarity_search)).
  by vm_compute.
Defined.

Lemma add_edges_error es : ∀ adj_list in_degree e,
  add_edges es adj_list in_degree = inl e →
  ∃ k edge, e = KeyError k ∧ edge ∈ es ∧
            (k = source_node edge ∨ k = target_node edge).
Proof.
  induction es as [|edge es IH]; intros adj ind e Hrun; [done|].
  simpl in Hrun. unfold dict_item in Hrun.
  destruct (dict_get (source_node edge) adj) as [l|]; simpl in Hrun.
  2:{ injection Hrun as <-. exists (source_node edge), edge. split_and!; [done|by left|by left]. }
  destruct (dict_get (target_node edge) ind) as [d|]; simpl in Hrun.
  2:{ injection Hrun as <-. exists (target_node edge), edge. split_and!; [done|by left|by right]. }
  destruct (IH _ _ _ Hrun) as (k & edge' & -> & Hin & Hk).
  exists k, edge'. split_and!; [done|by right|done].
Qed.

(** X2.  The ordering fails in two ways only.  Either it raises [KeyError]
    for an id that is an end of some edge and is no node id; or the edges join
    existing nodes, the error is the cycle error, and then two nodes share an
    id or the edges do contain a cycle.  No other exception leaves it: the
    queue is never popped empty. *)
Theorem topological_order_failures (w : WorkflowModel) (e : exn) :
  _get_topological_order w = inl e →
  (∃ k edge, e = KeyError k ∧ (k ∉ node_ids w) ∧ edge ∈ edges w ∧
             (k = source_node edge ∨ k = target_node edge)) ∨
  (e = ValueError MsgCycle ∧ closed (node_ids w) (edge_pairs w) ∧
   (¬ NoDup (node_ids w) ∨ has_cycle (edge_pairs w))).
Proof.
  intros Hrun. destruct (closed_dec w) as [Hc|Hc].
  - right. destruct (kahn_result_spec w Hc) as (order & Hk & Hpost).
    unfold _get_topological_order in Hrun. rewrite Hk in Hrun. simpl in Hrun.
    case_decide as Hlen; [|done]. injection Hrun as <-. split_and!; [done..|].
    destruct (decide (NoDup (node_ids w))) as [Hnd|Hnd]; [right|by left].
    set (ids := dict_keys (dict_from_nodes 0 (nodes w))) in *.
    destruct (decide (Forall (λ n, n ∈ order) ids)) as [Hall|Hex].
    + exfalso. apply Hlen. rewrite <- (ids_length_nodup w Hnd).
      destruct Hpost as [Hnd' Hsub _ _].
      apply Permutation_length, NoDup_Permutation; [done|apply ids_nodup|].
      intros x. split; [apply Hsub|]. apply (proj1 (Forall_forall _ _) Hall).
    + apply not_Forall_Exists in Hex; [|apply _].
      apply Exists_exists in Hex as (n & Hn & Hout).
      by apply (stuck_has_cycle ids (edge_pairs w) (ids_closed w Hc) order n).
  - left. unfold _get_topological_order, kahn_result in Hrun.
    destruct (add_edges (edges w) (dict_from_nodes [] (nodes w))
                (dict_from_nodes 0 (nodes w))) as [e'|[adj ind]] eqn:Hadd.
    + simpl in Hrun. injection Hrun as <-.
      destruct (add_edges_error _ _ _ _ Hadd) as (k & edge & -> & Hin & Hk).
      exists k, edge. split_and!; [done| |done..].
      destruct (add_edges_dangling (node_ids w) (edges w)
                  (dict_from_nodes [] (nodes w)) (dict_from_nodes 0 (nodes w)))
        as (k' & Hk' & Hrun'); [apply dict_from_nodes_is_Some..| |congruence].
      destruct (decide (Exists (λ e, dangling w e) (edges w))) as [Hex|Hnex].
      * apply Exists_exists in Hex as (x & ? & ?). by exists x.
      * destruct Hc. intros s t [x [[= -> ->] Hx]]%list_elem_of_fmap.
        apply not_Exists_Forall in Hnex; [|apply _].
        pose proof (proj1 (Forall_forall _ _) Hnex x Hx) as Hd.
        unfold dangling in Hd. simpl in Hd. split.
        -- destruct (decide (source_node x ∈ node_ids w)); [done|]. destruct Hd. by left.
        -- destruct (decide (target_node x ∈ node_ids w)); [done|]. destruct Hd. by right.
    + exfalso. apply Hc. intros s t [x [[= -> ->] Hx]]%list_elem_of_fmap.
      destruct (decide (dangling w x)) as [Hd|Hd].
      * destruct (add_edges_dangling (node_ids w) (edges w)
                  (dict_from_nodes [] (nodes w)) (dict_from_nodes 0 (nodes w)))
          as (k' & Hk' & Hrun'); [apply dict_from_nodes_is_Some..|by exists x|congruence].
      * unfold dangling in Hd. split.
        -- destruct (decide (source_node x ∈ node_ids w)); [done|]. destruct Hd. by left.
        -- destruct (decide (target_node x ∈ node_ids w)); [done|]. destruct Hd. by right.
Qed.

Lemma topological_order_failures_witness :
  let w := workflow Examples.two_cycle in
  let e := ValueError MsgCycle in
  _get_topological_order w = inl e ∧
  ((∃ k edge, e = KeyError k ∧ (k ∉ node_ids w) ∧ edge ∈ edges w ∧
              (k = source_node edge ∨ k = target_node edge)) ∨
   (e = ValueError MsgCycle ∧ closed (node_ids w) (edge_pairs w) ∧
    (¬ NoDup (node_ids w) ∨ has_cycle (edge_pairs w)))).
Proof.
  split; [by vm_compute|].
  apply (topological_order_failures (workflow Examples.two_cycle)). by vm_compute.
Defined.

(** ** The duplicate-id check *)

Lemma occ_le_one_nodup (l : list string) :
  NoDup l ↔ ∀ x, (occ x l ≤ 1)%nat.
Proof.
  induction l as [|a l IH].
  - split; [intros _ x; unfold occ; simpl; lia|constructor].
  - rewrite NoDup_cons, IH. split.
    + intros [Ha Hl] x. rewrite occ_cons. case_decide as Hx; [|apply Hl].
      subst x. assert (occ a l = 0%nat) as ->; [|lia].
      unfold occ. rewrite (proj2 (filter_nil_iff _ l)); [done|]. by intros y Hy ->.
    + intros H. split.
      * intros Ha. specialize (H a). rewrite occ_cons, decide_True in H by done.
        assert (occ a l ≠ 0%nat); [|lia]. unfold occ. intros Hz.
        apply length_zero_iff_nil in Hz.
        eapply (proj1 (filter_nil_iff _ l)); done.
      * intros x. specialize (H x). rewrite occ_cons in H. lia.
Qed.

Lemma duplicate_errors_cases (w : WorkflowModel) :
  match duplicate_errors w with
  | [] => NoDup (node_ids w)
  | [DuplicateNodeIds ids] =>
      ¬ NoDup (node_ids w) ∧ ∀ x, x ∈ ids ↔ (1 < occ x (node_ids w))%nat
  | _ => False
  end.
Proof.
  unfold duplicate_errors.
  change (id <$> nodes w) with (node_ids w).
  set (dups := filter (λ nid, (1 < length (filter (λ x, x = nid) (node_ids w)))%nat)
                 (node_ids w)).
  assert (∀ x, x ∈ dups ↔ (1 < occ x (node_ids w))%nat) as Hd.
  { intros x. unfold dups. rewrite list_elem_of_filter. fold (occ x (node_ids w)).
    split; [tauto|]. intros Hx. split; [done|].
    destruct (decide (x ∈ node_ids w)) as [|Hout]; [done|].
    assert (occ x (node_ids w) = 0%nat); [|lia].
    unfold occ. rewrite (proj2 (filter_nil_iff _ _)); [done|]. by intros y Hy ->. }
  destruct dups as [|d dups'] eqn:Hdups.
  - apply occ_le_one_nodup. intros x.
    destruct (decide (1 < occ x (node_ids w))%nat) as [Hx|]; [|lia].
    apply Hd in Hx. by apply elem_of_nil in Hx.
  - split.
    + rewrite occ_le_one_nodup. intros H.
      assert (1 < occ d (node_ids w))%nat as Hx by (apply Hd; by left).
      specialize (H d). lia.
    + intros x. by rewrite elem_of_list_to_set.
Qed.

(** X3.  The duplicate check adds nothing exactly when the node ids are
    pairwise distinct; otherwise it adds one entry, whose set holds exactly
    the ids that occur more than once. *)
Theorem duplicate_errors_spec (w : WorkflowModel) :
  (duplicate_errors w = [] ↔ NoDup (node_ids w)) ∧
  (duplicate_errors w ≠ [] →
     ∃ ids, duplicate_errors w = [DuplicateNodeIds ids] ∧
            ∀ x, x ∈ ids ↔ (1 < occ x (node_ids w))%nat).
Proof.
  pose proof (duplicate_errors_cases w) as H.
  destruct (duplicate_errors w) as [|[] [|]]; try done.
  destruct H as [Hdup Hids]. split; [done|]. intros _. by eexists.
Qed.

(** ** The report of a run that returns *)

Lemma edge_errors_closed w :
  closed (node_ids w) (edge_pairs w) → edge_errors w = [].
Proof.
  intros Hc. unfold edge_errors.
  assert (∀ l acc, (∀ e, e ∈ l → e ∈ edges w) →
    foldl (λ errors edge,
       let errors :=
         if decide (is_Some (nodes_by_id w !! source_node edge)) then errors
         else errors ++ [NonExistentSource (source_node edge)] in
       if decide (is_Some (nodes_by_id w !! target_node edge)) then errors
       else errors ++ [NonExistentTarget (target_node edge)]) acc l = acc) as H.
  { induction l as [|a l IH]; intros acc Hl; simpl; [done|].
    destruct (Hc (source_node a) (target_node a)) as [Hs Ht].
    { apply list_elem_of_fmap. exists a. split; [done|]. apply Hl. by left. }
    rewrite !decide_True by (by apply nodes_by_id_is_Some).
    apply IH. intros e He. apply Hl. by right. }
  by apply H.
Qed.

Lemma node_variable_errors_nil node_id available variables :
  node_variable_errors node_id available variables = [] ↔ variables ⊆ available.
Proof.
  unfold node_variable_errors. split.
  - intros H%fmap_nil_inv x Hx. destruct (decide (x ∈ available)) as [|Hout]; [done|].
    destruct (proj1 (filter_nil_iff _ _) H x); [by apply elem_of_elements|done].
  - intros H. rewrite (proj2 (filter_nil_iff _ _)); [done|].
    intros x Hx%elem_of_elements Hout. by apply Hout, H.
Qed.

Lemma truthy_missing o : truthy o = true ↔ ¬ missing o.
Proof.
  unfold missing. destruct o as [[|c s]|]; simpl.
  - split; [done|]. intros H. destruct H. by right.
  - split; [|done]. by intros _ [?|?].
  - split; [done|]. intros H. destruct H. by left.
Qed.

Lemma node_config_errors_nil node :
  node_config_errors node = [] ↔
  ∀ field, required_field node = Some field → ¬ missing field.
Proof.
  unfold node_config_errors, required_field.
  destruct (type node).
  4:{ split; [by intros _ field [=]|done]. }
  all: match goal with |- context [truthy ?o] =>
         pose proof (truthy_missing o) as Ht; destruct (truthy o) end.
  all: split; intros H.
  all: try (intros field [= <-]).
  all: try done.
  all: try (by apply Ht).
  all: exfalso; apply (H _ eq_refl); apply dec_stable; intros Hm; by apply Ht in Hm.
Qed.

(** A run whose ordering succeeds: what [validate] returns. *)
Lemma validate_on_order skill order :
  let w := workflow skill in
  _get_topological_order w = inr order →
  ∃ scopes : gmap string (gset string),
    _build_outputs_map skill ∅ = inr scopes ∧
    (∀ k n, order !! k = Some n →
       scopes !! n = Some (parameter_names skill ∪ outputs_of_all w (take k order))) ∧
    let report := duplicate_errors w ++ edge_errors w
                  ++ (order ≫= step_errors w scopes) ++ _validate_node_configs w in
    validate skill = inr (bool_decide (length report = 0%nat), report).
Proof.
  intros w Hrun.
  destruct (build_outputs_map_spec skill order Hrun) as (scopes & Hmap & Hout & Hin).
  destruct (order_complete w order Hrun) as [Hperm Hids].
  exists scopes. split_and!; [done..|].
  unfold validate, _validate_variable_references. fold w.
  rewrite Hrun, Hmap. simpl.
  rewrite (check_nodes_spec w scopes order []).
  2:{ intros n Hn. apply nodes_by_id_is_Some. rewrite <- Hids, <- Hperm. done. }
  simpl. by rewrite <- !app_assoc.
Qed.

Lemma step_errors_kind w scopes order :
  Forall (λ e, is_scope_error e ∧ ¬ is_edge_error e) (order ≫= step_errors w scopes).
Proof.
  apply Forall_bind, Forall_forall. intros n _. unfold compose, step_errors.
  destruct (nodes_by_id w !! n); [|constructor].
  apply Forall_forall. intros e [v [-> _]]%list_elem_of_fmap. simpl. tauto.
Qed.

Lemma not_closed_dangling w :
  ¬ closed (node_ids w) (edge_pairs w) → ∃ e, e ∈ edges w ∧ dangling w e.
Proof.
  intros Hc.
  destruct (decide (Exists (λ e, dangling w e) (edges w))) as [Hex|Hnex].
  - apply Exists_exists in Hex as (x & ? & ?). by exists x.
  - destruct Hc. intros s t [x [[= -> ->] Hx]]%list_elem_of_fmap.
    apply not_Exists_Forall in Hnex; [|apply _].
    pose proof (proj1 (Forall_forall _ _) Hnex x Hx) as Hd.
    unfold dangling in Hd. simpl in Hd. split.
    + destruct (decide (source_node x ∈ node_ids w)); [done|]. destruct Hd. by left.
    + destruct (decide (target_node x ∈ node_ids w)); [done|]. destruct Hd. by right.
Qed.

Lemma validate_inr_closed skill ok report :
  validate skill = inr (ok, report) →
  closed (node_ids (workflow skill)) (edge_pairs (workflow skill)).
Proof.
  intros Hrun. destruct (closed_dec (workflow skill)) as [|Hc]; [done|].
  destruct (not_closed_dangling _ Hc) as (e & He & Hd).
  destruct (topological_order_dangling _ e He Hd) as (k & _ & Hk).
  unfold validate in Hrun. by rewrite Hk in Hrun.
Qed.

Lemma topological_order_closed_cases w :
  closed (node_ids w) (edge_pairs w) →
  (∃ order, _get_topological_order w = inr order) ∨
  _get_topological_order w = inl (ValueError MsgCycle).
Proof.
  intros Hc. destruct (kahn_result_spec w Hc) as (order & Hk & _).
  unfold _get_topological_order. rewrite Hk. simpl. case_decide; eauto.
Qed.

(** The report of a run, whichever way the ordering went. *)
Lemma validate_closed skill :
  let w := workflow skill in
  closed (node_ids w) (edge_pairs w) →
  ∃ middle,
    validate skill =
      inr (bool_decide (length (duplicate_errors w ++ middle ++ _validate_node_configs w) = 0%nat),
           duplicate_errors w ++ middle ++ _validate_node_configs w) ∧
    Forall (λ e, ¬ is_edge_error e) middle ∧
    (middle = [WorkflowContainsCycles MsgCycle; CannotValidateVariables MsgCycle] ∧
       _get_topological_order w = inl (ValueError MsgCycle)
     ∨ ∃ order scopes, _get_topological_order w = inr order ∧
         _build_outputs_map skill ∅ = inr scopes ∧
         (∀ k n, order !! k = Some n →
            scopes !! n = Some (parameter_names skill ∪ outputs_of_all w (take k order))) ∧
         middle = order ≫= step_errors w scopes).
Proof.
  intros w Hc. destruct (topological_order_closed_cases w Hc) as [[order Hrun]|Hrun].
  - destruct (validate_on_order skill order Hrun) as (scopes & Hmap & Hin & Hval).
    fold w in Hval, Hin. simpl in Hval. rewrite (edge_errors_closed w Hc) in Hval.
    exists (order ≫= step_errors w scopes). split_and!; [done| |].
    + eapply Forall_impl; [apply step_errors_kind|]. simpl. tauto.
    + right. by exists order, scopes.
  - exists [WorkflowContainsCycles MsgCycle; CannotValidateVariables MsgCycle].
    split_and!; [|repeat constructor; simpl; tauto|by left].
    unfold validate, _build_outputs_map, _validate_variable_references.
    fold w. rewrite Hrun. simpl. rewrite (edge_errors_closed w Hc). simpl.
    by rewrite <- !app_assoc.
Qed.

Lemma duplicate_errors_not_edge w : Forall (λ e, ¬ is_edge_error e) (duplicate_errors w).
Proof. unfold duplicate_errors. case_match; repeat constructor; simpl; tauto. Qed.

Lemma validate_node_configs_not_edge w :
  Forall (λ e, ¬ is_edge_error e) (_validate_node_configs w).
Proof.
  eapply Forall_impl; [apply validate_node_configs_kind|].
  intros e [H _]. destruct e; simpl in *; tauto.
Qed.

(** X4.  [validate] returns a report exactly for the graphs whose edges all
    join existing nodes (duplicate ids and cycles included); on every other
    graph it raises.  A returned verdict is [True] exactly when the report is
    empty, and no returned report holds an entry of the edge check: the two
    messages about non-existent edge ends never reach the caller. *)
Theorem validate_returns_iff_closed (skill : SkillYAML) :
  let w := workflow skill in
  ((∃ ok report, validate skill = inr (ok, report)) ↔
     closed (node_ids w) (edge_pairs w)) ∧
  (∀ ok report, validate skill = inr (ok, report) →
     (ok = true ↔ report = []) ∧ edge_errors w = [] ∧
     Forall (λ e, ¬ is_edge_error e) report).
Proof.
  intros w. split.
  - split.
    + intros (ok & report & Hrun). by eapply validate_inr_closed.
    + intros Hc. destruct (validate_closed skill Hc) as (middle & Hval & _). eauto.
  - intros ok report Hrun.
    pose proof (validate_inr_closed _ _ _ Hrun) as Hc.
    destruct (validate_closed skill Hc) as (middle & Hval & Hmid & _).
    fold w in Hval. rewrite Hval in Hrun. injection Hrun as <- <-.
    split_and!.
    + rewrite bool_decide_eq_true. apply length_zero_iff_nil.
    + by apply edge_errors_closed.
    + rewrite !Forall_app. split_and!;
        [apply duplicate_errors_not_edge|done|apply validate_node_configs_not_edge].
Qed.

(** X5.  Two nodes under one id: the run reports the duplicate, and with it
    a cycle that need not exist, and it skips the variable check; the
    required-field check still runs. *)
Theorem validate_duplicate_ids (skill : SkillYAML) :
  let w := workflow skill in
  closed (node_ids w) (edge_pairs w) → ¬ NoDup (node_ids w) →
  ∃ ids,
    (∀ x, x ∈ ids ↔ (1 < occ x (node_ids w))%nat) ∧
    validate skill =
      inr (false, [DuplicateNodeIds ids; WorkflowContainsCycles MsgCycle;
                   CannotValidateVariables MsgCycle] ++ _validate_node_configs w).
Proof.
  intros w Hc Hdup.
  pose proof (duplicate_errors_cases w) as Hd.
  destruct (validate_closed skill Hc) as (middle & Hval & _ & Hmid). fold w in Hval.
  destruct Hmid as [[-> _]|(order & scopes & Hrun & _)].
  2:{ destruct Hdup. destruct (order_complete w order Hrun) as [_ <-]. apply ids_nodup. }
  destruct (duplicate_errors w) as [|[] [|]]; try done.
  destruct Hd as [_ Hd]. eexists. split; [done|]. rewrite Hval. done.
Qed.

Lemma validate_duplicate_ids_witness :
  let w := workflow Examples.twin_ids in
  closed (node_ids w) (edge_pairs w) ∧ ¬ NoDup (node_ids w) ∧
  ∃ ids,
    (∀ x, x ∈ ids ↔ (1 < occ x (node_ids w))%nat) ∧
    validate Examples.twin_ids =
      inr (false, [DuplicateNodeIds ids; WorkflowContainsCycles MsgCycle;
                   CannotValidateVariables MsgCycle] ++ _validate_node_configs w).
Proof.
  assert (closed (node_ids (workflow Examples.twin_ids))
                 (edge_pairs (workflow Examples.twin_ids))) as Hc
    by (apply closed_Forall; by_compute).
  assert (¬ NoDup (node_ids (workflow Examples.twin_ids))) as Hd by by_compute.
  split; [exact Hc|split; [exact Hd|]].
  exact (validate_duplicate_ids Examples.twin_ids Hc Hd).
Defined.

Lemma bind_nil_iff {A B} (f : A → list B) (l : list A) :
  l ≫= f = [] ↔ ∀ x, x ∈ l → f x = [].
Proof.
  induction l as [|a l IH]; csimpl.
  - split; [by intros _ x ?%elem_of_nil|done].
  - rewrite app_nil, IH. split.
    + intros [Ha Hl] x [->|Hx]%elem_of_cons; auto.
    + intros H. split; [apply H; by left|]. intros x Hx. apply H. by right.
Qed.

Lemma validate_accepts_cases (skill : SkillYAML) :
  let w := workflow skill in
  (∀ report, validate skill = inr (true, report) → report = []) ∧
  (validate skill = inr (true, []) ↔
     well_formed w ∧ acyclic (edge_pairs w) ∧
     ∃ order, get_topological_order w = inr order ∧
       ∀ k node, node ∈ nodes w → order !! k = Some (id node) →
         (∀ field, required_field node = Some field → ¬ missing field) ∧
         (∀ var, var ∈ _extract_variables node →
            var ∈ parameter_names skill ∪ outputs_of_all w (take k order))).
Proof.
  intros w.
  assert (∀ report, validate skill = inr (true, report) → report = []) as Hempty.
  { intros report Hrun.
    pose proof (validate_inr_closed _ _ _ Hrun) as Hc.
    destruct (validate_closed skill Hc) as (middle & Hval & _). fold w in Hval.
    rewrite Hval in Hrun. injection Hrun as Hok <-.
    apply bool_decide_eq_true in Hok. by apply length_zero_iff_nil. }
  split; [done|]. split.
  - intros Hrun.
    pose proof (validate_inr_closed _ _ _ Hrun) as Hc.
    destruct (validate_closed skill Hc) as (middle & Hval & _ & Hmid). fold w in Hval.
    rewrite Hval in Hrun. injection Hrun as Hok Hnil.
    apply app_nil in Hnil as [_ [Hm Hcfg]%app_nil].
    destruct Hmid as [[-> _]|(order & scopes & Hord & _ & Hin & ->)]; [done|].
    destruct (topological_order_only_for_dag_aux w order Hord) as (Hwf & Hacyc & Hperm).
    split_and!; [done..|]. exists order. split; [done|].
    intros k node Hnode Hk. split.
    + apply node_config_errors_nil.
      rewrite validate_node_configs_spec in Hcfg.
      by apply (proj1 (bind_nil_iff _ _) Hcfg).
    + assert (step_errors w scopes (id node) = []) as Hstep.
      { apply (proj1 (bind_nil_iff _ _) Hm). by eapply list_elem_of_lookup_2. }
      unfold step_errors in Hstep.
      rewrite (nodes_by_id_elem w node (proj1 Hwf) Hnode) in Hstep.
      rewrite (Hin k _ Hk) in Hstep. simpl in Hstep.
      apply node_variable_errors_nil in Hstep. intros var Hvar. by apply Hstep.
  - intros (Hwf & Hacyc & order & Hord & Hall).
    destruct (validate_on_order skill order Hord) as (scopes & Hmap & Hin & Hval).
    fold w in Hval, Hin. simpl in Hval.
    destruct (topological_order_only_for_dag_aux w order Hord) as (_ & _ & Hperm).
    assert (duplicate_errors w = []) as Hdup.
    { pose proof (duplicate_errors_cases w) as Hd.
      destruct (duplicate_errors w) as [|[] [|]]; try done.
      destruct Hd as [Hd _]. destruct Hd. apply Hwf. }
    assert (order ≫= step_errors w scopes = []) as Hsteps.
    { apply bind_nil_iff. intros n Hn.
      assert (n ∈ node_ids w) as Hn' by (by rewrite <- Hperm).
      apply list_elem_of_fmap in Hn' as [node [-> Hnode]].
      apply list_elem_of_lookup in Hn as [k Hk].
      unfold step_errors. rewrite (nodes_by_id_elem w node (proj1 Hwf) Hnode).
      rewrite (Hin k _ Hk). simpl. apply node_variable_errors_nil.
      intros var Hvar. by apply (Hall k node Hnode Hk). }
    assert (_validate_node_configs w = []) as Hcfg.
    { rewrite validate_node_configs_spec. apply bind_nil_iff. intros node Hnode.
      apply node_config_errors_nil.
      assert (id node ∈ order) as Hn.
      { rewrite Hperm. unfold node_ids; simpl. by apply list_elem_of_fmap_2. }
      apply list_elem_of_lookup in Hn as [k Hk].
      by apply (Hall k node Hnode Hk). }
    rewrite Hval, Hdup, (edge_errors_closed w (proj2 Hwf)), Hsteps, Hcfg. done.
Qed.

(** X6.  The verdict [True], for a skill whose config texts are ASCII.
    [validate] answers [(True, [])] exactly when the graph has unique ids,
    edges between existing nodes and no cycle, every node has the field its
    kind requires, and every name the pattern matches in a text of a node's
    config (a text field, or a string nested in the function parameters or
    the template) is the name of a declared parameter or an output name of a
    node placed before that node in the execution order: a name that node
    declares, or, when it declares none, the name inferred from its id.  With
    verdict [True] the report is empty and [get_topological_order], which the
    generator calls next, returns. *)
Theorem validate_accepts_iff (skill : SkillYAML) :
  let w := workflow skill in
  (∀ node s, node ∈ nodes w → config_text (config node) s → ascii_text s) →
  (∀ report, validate skill = inr (true, report) → report = []) ∧
  (validate skill = inr (true, []) ↔
     well_formed w ∧ acyclic (edge_pairs w) ∧
     ∃ order, get_topological_order w = inr order ∧
       ∀ k node, node ∈ nodes w → order !! k = Some (id node) →
         (∀ field, required_field node = Some field → ¬ missing field) ∧
         (∀ s var, config_text (config node) s → var ∈ findall s →
            var ∈ name <$> parameters skill ∨
            ∃ j earlier, (j < k)%nat ∧ earlier ∈ nodes w ∧
              order !! j = Some (id earlier) ∧
              match outputs earlier with
              | Some (o :: os) => var ∈ output_name <$> (o :: os)
              | _ => var = _infer_output_name (id earlier)
              end)).
Proof.
  intros w _.
  destruct (validate_accepts_cases skill) as [Hempty Hiff]. fold w in Hiff.
  split; [done|]. rewrite Hiff. clear Hiff Hempty.
  split; intros (Hwf & Hacyc & order & Hord & Hall);
    (split_and!; [done..|]); exists order; (split; [done|]);
    destruct (topological_order_only_for_dag_aux w order Hord) as (_ & _ & Hperm);
    intros k node Hnode Hk; destruct (Hall k node Hnode Hk) as [Hreq Hvars];
    (split; [done|]).
  - intros s var Hs Hvar.
    apply (scope_members skill order k var (proj1 Hwf) Hperm).
    apply Hvars. apply extract_variables_spec. exists s.
    split; [by apply model_dump_leaves|done].
  - intros var (s & Hs%model_dump_leaves & Hvar)%extract_variables_spec.
    apply (scope_members skill order k var (proj1 Hwf) Hperm). by eapply Hvars.
Qed.

Lemma similarity_search_ascii :
  ∀ node s, node ∈ nodes (workflow Examples.similarity_search) →
    config_text (config node) s → ascii_text s.
Proof. apply config_texts_ascii. by_compute. Qed.

Lemma validate_accepts_iff_witness :
  let skill := Examples.similarity_search in
  let w := workflow skill in
  (∀ node s, node ∈ nodes w → config_text (config node) s → ascii_text s) ∧
  validate skill = inr (true, []) ∧
  well_formed w ∧ acyclic (edge_pairs w) ∧
  ∃ order, get_topological_order w = inr order ∧
    ∀ k node, node ∈ nodes w → order !! k = Some (id node) →
      (∀ field, required_field node = Some field → ¬ missing field) ∧
      (∀ s var, config_text (config node) s → var ∈ findall s →
         var ∈ name <$> parameters skill ∨
         ∃ j earlier, (j < k)%nat ∧ earlier ∈ nodes w ∧
           order !! j = Some (id earlier) ∧
           match outputs earlier with
           | Some (o :: os) => var ∈ output_name <$> (o :: os)
           | _ => var = _infer_output_name (id earlier)
           end).
Proof.
  split; [exact similarity_search_ascii|].
  assert (validate Examples.similarity_search = inr (true, [])) as Hok
    by (by vm_compute).
  split; [exact Hok|].
  exact (proj1 (proj2 (validate_accepts_iff Examples.similarity_search
                         similarity_search_ascii)) Hok).
Defined.

(** X7.  Declaring one more input parameter never turns an accepted skill
    into a rejected one: when [validate] answers [(True, [])] for a skill, it
    gives the same answer for every skill with the same workflow whose
    parameters include those of the first. *)
Theorem validate_accepts_more_parameters (skill skill' : SkillYAML) :
  workflow skill' = workflow skill →
  parameters skill ⊆ parameters skill' →
  validate skill = inr (true, []) → validate skill' = inr (true, []).
Proof.
  intros Hw Hp Hok.
  destruct (validate_accepts_cases skill) as [_ Hiff].
  destruct (validate_accepts_cases skill') as [_ Hiff'].
  simpl in Hiff, Hiff'. rewrite Hw in Hiff'.
  apply Hiff'. apply Hiff in Hok as (Hwf & Hacyc & order & Hrun & Hall).
  split_and!; [done..|]. exists order. split; [done|].
  intros k node Hnode Hk. destruct (Hall k node Hnode Hk) as [Hreq Hvars].
  split; [done|]. intros var Hvar. specialize (Hvars var Hvar).
  apply elem_of_union in Hvars as [Hin|Hin]; apply elem_of_union; [left|by right].
  unfold parameter_names in *. rewrite elem_of_list_to_set in Hin |- *.
  apply list_elem_of_fmap in Hin as (p0 & -> & Hp0).
  apply list_elem_of_fmap_2. by apply Hp.
Qed.

Lemma validate_accepts_more_parameters_witness :
  let skill := Examples.similarity_search in
  let skill' := {| parameters := parameters skill ++
                     [{| name := "site"; param_type := "string"; required := false;
                         default := None |}];
                   workflow := workflow skill |} in
  workflow skill' = workflow skill ∧
  parameters skill ⊆ parameters skill' ∧
  validate skill = inr (true, []) ∧ validate skill' = inr (true, []).
Proof.
  assert (validate Examples.similarity_search = inr (true, [])) as Hok by (by vm_compute).
  split; [reflexivity|]. split; [intros p Hp; apply elem_of_app; by left|].
  split; [exact Hok|].
  apply (validate_accepts_more_parameters Examples.similarity_search);
    [reflexivity|intros p Hp; apply elem_of_app; by left|exact Hok].
Defined.

(** ** The verdict and the order of listing *)

Lemma nodes_by_id_perm w w' n :
  NoDup (node_ids w) → nodes w' ≡ₚ nodes w →
  nodes_by_id w' !! n = nodes_by_id w !! n.
Proof.
  intros Hnd Hperm.
  assert (node_ids w' ≡ₚ node_ids w) as Hids.
  { unfold node_ids; simpl. by rewrite Hperm. }
  assert (NoDup (node_ids w')) as Hnd' by (by rewrite Hids).
  destruct (nodes_by_id w !! n) as [node|] eqn:Hn.
  - apply nodes_by_id_Some in Hn as [Hin <-].
    apply nodes_by_id_elem; [done|]. by rewrite Hperm.
  - destruct (nodes_by_id w' !! n) as [node|] eqn:Hn'; [|done].
    assert (is_Some (nodes_by_id w !! n)) as [? ?]; [|congruence].
    apply nodes_by_id_is_Some. rewrite <- Hids. apply nodes_by_id_is_Some. by eexists.
Qed.

(** X8.  The verdict depends on the graph, not on the order of listing:
    when [validate] answers [(True, [])] for a skill, it gives the same answer
    for every skill that lists the same nodes, the same edges and the same
    parameters in another order. *)
Theorem validate_accepts_any_listing (skill skill' : SkillYAML) :
  nodes (workflow skill') ≡ₚ nodes (workflow skill) →
  edges (workflow skill') ≡ₚ edges (workflow skill) →
  parameters skill' ≡ₚ parameters skill →
  validate skill = inr (true, []) → validate skill' = inr (true, []).
Proof.
  intros Hnodes Hedges Hparams Hok.
  destruct (validate_accepts_cases skill) as [_ Hiff].
  destruct (validate_accepts_cases skill') as [_ Hiff'].
  simpl in Hiff, Hiff'.
  set (w := workflow skill) in *. set (w' := workflow skill') in *.
  apply Hiff'. apply Hiff in Hok as (Hwf & Hacyc & order & Hrun & Hall).
  assert (node_ids w' ≡ₚ node_ids w) as Hids.
  { unfold node_ids; simpl. by rewrite Hnodes. }
  assert (edge_pairs w' ≡ₚ edge_pairs w) as HE.
  { unfold edge_pairs; simpl. by rewrite Hedges. }
  assert (well_formed w') as Hwf'.
  { destruct Hwf as [Hnd Hc]. split; [by rewrite Hids|].
    intros s t. rewrite Hids, HE. apply Hc. }
  assert (acyclic (edge_pairs w')) as Hacyc'.
  { intros n Hp. apply (Hacyc n). eapply path_ext; [|done]. intros e. by rewrite HE. }
  destruct (order_of_acyclic w Hwf Hacyc) as (order0 & Hrun0 & Hnd0 & Hmem0 & Htr0).
  destruct (order_of_acyclic w' Hwf' Hacyc') as (order' & Hrun' & Hnd' & Hmem' & Htr').
  unfold get_topological_order in Hrun. rewrite Hrun in Hrun0. injection Hrun0 as <-.
  assert (order' = order) as ->.
  { eapply smallest_ready_first_unique; [| |done..|].
    - intros x. by rewrite Hids.
    - intros e. by rewrite HE.
    - apply Permutation_length, NoDup_Permutation; [done..|].
      intros x. by rewrite Hmem', Hmem0, Hids. }
  split_and!; [done..|]. exists order. split; [done|].
  intros k node Hnode Hk. rewrite Hnodes in Hnode.
  destruct (Hall k node Hnode Hk) as [Hreq Hvars].
  split; [done|]. intros var Hvar. specialize (Hvars var Hvar).
  apply elem_of_union in Hvars as [Hin|Hin]; apply elem_of_union; [left|right].
  - unfold parameter_names in *. rewrite elem_of_list_to_set in Hin |- *.
    by rewrite Hparams.
  - apply elem_of_outputs_of_all in Hin as (m & Hm & Hx).
    apply elem_of_outputs_of_all. exists m. split; [done|].
    unfold outputs_of in *. by rewrite (nodes_by_id_perm w w' m (proj1 Hwf) Hnodes).
Qed.

Lemma validate_accepts_any_listing_witness :
  let skill := Examples.similarity_search in
  let skill' := {| parameters := reverse (parameters skill);
                   workflow := {| nodes := reverse (nodes (workflow skill));
                                  edges := reverse (edges (workflow skill)) |} |} in
  nodes (workflow skill') ≡ₚ nodes (workflow skill) ∧
  edges (workflow skill') ≡ₚ edges (workflow skill) ∧
  parameters skill' ≡ₚ parameters skill ∧
  validate skill = inr (true, []) ∧ validate skill' = inr (true, []).
Proof.
  assert (validate Examples.similarity_search = inr (true, [])) as Hok by (by vm_compute).
  split; [apply reverse_Permutation|]. split; [apply reverse_Permutation|].
  split; [apply reverse_Permutation|]. split; [exact Hok|].
  apply (validate_accepts_any_listing Examples.similarity_search);
    [apply reverse_Permutation..|exact Hok].
Defined.

(** ** Required fields *)

(** X9.  The required-field check.  An entry about a missing function name,
    prompt template or component type is in the list exactly when some node of
    the matching kind has that field absent or empty; nodes of kind
    [user_approval] and the fields [model], [temperature], [function_params]
    and [template] are never the subject of an entry; the list has at most one
    entry per node. *)
Theorem validate_node_configs_entries (w : WorkflowModel) :
  (∀ n, MissingFunctionName n ∈ _validate_node_configs w ↔
     ∃ node, node ∈ nodes w ∧ id node = n ∧ type node = function_call ∧
             missing (function_name (config node))) ∧
  (∀ n, MissingPromptTemplate n ∈ _validate_node_configs w ↔
     ∃ node, node ∈ nodes w ∧ id node = n ∧ type node = llm_call ∧
             missing (prompt_template (config node))) ∧
  (∀ n, MissingComponentType n ∈ _validate_node_configs w ↔
     ∃ node, node ∈ nodes w ∧ id node = n ∧ type node = visualizer ∧
             missing (component_type (config node))) ∧
  Forall is_config_error (_validate_node_configs w) ∧
  (length (_validate_node_configs w) ≤ length (nodes w))%nat.
Proof.
  rewrite validate_node_configs_spec.
  assert (∀ node e, e ∈ node_config_errors node ↔
    (type node = function_call ∧ missing (function_name (config node)) ∧
       e = MissingFunctionName (id node)) ∨
    (type node = llm_call ∧ missing (prompt_template (config node)) ∧
       e = MissingPromptTemplate (id node)) ∨
    (type node = visualizer ∧ missing (component_type (config node)) ∧
       e = MissingComponentType (id node))) as Hnode.
  { intros node e. unfold node_config_errors.
    destruct (type node).
    4:{ rewrite elem_of_nil. naive_solver. }
    all: match goal with |- context [truthy ?o] =>
           pose proof (truthy_missing o) as Ht; destruct (truthy o) end.
    all: rewrite ?elem_of_nil, ?list_elem_of_singleton.
    all: split; [intros H|intros [H|[H|H]]]; try done.
    all: try (destruct H as (? & Hm & ?); try done; exfalso; by apply Ht in Hm).
    all: try (destruct H as (? & ? & ?); done).
    all: subst e.
    all: first [left; split_and!; [done| |done]
               |right; left; split_and!; [done| |done]
               |right; right; split_and!; [done| |done]].
    all: apply dec_stable; intros Hm; by apply Ht in Hm. }
  split_and!.
  - intros n. rewrite list_elem_of_bind. split.
    + intros (node & [(? & ? & [= ->])|[(? & ? & [=])|(? & ? & [=])]]%Hnode & Hin). eauto.
    + intros (node & Hin & Hid & ? & ?). subst n. exists node. split; [|done]. apply Hnode. auto.
  - intros n. rewrite list_elem_of_bind. split.
    + intros (node & [(? & ? & [=])|[(? & ? & [= ->])|(? & ? & [=])]]%Hnode & Hin). eauto.
    + intros (node & Hin & Hid & ? & ?). subst n. exists node. split; [|done]. apply Hnode. auto.
  - intros n. rewrite list_elem_of_bind. split.
    + intros (node & [(? & ? & [=])|[(? & ? & [=])|(? & ? & [= ->])]]%Hnode & Hin). eauto.
    + intros (node & Hin & Hid & ? & ?). subst n. exists node. split; [|done]. apply Hnode. auto 6.
  - rewrite <- validate_node_configs_spec.
    eapply Forall_impl; [apply validate_node_configs_kind|]. simpl. tauto.
  - induction (nodes w) as [|node l IH]; csimpl; [done|].
    rewrite length_app.
    assert (length (node_config_errors node) ≤ 1)%nat; [|lia].
    unfold node_config_errors. repeat case_match; simpl; lia.
Qed.

(** ** Output-name inference, applied twice *)

Lemma transforms_past verb past :
  dict_get verb transforms = Some past →
  ("_"%char ∉ chars past) ∧ dict_get past transforms = None.
Proof.
  intros H. unfold transforms in H at 1. simpl in H.
  do 4 (case_decide; [subst verb; injection H as <-; split; [by_compute|vm_compute; reflexivity]|]).
  done.
Qed.

(** X10.  Inferring the output name of an inferred name changes nothing: no
    past form of the table is itself a verb of the table.  So a node named
    after another node's inferred output shares that output name with it. *)
Theorem infer_output_name_idempotent (node_id : string) :
  _infer_output_name (_infer_output_name node_id) = _infer_output_name node_id.
Proof.
  assert (_infer_output_name node_id = node_id ∨
          ∃ verb past rest, dict_get verb transforms = Some past ∧
            _infer_output_name node_id = past +:+ String "_" rest) as [Hsame|Hcase].
  { unfold _infer_output_name.
    destruct (split "_" node_id) as [|verb [|p ps]]; [by left..|].
    destruct (dict_get verb transforms) as [past|] eqn:Hv; [|by left].
    right. by exists verb, past, (join "_" (p :: ps)). }
  { by rewrite !Hsame. }
  destruct Hcase as (verb & past & rest & Hv & ->).
  destruct (transforms_past verb past Hv) as [Hu Hnone].
  unfold _infer_output_name. rewrite (split_app "_" past _ Hu).
  destruct (split "_" rest); [done|]. by rewrite Hnone.
Qed.

(** ** What the text resolvers look up *)

(** [re.sub] calls the replacer on the names [re.findall] lists, in that
    order, and stops at the first call that raises. *)
Lemma sub_from_outcome (replacer : string → outcome string)
    (P : string → Prop) `{!∀ v, Decision (P v)} (mk : string → exn) :
  (∀ v, P v → replacer v = inl (mk v)) →
  (∀ v, ¬ P v → ∃ text, replacer v = inr text) →
  ∀ s skip,
    match head (filter P (findall_from skip s)) with
    | Some v => sub_from replacer skip s = inl (mk v)
    | None => ∃ text, sub_from replacer skip s = inr text
    end.
Proof.
  intros Hbad Hgood. induction s as [|c s IH]; intros skip.
  - destruct skip; simpl; by eexists.
  - destruct skip as [|skip]; [|apply IH]. cbn [findall_from sub_from].
    destruct (match_token (String c s)) as [[v r]|].
    + rewrite filter_cons. destruct (decide (P v)) as [Hv|Hv].
      * simpl. by rewrite (Hbad v Hv).
      * destruct (Hgood v Hv) as [text ->]. simpl.
        specialize (IH (S (S (S (String.length v))))).
        destruct (head (filter P (findall_from (S (S (S (String.length v)))) s)))
          as [v'|].
        -- by rewrite IH.
        -- destruct IH as [rest ->]. by eexists.
    + specialize (IH 0%nat). destruct (head (filter P (findall_from 0 s))) as [v'|].
      * by rewrite IH.
      * destruct IH as [rest ->]. by eexists.
Qed.

Lemma state_get_unusable state v :
  unusable state v →
  Graph.state_get v state = inl (ValueError (MsgNotFound v (dict_keys state))).
Proof.
  unfold unusable, Graph.state_get. by destruct (dict_get v state) as [[]|].
Qed.

Lemma state_get_usable state v :
  ¬ unusable state v → ∃ value, Graph.state_get v state = inr value ∧ value ≠ VNone.
Proof.
  unfold unusable, Graph.state_get. intros H.
  destruct (dict_get v state) as [[]|]; try (by destruct H);
    (eexists; split; [reflexivity|done]).
Qed.

Lemma fullmatch_findall s v : fullmatch s = Some v → head (findall s) = Some v.
Proof.
  unfold fullmatch. destruct (match_token s) as [[v' [|]]|] eqn:Hm; try done.
  intros [= ->]. destruct s as [|c s]; [done|].
  unfold findall. simpl. by rewrite Hm.
Qed.

(** X11.  On an ASCII text both text resolvers look up exactly the names that
    [re.findall] lists for the pattern, the list the validator extracts from.
    When one of them is absent from [state] or bound to [None], the resolver
    raises the error that names the first such name in the text; otherwise it
    returns.  (For a parameter that is one whole token the raw lookup applies
    instead.) *)
Theorem text_resolvers_outcome (json_dumps : bool → Any → string)
    (str : Any → string) (text : string) (state : dict Any) :
  ascii_text text →
  match head (filter (unusable state) (findall text)) with
  | Some var_name =>
      let e := ValueError (MsgNotFound var_name (dict_keys state)) in
      Graph._resolve_template json_dumps str text state = inl e ∧
      (fullmatch text = None → Graph._resolve_param_variable str text state = inl e)
  | None =>
      (∃ resolved, Graph._resolve_template json_dumps str text state = inr resolved) ∧
      (∃ resolved, Graph._resolve_param_variable str text state = inr resolved)
  end.
Proof.
  intros _.
  pose proof (sub_from_outcome (Graph.template_replacer json_dumps str state)
                (unusable state)
                (λ v, ValueError (MsgNotFound v (dict_keys state)))) as Ht.
  pose proof (sub_from_outcome (Graph.param_replacer str state)
                (unusable state)
                (λ v, ValueError (MsgNotFound v (dict_keys state)))) as Hp.
  specialize (Ht ltac:(intros v Hv; unfold Graph.template_replacer;
                       by rewrite (state_get_unusable state v Hv))).
  specialize (Ht ltac:(intros v Hv; unfold Graph.template_replacer;
                       destruct (state_get_usable state v Hv) as (value & -> & _);
                       by eexists)).
  specialize (Hp ltac:(intros v Hv; unfold Graph.param_replacer;
                       by rewrite (state_get_unusable state v Hv))).
  specialize (Hp ltac:(intros v Hv; unfold Graph.param_replacer;
                       destruct (state_get_usable state v Hv) as (value & -> & _);
                       by eexists)).
  specialize (Ht text 0%nat). specialize (Hp text 0%nat).
  fold (findall text) in Ht, Hp.
  unfold Graph._resolve_template, Graph._resolve_param_variable, Py.sub.
  destruct (head (filter (unusable state) (findall text))) as [v|] eqn:Hhead.
  - split; [done|]. intros ->. simpl. by rewrite Hp.
  - split; [done|].
    destruct (fullmatch text) as [v|] eqn:Hfull.
    + apply fullmatch_findall in Hfull.
      destruct (findall text) as [|v' l]; [done|]. injection Hfull as ->.
      rewrite filter_cons in Hhead.
      destruct (decide (unusable state v)) as [|Hv]; [done|].
      unfold unusable in Hv.
      destruct (dict_get v state) as [value|] eqn:Hget; [by eexists|done].
    + destruct Hp as [resolved ->]. by eexists.
Qed.

Lemma text_resolvers_outcome_witness :
  let text := "Order {{order_id}} for {{asset}} at {{site}}" in
  let state := [("order_id", VInt 7); ("asset", VNone)] in
  let e := ValueError (MsgNotFound "asset" ["order_id"; "asset"]) in
  ascii_text text ∧
  Graph._resolve_template (λ _ _, "7") (λ _, "7") text state = inl e ∧
  (fullmatch text = None →
   Graph._resolve_param_variable (λ _, "7") text state = inl e).
Proof.
  assert (ascii_text "Order {{order_id}} for {{asset}} at {{site}}") as Hascii
    by by_compute.
  split; [exact Hascii|].
  exact (text_resolvers_outcome (λ _ _, "7") (λ _, "7")
           "Order {{order_id}} for {{asset}} at {{site}}"
           [("order_id", VInt 7); ("asset", VNone)] Hascii).
Defined.

(** X12.  An ASCII text in which the pattern matches nowhere (no placeholder,
    or only malformed ones) passes through both resolvers unchanged whatever
    the state holds, and the validator's extraction finds no name in it. *)
Theorem text_without_token_unchanged (json_dumps : bool → Any → string)
    (str : Any → string) (text : string) (state : dict Any) :
  ascii_text text → findall text = [] →
  Graph._resolve_template json_dumps str text state = inr text ∧
  Graph._resolve_param_variable str text state = inr (VStr text) ∧
  _search_dict_for_variables (VStr text) ∅ = ∅.
Proof.
  intros _ Hnone. split_and!.
  - unfold Graph._resolve_template, Py.sub. by rewrite sub_no_match.
  - unfold Graph._resolve_param_variable.
    destruct (fullmatch text) as [v|] eqn:Hfull.
    + apply fullmatch_findall in Hfull. by rewrite Hnone in Hfull.
    + unfold Py.sub. by rewrite sub_no_match.
  - simpl. rewrite Hnone. set_solver.
Qed.

Lemma text_without_token_unchanged_witness :
  let text := "{{a-b}} costs {{ }} or {x}" in
  ascii_text text ∧ findall text = [] ∧
  Graph._resolve_template (λ _ _, EmptyString) (λ _, EmptyString) text [] = inr text ∧
  Graph._resolve_param_variable (λ _, EmptyString) text [] = inr (VStr text) ∧
  _search_dict_for_variables (VStr text) ∅ = ∅.
Proof.
  assert (ascii_text "{{a-b}} costs {{ }} or {x}") as Hascii by by_compute.
  split; [exact Hascii|]. split; [reflexivity|].
  apply (text_without_token_unchanged (λ _ _, EmptyString) (λ _, EmptyString)).
  - exact Hascii.
  - reflexivity.
Defined.

(** X13.  A variable stored as [None].  As a whole-token parameter it resolves
    to [None]; inside a longer text, and in the template resolver even as the
    whole text, it raises the error that says the variable was not found,
    while the list of available names in that very error contains it. *)
Theorem none_valued_variable (json_dumps : bool → Any → string)
    (str : Any → string) (state : dict Any) (var_name : string) (c : ascii) :
  is_name var_name → dict_get var_name state = Some VNone →
  let e := ValueError (MsgNotFound var_name (dict_keys state)) in
  Graph._resolve_param_variable str (token var_name) state = inr VNone ∧
  Graph._resolve_param_variable str (String c (token var_name)) state = inl e ∧
  Graph._resolve_template json_dumps str (token var_name) state = inl e ∧
  var_name ∈ dict_keys state.
Proof.
  intros Hname Hget e.
  assert (match_token (String c (token var_name)) = None) as Hc.
  { rewrite <- (append_nil_r (token var_name)), token_unfold.
    unfold match_token. destruct (decide (c = "{"%char)) as [->|Hne].
    - simpl. done.
    - destruct c as [[] [] [] [] [] [] [] []]; try done. }
  assert (∀ r, sub_from r 0 (token var_name) = text ← r var_name; mret (text +:+ EmptyString)) as Hsub.
  { intros r. rewrite <- (append_nil_r (token var_name)) at 1.
    rewrite sub_from_token by done. destruct (r var_name); done. }
  split_and!.
  - rewrite resolve_param_variable_token by done. by rewrite Hget.
  - unfold Graph._resolve_param_variable, fullmatch. rewrite Hc.
    unfold Py.sub. rewrite sub_from_cons by done. rewrite Hsub.
    unfold Graph.param_replacer, Graph.state_get. by rewrite Hget.
  - unfold Graph._resolve_template, Py.sub. rewrite Hsub.
    unfold Graph.template_replacer, Graph.state_get. by rewrite Hget.
  - apply dict_get_is_Some. by eexists.
Qed.

Lemma none_valued_variable_witness :
  let state := [("note", VNone)] in
  let e := ValueError (MsgNotFound "note" (dict_keys state)) in
  is_name "note" ∧ dict_get "note" state = Some VNone ∧
  Graph._resolve_param_variable (λ _, EmptyString) (token "note") state = inr VNone ∧
  Graph._resolve_param_variable (λ _, EmptyString) (String "#" (token "note")) state = inl e ∧
  Graph._resolve_template (λ _ _, EmptyString) (λ _, EmptyString) (token "note") state = inl e ∧
  "note" ∈ dict_keys state.
Proof.
  assert (is_name "note") as Hn by (split; [done|by_compute]).
  split; [exact Hn|]. split; [reflexivity|].
  exact (none_valued_variable (λ _ _, EmptyString) (λ _, EmptyString)
           [("note", VNone)] "note" "#"%char Hn eq_refl).
Defined.

(** ** The escaping chain *)

Lemma escape_each_spec s : Graph.escape s = escape_each s.
Proof. induction s as [|c s IH]; [done|]. by rewrite escape_cons, IH. Qed.

Lemma escape_char_head c :
  (c = backslash ∨ c = dquote ∨ c = newline ∨ c = carriage_return ∨ c = tab) ∧
    (∃ d, escape_char c = String backslash (String d EmptyString) ∧
          Json.unescape d = Some c)
  ∨ (c ≠ backslash ∧ escape_char c = String c EmptyString).
Proof.
  unfold escape_char.
  destruct (decide (c = backslash)) as [->|H1]; [left; split; [tauto|by eexists]|].
  destruct (decide (c = dquote)) as [->|H2]; [left; split; [tauto|by eexists]|].
  destruct (decide (c = newline)) as [->|H3]; [left; split; [tauto|by eexists]|].
  destruct (decide (c = carriage_return)) as [->|H4]; [left; split; [tauto|by eexists]|].
  destruct (decide (c = tab)) as [->|H5]; [left; split; [tauto|by eexists]|].
  by right.
Qed.

(** X14.  The chain of five replacements is one pass over the text: each
    character is rewritten on its own (a backslash written for a quote or a
    newline is not escaped again), the escaping of a concatenation is the
    concatenation of the escapings, and two different texts never get the
    same escaped form. *)
Theorem escape_single_pass :
  (∀ s, Graph.escape s = escape_each s) ∧
  (∀ a b, Graph.escape (a +:+ b) = Graph.escape a +:+ Graph.escape b) ∧
  (∀ a b, Graph.escape a = Graph.escape b → a = b).
Proof.
  split_and!.
  - apply escape_each_spec.
  - intros a b. unfold Graph.escape. by rewrite !replace_app.
  - intros a b. rewrite !escape_each_spec. revert b.
    induction a as [|c a IH]; intros b Hab.
    + destruct b as [|d b]; [done|]. simpl in Hab.
      destruct (escape_char_head d) as [[_ (x & Hx & _)]|[_ Hx]];
        rewrite Hx in Hab; done.
    + destruct b as [|d b]; simpl in Hab.
      { destruct (escape_char_head c) as [[_ (x & Hx & _)]|[_ Hx]];
          rewrite Hx in Hab; done. }
      destruct (escape_char_head c) as [[_ (x & Hx & Hux)]|[Hc Hx]];
        destruct (escape_char_head d) as [[_ (y & Hy & Huy)]|[Hd Hy]];
        rewrite Hx, Hy in Hab; rewrite ?append_cons, ?append_nil_l in Hab.
      * injection Hab as -> Hab. f_equal; [congruence|by apply IH].
      * injection Hab as <- Hab. done.
      * injection Hab as -> Hab. done.
      * injection Hab as -> Hab. f_equal. by apply IH.
Qed.

(** ** A field of a card, resolved and read back *)

(** X15.  The visualizer's round trip on a card with one field.  When the
    variable holds a text of characters from the space upwards, newlines,
    carriage returns and tabs, resolving the dumped card writes the escaped
    text between the field's quotes, and reading the result back as JSON
    gives the field with the stored text. *)
Theorem card_field_roundtrip (json_dumps : bool → Any → string)
    (str : Any → string) (state : dict Any) (var_name s : string) :
  is_name var_name → dict_get var_name state = Some (VStr s) →
  Forall json_safe (chars s) →
  Graph._resolve_template json_dumps str
    (Json.field_document "data" (token var_name)) state =
    inr (Json.field_document "data" (Graph.escape s)) ∧
  Json.loads_field (Json.field_document "data" (Graph.escape s)) = Some ("data", s).
Proof.
  intros Hname Hget Hsafe. split.
  - unfold Graph._resolve_template, Py.sub.
    rewrite !field_document_unfold.
    change (String "{" (String dquote ("data" +:+ ?r)))
      with (String "{" (String dquote (String "d" (String "a" (String "t" (String "a" r)))))).
    rewrite !sub_from_cons by done.
    rewrite sub_from_token by done.
    rewrite !sub_from_cons by done.
    unfold Graph.template_replacer, Graph.state_get. rewrite Hget. simpl.
    done.
  - change "data" with (Graph.escape "data") at 1.
    apply loads_field_document; [by_compute|done].
Qed.

Lemma card_field_roundtrip_witness :
  let state := [("limit", VInt 10); ("summary", VStr "two lines")] in
  is_name "summary" ∧ dict_get "summary" state = Some (VStr "two lines") ∧
  Forall json_safe (chars "two lines") ∧
  Graph._resolve_template (λ _ _, EmptyString) (λ _, EmptyString)
    (Json.field_document "data" (token "summary")) state =
    inr (Json.field_document "data" (Graph.escape "two lines")) ∧
  Json.loads_field (Json.field_document "data" (Graph.escape "two lines")) =
    Some ("data", "two lines").
Proof.
  assert (is_name "summary") as Hn by (split; [done|by_compute]).
  assert (Forall json_safe (chars "two lines")) as Hs by by_compute.
  split; [exact Hn|]. split; [reflexivity|]. split; [exact Hs|].
  exact (card_field_roundtrip (λ _ _, EmptyString) (λ _, EmptyString)
           [("limit", VInt 10); ("summary", VStr "two lines")] "summary" "two lines"
           Hn eq_refl Hs).
Defined.

(** ** The node methods *)

Lemma sub_from_plain replacer pre rest :
  "{"%char ∉ chars pre →
  sub_from replacer 0 (pre +:+ rest) =
  rest' ← sub_from replacer 0 rest; mret (pre +:+ rest').
Proof.
  induction pre as [|c pre IH]; intros Hpre.
  - rewrite append_nil_l. by destruct (sub_from replacer 0 rest).
  - rewrite append_cons. rewrite sub_from_cons.
    + rewrite IH by (intros Hin; apply Hpre; by right).
      destruct (sub_from replacer 0 rest); done.
    + unfold match_token. destruct (decide (c = "{"%char)) as [->|Hne].
      * destruct Hpre. by left.
      * destruct c as [[] [] [] [] [] [] [] []]; try done.
Qed.

Section pipeline.

Variable json_dumps : bool → Any → string.
Variable str : Any → string.
Variable call_function llm_call : string → dict Any → outcome Any.

(** X16.  The search step.  It needs [embedding] and [limit] in the state: if
    one of them is not a key it raises the error naming the first missing one
    and calls nothing.  Otherwise the mock function receives the two stored
    values as they are (the limit as the number, not as its text) and its
    result is stored under [similar_workorders]. *)
Theorem node_vector_search_spec (state : dict Any) :
  Pipeline._node_vector_search str call_function state =
  match dict_get "embedding" state, dict_get "limit" state with
  | Some embedding, Some limit =>
      result ← call_function "VectorSearchWorkOrders"
                 [("embedding", embedding); ("limit", limit)];
      mret (dict_set "similar_workorders" result state)
  | None, _ => inl (ValueError (MsgNotFound "embedding" (dict_keys state)))
  | Some _, None => inl (ValueError (MsgNotFound "limit" (dict_keys state)))
  end.
Proof.
  unfold Pipeline._node_vector_search, Graph._resolve_params.
  cbn [Graph.resolve_entries Graph.resolve_entry].
  change (contains "{{" "{{embedding}}") with true.
  change (contains "{{" "{{limit}}") with true.
  change "{{embedding}}" with (token "embedding").
  change "{{limit}}" with (token "limit").
  rewrite !resolve_param_variable_token by (split; [done|by_compute]).
  destruct (dict_get "embedding" state) as [e|]; [|done].
  destruct (dict_get "limit" state) as [l|]; done.
Qed.

(** X17.  The prompt of the summarising step is built by the resolver that
    escapes for JSON.  The description and the enriched results reach the
    model escaped: a double quote or a backslash in them gets a backslash in
    front, a newline, carriage return or tab becomes a backslash and a
    letter.  The step fails, without calling the model, when one of the two
    is absent or [None]. *)
Theorem node_summarize_findings_prompt (state : dict Any) (description results : Any) :
  dict_get "workorder_description" state = Some description → description ≠ VNone →
  dict_get "enriched_results" state = Some results → results ≠ VNone →
  Pipeline._node_summarize_findings json_dumps str llm_call state =
  result ← llm_call
    (Pipeline.prompt_head +:+ Graph.escape (rendered json_dumps str description)
      +:+ Pipeline.prompt_middle +:+ Graph.escape (rendered json_dumps str results)
      +:+ Pipeline.prompt_tail)
    [("model", VStr "claude-sonnet-4-5"); ("temperature", VFloat "0.3")];
  mret (dict_set "summarized_findings" result state).
Proof.
  intros Hd Hdn Hr Hrn.
  assert (∀ v value, dict_get v state = Some value → value ≠ VNone →
            Graph.template_replacer json_dumps str state v
            = inr (Graph.escape (rendered json_dumps str value))) as Hrep.
  { intros v value Hv Hne. unfold Graph.template_replacer, Graph.state_get.
    rewrite Hv. by destruct value. }
  unfold Pipeline._node_summarize_findings. f_equal.
  unfold Graph._resolve_template, Py.sub, Pipeline.prompt_template.
  change "{{workorder_description}}" with (token "workorder_description").
  change "{{enriched_results}}" with (token "enriched_results").
  rewrite sub_from_plain by by_compute.
  rewrite sub_from_token by (split; [done|by_compute]).
  rewrite (Hrep _ _ Hd Hdn).
  rewrite sub_from_plain by by_compute.
  rewrite sub_from_token by (split; [done|by_compute]).
  rewrite (Hrep _ _ Hr Hrn).
  rewrite (sub_no_match _ Pipeline.prompt_tail 0) by reflexivity.
  cbn [mbind outcome_bind mret outcome_ret drop_chars]. done.
Qed.

End pipeline.

Lemma node_summarize_findings_prompt_witness :
  let state := [("workorder_description", VStr "pump leaking");
                ("enriched_results", VList [VInt 7])] in
  let llm_call := λ (_ : string) (_ : dict Any), inr (VStr "summary") : outcome Any in
  let json_dumps := λ (_ : bool) (_ : Any), "[7]" in
  let str := λ _ : Any, EmptyString in
  dict_get "workorder_description" state = Some (VStr "pump leaking") ∧
  VStr "pump leaking" ≠ VNone ∧
  dict_get "enriched_results" state = Some (VList [VInt 7]) ∧
  VList [VInt 7] ≠ VNone ∧
  Pipeline._node_summarize_findings json_dumps str llm_call state =
  result ← llm_call
    (Pipeline.prompt_head +:+ Graph.escape (rendered json_dumps str (VStr "pump leaking"))
      +:+ Pipeline.prompt_middle +:+ Graph.escape (rendered json_dumps str (VList [VInt 7]))
      +:+ Pipeline.prompt_tail)
    [("model", VStr "claude-sonnet-4-5"); ("temperature", VFloat "0.3")];
  mret (dict_set "summarized_findings" result state).
Proof.
  split; [reflexivity|]. split; [done|]. split; [reflexivity|]. split; [done|].
  apply (node_summarize_findings_prompt (λ _ _, "[7]") (λ _, EmptyString)
           (λ _ _, inr (VStr "summary"))
           [("workorder_description", VStr "pump leaking");
            ("enriched_results", VList [VInt 7])]
           (VStr "pump leaking") (VList [VInt 7])); done.
Defined.

(** The prompt for a description with a quoted word: the quotes arrive with
    backslashes. *)
Example summarize_prompt_escapes_quotes :
  Graph._resolve_template (λ _ _, EmptyString) (λ _, EmptyString)
    Pipeline.prompt_template
    [("workorder_description", VStr (String dquote ("hot" +:+ String dquote " pump")));
     ("enriched_results", VStr "none")] =
  inr (Pipeline.prompt_head
       +:+ String backslash (String dquote ("hot" +:+ String backslash (String dquote " pump")))
       +:+ Pipeline.prompt_middle +:+ "none" +:+ Pipeline.prompt_tail).
Proof. by vm_compute. Qed.

(** ** Running the pipeline *)

Lemma dict_get_app_fresh {V} (d1 d2 : dict V) k v :
  k ∉ dict_keys d1 → dict_get k (d1 ++ (k, v) :: d2) = Some v.
Proof.
  induction d1 as [|[k' v'] d1 IH]; intros Hk; simpl.
  - by rewrite decide_True.
  - rewrite decide_False by (intros ->; apply Hk; by left).
    apply IH. intros Hin. apply Hk. by right.
Qed.

Lemma copy_inputs_spec (d2 : dict Any) : ∀ d1,
  NoDup (dict_keys (d1 ++ d2)) →
  Pipeline.copy_inputs (dict_keys d2) (d1 ++ d2) d1 = inr (d1 ++ d2).
Proof.
  induction d2 as [|[k v] d2 IH]; intros d1 Hnd; simpl.
  - by rewrite app_nil_r.
  - unfold dict_keys in Hnd. rewrite fmap_app in Hnd. simpl in Hnd.
    pose proof Hnd as Hnd'.
    apply NoDup_app in Hnd' as (_ & Hdis & _).
    assert (k ∉ dict_keys d1) as Hk.
    { intros Hin. apply (Hdis k Hin). by left. }
    unfold dict_item. rewrite dict_get_app_fresh by done. simpl.
    rewrite dict_set_fresh by done.
    replace (d1 ++ (k, v) :: d2) with ((d1 ++ [(k, v)]) ++ d2) by (by rewrite <- app_assoc).
    apply IH. unfold dict_keys. rewrite <- app_assoc, fmap_app. done.
Qed.

(** X18.  [execute] checks one thing before it runs the graph: that
    [workorder_description] is a key of the inputs.  If it is not, the call
    raises the missing-input error and the graph is not run.  Otherwise the
    graph is invoked on a state equal to the inputs, key for key: no default
    is filled in for an input that was left out, and inputs that no parameter
    declares are passed along. *)
Theorem execute_spec (invoke : dict Any → outcome (dict Any)) (inputs : dict Any) :
  NoDup (dict_keys inputs) →
  Pipeline.execute invoke inputs =
  if decide ("workorder_description" ∈ dict_keys inputs)
  then match invoke inputs with
       | inl e => inl (Pipeline.Raised e)
       | inr final_state => inr final_state
       end
  else inl (Pipeline.MissingRequiredInput "workorder_description").
Proof.
  intros Hnd. unfold Pipeline.execute. rewrite filter_cons, filter_nil.
  destruct (decide ("workorder_description" ∈ dict_keys inputs)) as [Hin|Hout].
  - rewrite decide_False by tauto.
    pose proof (copy_inputs_spec inputs [] Hnd) as Hcopy. simpl in Hcopy.
    rewrite Hcopy. done.
  - by rewrite decide_True.
Qed.

Lemma execute_spec_witness :
  let inputs := [("limit", VInt 10)] in
  let invoke := λ state : dict Any, inr state : outcome (dict Any) in
  NoDup (dict_keys inputs) ∧
  Pipeline.execute invoke inputs =
  if decide ("workorder_description" ∈ dict_keys inputs)
  then match invoke inputs with
       | inl e => inl (Pipeline.Raised e)
       | inr final_state => inr final_state
       end
  else inl (Pipeline.MissingRequiredInput "workorder_description").
Proof.
  assert (NoDup (dict_keys [("limit", VInt 10)])) as Hnd by by_compute.
  split; [exact Hnd|].
  exact (execute_spec (λ state, inr state) [("limit", VInt 10)] Hnd).
Defined.

(** ** The generator: class name *)

Lemma split_parts sep s part c :
  part ∈ split sep s → c ∈ chars part → c ∈ chars s ∧ c ≠ sep.
Proof.
  revert part. induction s as [|a s IH]; intros part Hpart Hc; simpl in Hpart.
  - apply list_elem_of_singleton in Hpart as ->. by apply elem_of_nil in Hc.
  - case_decide as Ha.
    + apply elem_of_cons in Hpart as [->|Hpart]; [by apply elem_of_nil in Hc|].
      destruct (IH part Hpart Hc). split; [by right|done].
    + pose proof (split_nonempty sep s) as Hne.
      destruct (split sep s) as [|p ps]; [done|].
      apply elem_of_cons in Hpart as [->|Hpart].
      * apply elem_of_cons in Hc as [->|Hc]; [split; [by left|done]|].
        destruct (IH p) as [? ?]; [by left|done|]. split; [by right|done].
      * destruct (IH part) as [? ?]; [by right|done|]. split; [by right|done].
Qed.

Lemma chars_append a b : chars (a +:+ b) = chars a ++ chars b.
Proof. induction a as [|c a IH]; [done|]. rewrite append_cons. simpl. by rewrite IH. Qed.

Lemma chars_join_empty parts c :
  c ∈ chars (join EmptyString parts) → ∃ part, part ∈ parts ∧ c ∈ chars part.
Proof.
  induction parts as [|p [|q ps] IH]; simpl; intros Hc.
  - by apply elem_of_nil in Hc.
  - exists p. split; [by left|done].
  - rewrite !chars_append in Hc. simpl in Hc.
    apply elem_of_app in Hc as [Hc|Hc]; [exists p; split; [by left|done]|].
    destruct (IH Hc) as (part & Hpart & Hin). exists part. split; [by right|done].
Qed.

Lemma upper_alnum c :
  is_lower c ∨ is_digit c →
  is_upper (Generator.upper c) ∨ is_digit (Generator.upper c).
Proof.
  unfold Generator.upper, is_lower, is_upper, is_digit. intros H.
  case_bool_decide as Hc.
  - left. rewrite nat_ascii_embedding; lia.
  - right. lia.
Qed.

Lemma lower_alnum c :
  is_lower c ∨ is_digit c →
  is_lower (Generator.lower c) ∨ is_digit (Generator.lower c).
Proof.
  unfold Generator.lower, is_lower, is_digit. intros H.
  case_bool_decide as Hc; [lia|done].
Qed.

Lemma chars_lower_all s c :
  c ∈ chars (Generator.lower_all s) → ∃ d, d ∈ chars s ∧ c = Generator.lower d.
Proof.
  induction s as [|a s IH]; simpl; intros Hc; [by apply elem_of_nil in Hc|].
  apply elem_of_cons in Hc as [->|Hc].
  - exists a. split; [by left|done].
  - destruct (IH Hc) as (d & Hd & ->). exists d. split; [by right|done].
Qed.

Lemma capitalize_alnum part :
  Forall (λ c, is_lower c ∨ is_digit c) (chars part) →
  Forall is_alnum (chars (Generator.capitalize part)).
Proof.
  intros Hpart. destruct part as [|a part]; [constructor|]. simpl.
  apply Forall_cons in Hpart as [Ha Hpart]. constructor.
  - unfold is_alnum. destruct (upper_alnum a Ha); tauto.
  - apply Forall_forall. intros c (d & Hd & ->)%chars_lower_all.
    unfold is_alnum.
    destruct (lower_alnum d (proj1 (Forall_forall _ _) Hpart d Hd)); tauto.
Qed.

(** X19.  For an id in snake case the class name is an identifier: an
    upper-case letter followed by letters and digits only, the last eight of
    them spelling [Workflow]; no underscore is left. *)
Theorem class_name_identifier (metadata_id : string) :
  snake_case metadata_id →
  ∃ c stem,
    Generator._get_class_name metadata_id = String c stem +:+ "Workflow" ∧
    is_upper c ∧ Forall is_alnum (chars stem) ∧
    Forall is_alnum (chars (Generator._get_class_name metadata_id)).
Proof.
  intros [Hfirst Hall]. unfold Generator._get_class_name.
  assert (Forall is_alnum (chars (join EmptyString
            (Generator.capitalize <$> split "_" metadata_id)))) as Hstem.
  { apply Forall_forall. intros c (part & Hpart & Hc)%chars_join_empty.
    apply list_elem_of_fmap in Hpart as (p & -> & Hp).
    revert c Hc. apply Forall_forall, capitalize_alnum, Forall_forall.
    intros c Hc. destruct (split_parts _ _ _ _ Hp Hc) as [Hin Hne].
    pose proof (proj1 (Forall_forall _ _) Hall c Hin) as Hc'. simpl in Hc'.
    destruct Hc' as [?|[?|?]]; [by left|by right|done]. }
  destruct metadata_id as [|a s]; [done|].
  assert (a ≠ "_"%char) as Ha by (intros ->; unfold is_lower in Hfirst;
                                  change (nat_of_ascii "_") with 95%nat in Hfirst; lia).
  assert (∃ stem, join EmptyString (Generator.capitalize <$> split "_" (String a s))
                  = String (Generator.upper a) stem) as [stem Heq].
  { simpl. rewrite decide_False by done.
    pose proof (split_nonempty "_" s) as Hne.
    destruct (split "_" s) as [|p [|q ps]]; [done|by eexists|].
    csimpl. rewrite append_cons. by eexists. }
  rewrite Heq in Hstem |- *. exists (Generator.upper a), stem.
  apply Forall_cons in Hstem as [_ Hstem].
  split_and!; [done| |done|].
  - destruct (upper_alnum a) as [|Hd]; [by left|done|].
    unfold Generator.upper, is_lower, is_digit in *. case_bool_decide; [|lia].
    rewrite nat_ascii_embedding in Hd; lia.
  - rewrite append_cons. simpl. constructor.
    + unfold is_alnum. destruct (upper_alnum a); [by left|tauto..].
    + rewrite chars_append. apply Forall_app. split; [done|]. by_compute.
Qed.

Lemma class_name_identifier_witness :
  snake_case "workorder_similarity_search" ∧
  ∃ c stem,
    Generator._get_class_name "workorder_similarity_search" = String c stem +:+ "Workflow" ∧
    is_upper c ∧ Forall is_alnum (chars stem) ∧
    Forall is_alnum (chars (Generator._get_class_name "workorder_similarity_search")).
Proof.
  assert (snake_case "workorder_similarity_search") as H by (split; by_compute).
  split; [exact H|]. exact (class_name_identifier _ H).
Defined.

(** The class of the generated [graph.py]. *)
Example similarity_search_class_name :
  Generator._get_class_name "workorder_similarity_search" =
  "WorkorderSimilaritySearchWorkflow".
Proof. reflexivity. Qed.

(** ** The generator: functions to mock *)

Lemma extract_function_names_spec skill f :
  f ∈ Generator._extract_function_names skill ↔
  ∃ node, node ∈ nodes (workflow skill) ∧ type node = function_call ∧
          function_name (config node) = Some f ∧ f ≠ EmptyString ∧
          String.prefix "/api/" f = false.
Proof.
  unfold Generator._extract_function_names.
  set (step := λ (functions : gset string) node, _).
  assert (∀ l (X : gset string), f ∈ foldl step X l ↔
            f ∈ X ∨ ∃ node, node ∈ l ∧ type node = function_call ∧
              function_name (config node) = Some f ∧ f ≠ EmptyString ∧
              String.prefix "/api/" f = false) as H.
  { induction l as [|a l IH]; intros X; simpl.
    - split; [by left|]. intros [?|(node & ?%elem_of_nil & _)]; done.
    - rewrite IH. unfold step. split.
      + intros [Hf|(node & Hin & Hrest)].
        * destruct (type a) eqn:Ht; try by left.
          destruct (function_name (config a)) as [g|] eqn:Hg; [|by left].
          destruct g as [|c g]; [by left|]. cbn [truthy andb] in Hf.
          destruct (String.prefix "/api/" (String c g)) eqn:Hp; cbn [negb] in Hf;
            [by left|].
          apply elem_of_union in Hf as [?|Hf]; [by left|].
          apply elem_of_singleton in Hf. subst f.
          right. exists a. split_and!; [by left|done..].
        * right. exists node. split; [by right|done].
      + intros [Hf|(node & [->|Hin]%elem_of_cons & Ht & Hg & Hne & Hp)].
        * left. destruct (type a); try done.
          destruct (function_name (config a)) as [g|]; [|done].
          case_match; [|done]. set_solver.
        * left. rewrite Ht, Hg. destruct f as [|c f]; [done|]. cbn [truthy andb].
          rewrite Hp. cbn [negb]. set_solver.
        * right. by exists node. }
  rewrite H. split; [intros [?%elem_of_empty|?]; done|by right].
Qed.

(** X20.  The functions for which mocks are generated: a name is listed
    exactly when some [function_call] node carries it as a non-empty function
    name that does not start with [/api/]; the list is in ascending order and
    holds no name twice, however many nodes call the function. *)
Theorem mock_function_names_spec (skill : SkillYAML) :
  (∀ f, f ∈ Generator.mock_function_names skill ↔
     ∃ node, node ∈ nodes (workflow skill) ∧ type node = function_call ∧
             function_name (config node) = Some f ∧ f ≠ EmptyString ∧
             String.prefix "/api/" f = false) ∧
  StronglySorted String.le (Generator.mock_function_names skill) ∧
  NoDup (Generator.mock_function_names skill).
Proof.
  unfold Generator.mock_function_names, Py.sort. split_and!.
  - intros f. rewrite merge_sort_Permutation, elem_of_elements.
    apply extract_function_names_spec.
  - apply StronglySorted_merge_sort; apply _.
  - rewrite merge_sort_Permutation. apply NoDup_elements.
Qed.

(** The mocks of the sample pipeline: the embedding call goes to an [/api/]
    endpoint and gets none. *)
Example similarity_search_mocks :
  Generator.mock_function_names Examples.similarity_search =
  ["MxFetchWorkOrderDetails"; "VectorSearchWorkOrders"].
Proof. by vm_compute. Qed.

(** ** The generator: example inputs *)

Lemma join_elem sep (l : list string) x :
  x ∈ l → ∃ pre post, join sep l = pre +:+ x +:+ post.
Proof.
  induction l as [|a [|b l] IH]; intros Hx.
  - by apply elem_of_nil in Hx.
  - apply list_elem_of_singleton in Hx as ->. exists EmptyString, EmptyString.
    simpl. by rewrite append_nil_r.
  - apply elem_of_cons in Hx as [->|Hx].
    + exists EmptyString, (sep +:+ join sep (b :: l)). done.
    + destruct (IH Hx) as (pre & post & Heq).
      exists (a +:+ sep +:+ pre), post.
      change (join sep (a :: b :: l)) with (a +:+ sep +:+ join sep (b :: l)).
      by rewrite Heq, !append_assoc.
Qed.

(** X21.  A parameter whose default is absent or counts as false in Python
    (zero, [False], an empty text, list or mapping).  The README example
    shows the quoted placeholder [example_<name>] for it, whatever its type;
    the example inputs prepared for the generated [main] keep a default that
    is not [None], and for an absent default give a value chosen by the
    declared type.  The two examples of one skill thus differ. *)
Theorem falsy_default_examples (str : Any → string) (skill : SkillYAML)
    (param : ParameterModel) :
  param ∈ parameters skill →
  Generator.py_bool (Generator.default_value param) = false →
  (∃ pre post,
     Generator._format_input_example str skill =
     pre +:+ ("    " +:+ Json.quoted (name param) +:+ ": "
              +:+ Json.quoted ("example_" +:+ name param)) +:+ post) ∧
  (∃ q, q ∈ Generator._prepare_input_params skill ∧
        Generator.ip_name q = name param ∧
        Generator.example_value q =
          match Generator.default_value param with
          | VNone =>
              if decide (param_type param = "string")
              then VStr ("example_" +:+ name param)
              else if decide (param_type param = "integer") then VInt 10
              else if decide (param_type param = "boolean") then VBool true
              else VNone
          | d => d
          end).
Proof.
  intros Hin Hfalse. split.
  - apply join_elem, list_elem_of_fmap. exists param. split; [|done].
    unfold Generator.format_input_line. rewrite Hfalse. done.
  - exists (Generator.prepare_input_param param). split_and!; [|done|].
    + unfold Generator._prepare_input_params. by apply list_elem_of_fmap_2.
    + unfold Generator.prepare_input_param. simpl.
      by destruct (Generator.default_value param).
Qed.

Lemma falsy_default_examples_witness :
  let skill := Examples.zero_default in
  let param := {| name := "offset"; param_type := "integer"; required := false;
                  default := Some (VInt 0) |} in
  param ∈ parameters skill ∧
  Generator.py_bool (Generator.default_value param) = false ∧
  (∃ pre post,
     Generator._format_input_example (λ _, EmptyString) skill =
     pre +:+ ("    " +:+ Json.quoted (name param) +:+ ": "
              +:+ Json.quoted ("example_" +:+ name param)) +:+ post) ∧
  (∃ q, q ∈ Generator._prepare_input_params skill ∧
        Generator.ip_name q = name param ∧
        Generator.example_value q =
          match Generator.default_value param with
          | VNone =>
              if decide (param_type param = "string")
              then VStr ("example_" +:+ name param)
              else if decide (param_type param = "integer") then VInt 10
              else if decide (param_type param = "boolean") then VBool true
              else VNone
          | d => d
          end).
Proof.
  split; [by left|]. split; [reflexivity|].
  apply (falsy_default_examples (λ _, EmptyString) Examples.zero_default);
    [by left|reflexivity].
Defined.

(** ** The generator: the template context *)

Lemma mapM_outcome_inr {A B} (f : A → outcome B) (R : A → B → Prop) (l : list A) :
  (∀ x, x ∈ l → ∃ y, f x = inr y ∧ R x y) →
  ∃ ys, mapM f l = inr ys ∧ Forall2 R l ys.
Proof.
  induction l as [|a l IH]; intros H.
  - exists []. split; [done|constructor].
  - destruct (H a) as (y & Hy & HR); [by left|].
    destruct IH as (ys & Hys & HRs); [intros x Hx; apply H; by right|].
    exists (y :: ys). split; [|by constructor].
    simpl. rewrite Hy. simpl. by rewrite Hys.
Qed.

Lemma filter_fmap_comm {A B} (f : A → B) (P : B → Prop) `{!∀ y, Decision (P y)}
    (l : list A) :
  filter P (f <$> l) = f <$> filter (λ x, P (f x)) l.
Proof.
  induction l as [|a l IH]; [done|]. csimpl. rewrite !filter_cons, IH.
  by destruct (decide (P (f a))).
Qed.

Lemma head_filter_Some {A} (P : A → Prop) `{!∀ x, Decision (P x)} (l : list A) x :
  x ∈ l → P x → is_Some (head (filter P l)).
Proof.
  intros Hx HP.
  assert (x ∈ filter P l) as Hf by (by apply list_elem_of_filter).
  destruct (filter P l) as [|y l'] eqn:Hl; [by apply elem_of_nil in Hf|].
  by eexists.
Qed.

Lemma head_match {A} (l : list A) (fallback : option A) :
  is_Some (head l) →
  match l with x :: _ => Some x | [] => fallback end = head l.
Proof. destruct l; [by intros [? ?]|done]. Qed.

(** The first step of the order has no entering edge, the last no leaving
    one. *)
Lemma order_ends w order :
  _get_topological_order w = inr order →
  (∀ entry, head order = Some entry → entry ∉ (edge_pairs w).*2) ∧
  (∀ final, last order = Some final → final ∉ (edge_pairs w).*1).
Proof.
  intros Hrun.
  destruct (topological_order_inr w order Hrun) as (Hclosed & [Hnd Hsub Htr _] & Hlen).
  destruct (order_complete w order Hrun) as [Hperm Hids].
  split.
  - intros entry Hfirst [[s t] [-> Hst]]%list_elem_of_fmap. simpl in *.
    destruct order as [|n order']; [done|].
    assert (n = t) as Heq by (simpl in Hfirst; congruence).
    destruct (Htr 0%nat n eq_refl) as [(_ & _ & Hpred) _].
    apply (elem_of_nil s), Hpred. by rewrite Heq.
  - intros final Hfinal [[s t] [-> Hst]]%list_elem_of_fmap. simpl in *.
    assert (t ∈ order) as Ht.
    { rewrite Hperm, Hids. by apply (Hclosed s t). }
    destruct (trace_edge _ _ order s t Htr Hst Ht) as (i & j & Hi & Hj & Hij).
    rewrite last_lookup in Hfinal.
    assert (i = pred (length order)) by (by eapply NoDup_lookup).
    apply lookup_lt_Some in Hj. lia.
Qed.

Lemma graph_context_cases (skill : SkillYAML) :
  let w := workflow skill in
  match get_topological_order w with
  | inl e => Generator.graph_context skill = inl e
  | inr order =>
      ∃ ctx, Generator.graph_context skill = inr ctx ∧
        Generator.nd_id <$> Generator.ctx_nodes ctx = order ∧
        match nodes w with
        | [] => Generator.start_node ctx = None ∧ Generator.end_node ctx = None
        | _ =>
            Generator.start_node ctx =
              head (filter (λ n, n ∉ (edge_pairs w).*2) (node_ids w)) ∧
            Generator.end_node ctx =
              head (filter (λ n, n ∉ (edge_pairs w).*1) (node_ids w)) ∧
            is_Some (Generator.start_node ctx) ∧ is_Some (Generator.end_node ctx) ∧
            ∃ entry, head order = Some entry ∧ entry ∉ (edge_pairs w).*2
        end
  end.
Proof.
  intros w. unfold Generator.graph_context. fold w.
  destruct (get_topological_order w) as [e|order] eqn:Hrun; [done|].
  unfold get_topological_order in Hrun.
  destruct (topological_order_only_for_dag_aux w order Hrun) as (Hwf & Hacyc & Hperm).
  destruct (order_ends w order Hrun) as [Hfirst Hlast].
  destruct (mapM_outcome_inr
              (λ nid, Generator._prepare_node_data <$> node_item w nid)
              (λ nid data, Generator.nd_id data = nid) order)
    as (ordered & Hmap & Hall).
  { intros n Hn. rewrite Hperm in Hn.
    apply nodes_by_id_is_Some in Hn as [node Hnode].
    exists (Generator._prepare_node_data node). unfold node_item. rewrite Hnode.
    split; [done|]. simpl. by apply nodes_by_id_Some in Hnode as [_ ?]. }
  assert (Generator.nd_id <$> ordered = order) as Hids.
  { clear -Hall. induction Hall as [|? ? ? ? <-]; csimpl; congruence. }
  cbn [mbind outcome_bind]. rewrite Hmap. cbn [mbind outcome_bind mret outcome_ret].
  eexists. split; [reflexivity|]. cbn [Generator.ctx_nodes Generator.start_node Generator.end_node].
  split; [done|].
  assert (∀ side : EdgeModel → string,
            id <$> filter (λ n, id n ∉ (list_to_set (side <$> edges w) : gset string)) (nodes w)
            = filter (λ n, n ∉ side <$> edges w) (node_ids w)) as Hside.
  { intros side. unfold node_ids; simpl.
    rewrite (filter_fmap_comm id (λ n, n ∉ side <$> edges w)).
    f_equal. apply list_filter_iff. intros n. by rewrite elem_of_list_to_set. }
  assert ((edge_pairs w).*2 = target_node <$> edges w) as Htgt.
  { unfold edge_pairs; simpl. rewrite <- list_fmap_compose. done. }
  assert ((edge_pairs w).*1 = source_node <$> edges w) as Hsrc.
  { unfold edge_pairs; simpl. rewrite <- list_fmap_compose. done. }
  rewrite (Hside target_node), (Hside source_node), Htgt, Hsrc.
  destruct (nodes w) as [|node0 rest] eqn:Hnodes.
  { assert (order = []) as ->.
    { apply Permutation_nil_r. rewrite Hperm. unfold node_ids; simpl. by rewrite Hnodes. }
    unfold node_ids; simpl. rewrite Hnodes. csimpl.
    apply Forall2_nil_inv_l in Hall as ->. done. }
  destruct order as [|entry order'] eqn:Horder.
  { apply Permutation_nil_l in Hperm. unfold node_ids in Hperm; simpl in Hperm.
    rewrite Hnodes in Hperm. done. }
  rewrite <- Horder in *.
  assert (is_Some (last order)) as [final Hfinal].
  { rewrite Horder. destruct (last (entry :: order')) eqn:Hl; [by eexists|].
    by apply last_None in Hl. }
  assert (head order = Some entry) as Hhead by (by rewrite Horder).
  assert (is_Some (head (filter (λ n, n ∉ target_node <$> edges w) (node_ids w)))) as Hs.
  { apply (head_filter_Some _ _ entry).
    - rewrite <- Hperm, Horder. by left.
    - rewrite <- Htgt. by apply Hfirst. }
  assert (is_Some (head (filter (λ n, n ∉ source_node <$> edges w) (node_ids w)))) as Ht.
  { apply (head_filter_Some _ _ final).
    - rewrite <- Hperm. by apply last_Some_elem_of.
    - rewrite <- Hsrc. by apply Hlast. }
  rewrite !head_match by done.
  split_and!; [done..|]. exists entry. split; [done|]. rewrite <- Htgt. by apply Hfirst.
Qed.

(** X22.  The context of [graph.py].  The generator raises exactly when the
    ordering raises.  Otherwise the nodes are handed over in execution order,
    and for a workflow with at least one node the start node is the first
    node of the document that no edge enters and the end node the first that
    no edge leaves: an acyclic graph has both, so the fall-back to the ends
    of the execution order is never taken.  The first step of the execution
    order has no entering edge either. *)
Theorem graph_context_endpoints (skill : SkillYAML) :
  let w := workflow skill in
  match get_topological_order w with
  | inl e => Generator.graph_context skill = inl e
  | inr order =>
      ∃ ctx, Generator.graph_context skill = inr ctx ∧
        Generator.nd_id <$> Generator.ctx_nodes ctx = order ∧
        match nodes w with
        | [] => Generator.start_node ctx = None ∧ Generator.end_node ctx = None
        | _ =>
            Generator.start_node ctx =
              head (filter (λ n, n ∉ (edge_pairs w).*2) (node_ids w)) ∧
            Generator.end_node ctx =
              head (filter (λ n, n ∉ (edge_pairs w).*1) (node_ids w)) ∧
            is_Some (Generator.start_node ctx) ∧ is_Some (Generator.end_node ctx) ∧
            ∃ entry, head order = Some entry ∧ entry ∉ (edge_pairs w).*2
        end
  end.
Proof. apply graph_context_cases. Qed.

(** The ends of the sample pipeline, as the generated [graph.py] wires them
    to [START] and [END]. *)
Example similarity_search_endpoints :
  (λ ctx, (Generator.start_node ctx, Generator.end_node ctx,
           Generator.required_inputs ctx))
    <$> Generator.graph_context Examples.similarity_search =
  inr (Some "generate_embedding", Some "display_results", ["workorder_description"]).
Proof. by vm_compute. Qed.

(** With two steps that no edge enters, the start node is the one listed
    first in the document; the execution order begins with the smaller id. *)
Example start_node_follows_document :
  get_topological_order (workflow Examples.unordered_pair) = inr ["a"; "b"] ∧
  Generator.start_node <$> Generator.graph_context Examples.unordered_pair =
    inr (Some "b").
Proof. split; by vm_compute. Qed.

(** ** From the verdict to the generator *)

(** X23.  A skill that [validate] accepts can be generated: the context of
    [graph.py] is computed without an exception, it hands over every node once,
    in the execution order, and the same order is what [get_topological_order]
    gives to the manifest and the README. *)
Theorem accepted_skill_generates (skill : SkillYAML) (report : list error) :
  validate_skill skill = inr (true, report) →
  ∃ ctx order,
    Generator.graph_context skill = inr ctx ∧
    get_topological_order (workflow skill) = inr order ∧
    Generator.nd_id <$> Generator.ctx_nodes ctx = order ∧
    order ≡ₚ node_ids (workflow skill) ∧
    Generator.ctx_edges ctx = edge_pairs (workflow skill).
Proof.
  unfold validate_skill. intros Hok.
  destruct (validate_accepts_cases skill) as [Hnil Hiff]. simpl in Hiff.
  rewrite (Hnil report Hok) in Hok.
  apply Hiff in Hok as (Hwf & Hacyc & order & Hrun & _).
  destruct (topological_order_only_for_dag_aux _ order Hrun) as (_ & _ & Hperm).
  pose proof (graph_context_cases skill) as Hctx. simpl in Hctx.
  rewrite Hrun in Hctx. destruct Hctx as (ctx & Hctx & Hids & _).
  exists ctx, order. split_and!; [done..|].
  unfold Generator.graph_context in Hctx. rewrite Hrun in Hctx.
  cbn [mbind outcome_bind] in Hctx.
  destruct (mapM _ order) as [e|ordered]; [done|].
  cbn [mbind outcome_bind mret outcome_ret] in Hctx. by injection Hctx as <-.
Qed.

Lemma accepted_skill_generates_witness :
  validate_skill Examples.similarity_search = inr (true, []) ∧
  ∃ ctx order,
    Generator.graph_context Examples.similarity_search = inr ctx ∧
    get_topological_order (workflow Examples.similarity_search) = inr order ∧
    Generator.nd_id <$> Generator.ctx_nodes ctx = order ∧
    order ≡ₚ node_ids (workflow Examples.similarity_search) ∧
    Generator.ctx_edges ctx = edge_pairs (workflow Examples.similarity_search).
Proof.
  assert (validate_skill Examples.similarity_search = inr (true, [])) as Hok
    by (by vm_compute).
  split; [exact Hok|].
  exact (accepted_skill_generates Examples.similarity_search [] Hok).
Defined.
